(** * The execution core of operate-enhanced: caches, state, security, orchestration

    A shallow embedding of
    - [operate/interfaces/base.py]   (module [Interfaces]),
    - [operate/core/performance.py]  (module [Performance], the LRU cache),
    - [operate/state/manager.py]     (module [Manager]),
    - [operate/security/guardian.py] (module [Guardian]),
    - [operate/core/orchestrator.py] (module [Orchestrator]),
    together with the properties the specification states about them.

    Conventions.  Python [int] is [Z].  A [datetime] is a [Z] (seconds on the
    UTC clock) and every [datetime.utcnow()] is a clock reading handed to the
    function that makes it.  A Python [str] is a [string] holding its UTF-8
    bytes.  Coroutines are run to completion one after the other, so [await]
    is plain sequencing. *)

From Stdlib Require Import ZArith String Ascii List Bool Lia Sorted.
From stdpp Require Import gmap strings list fin_maps pretty.
Import ListNotations.

Set Warnings "-register-all".

Local Open Scope string_scope.
Local Open Scope list_scope.
Local Open Scope Z_scope.

(** ** Python values *)

Module Py.

(** The values the core stores and inspects ([Any] in the source). *)
Inductive PyValue : Type :=
| PyNone
| PyBool (b : bool)
| PyInt (z : Z)
| PyStr (s : string)
| PyBytes (b : list Byte.byte)
| PyDatetime (t : Z)
| PyList (items : list PyValue)
| PyDict (items : list (string * PyValue)).

(** Truth value testing ([if v:], [not v]). *)
Definition truthy (v : PyValue) : bool :=
  match v with
  | PyNone => false
  | PyBool b => b
  | PyInt z => negb (z =? 0)
  | PyStr s => negb (String.eqb s "")
  | PyBytes b => match b with [] => false | _ => true end
  | PyDatetime _ => true
  | PyList l => match l with [] => false | _ => true end
  | PyDict d => match d with [] => false | _ => true end
  end.

(** [v is None] *)
Definition is_none (v : PyValue) : bool :=
  match v with PyNone => true | _ => false end.

(** [d.get(k)] on a dict with string keys: [None] when the key is absent. *)
Fixpoint dict_get (k : string) (d : list (string * PyValue)) : PyValue :=
  match d with
  | [] => PyNone
  | (k', v) :: rest => if String.eqb k k' then v else dict_get k rest
  end.

(** [k in d] *)
Fixpoint dict_has (k : string) (d : list (string * PyValue)) : bool :=
  match d with
  | [] => false
  | (k', _) :: rest => String.eqb k k' || dict_has k rest
  end.

(** [len(s)] of a [str]: code points, i.e. the bytes that are not UTF-8
    continuation bytes. *)
Definition is_continuation (a : ascii) : bool :=
  let n := N_of_ascii a in (128 <=? n)%N && (n <? 192)%N.

Fixpoint str_len (s : string) : Z :=
  match s with
  | EmptyString => 0
  | String a rest => (if is_continuation a then 0 else 1) + str_len rest
  end.

(** [len(s.encode())]. *)
Definition encoded_len (s : string) : Z := Z.of_nat (String.length s).

(** Exceptions, by class and message. *)
Inductive PyError : Type :=
| ValueError (msg : string)
| RuntimeError (msg : string)
| TypeError (msg : string)
| AttributeError (msg : string)
| KeyError (msg : string)
| PermissionError (msg : string)
| TimeoutError (msg : string)
| AsyncioTimeoutError
| OtherError (msg : string).

(** A call either returns or raises. *)
Inductive outcome (A : Type) : Type :=
| Ok (a : A)
| Raise (e : PyError).
Arguments Ok {A} a.
Arguments Raise {A} e.

(** [s.startswith(prefix)] *)
Fixpoint startswith (pre s : string) : bool :=
  match pre, s with
  | EmptyString, _ => true
  | String a pre', String b s' => Ascii.eqb a b && startswith pre' s'
  | String _ _, EmptyString => false
  end.
Arguments startswith : simpl never.

Lemma str_len_nonneg s : 0 <= str_len s.
Proof. induction s as [|a s IH]; simpl; [lia|]. destruct (is_continuation a); lia. Qed.

Lemma encoded_len_nonneg s : 0 <= encoded_len s.
Proof. unfold encoded_len. lia. Qed.

End Py.

(** ** An insertion-ordered dictionary ([collections.OrderedDict]) *)

Module OrderedDict.

Section Ops.
Context {V : Type}.

Definition t := list (string * V).

Definition keys (d : list (string * V)) : list string := map fst d.

Fixpoint lookup (k : string) (d : list (string * V)) : option V :=
  match d with
  | [] => None
  | (k', v) :: rest => if String.eqb k k' then Some v else lookup k rest
  end.

Definition contains (k : string) (d : list (string * V)) : bool :=
  match lookup k d with Some _ => true | None => false end.

(** [del d[k]] *)
Fixpoint delete (k : string) (d : list (string * V)) : list (string * V) :=
  match d with
  | [] => []
  | (k', v) :: rest => if String.eqb k k' then rest else (k', v) :: delete k rest
  end.

(** [d[k] = v]: an existing key keeps its position, a new one goes last. *)
Fixpoint setitem (k : string) (v : V) (d : list (string * V)) : list (string * V) :=
  match d with
  | [] => [(k, v)]
  | (k', v') :: rest =>
      if String.eqb k k' then (k, v) :: rest else (k', v') :: setitem k v rest
  end.

(** [d.move_to_end(k)].  Python raises [KeyError] on an absent key; every
    call site of the cache holds the key, and the dictionary is returned
    as it is otherwise. *)
Definition move_to_end (k : string) (d : list (string * V)) : list (string * V) :=
  match lookup k d with
  | Some v => delete k d ++ [(k, v)]
  | None => d
  end.

(** [d.popitem(last=False)] *)
Definition popitem_first (d : list (string * V)) : option ((string * V) * list (string * V)) :=
  match d with
  | [] => None
  | kv :: rest => Some (kv, rest)
  end.
End Ops.

Section Facts.
Context {V : Type}.
Implicit Types (d : list (string * V)) (k : string) (v : V).

Lemma lookup_None_keys k d : lookup k d = None <-> k ∉ keys d.
Proof.
  induction d as [|[k' v'] d IH]; simpl.
  - split; [intros _; apply not_elem_of_nil | done].
  - destruct (String.eqb_spec k k') as [->|Hne].
    + split; [done | intros H; exfalso; apply H; left].
    + rewrite IH, not_elem_of_cons. tauto.
Qed.

Lemma lookup_Some_keys k v d : lookup k d = Some v -> k ∈ keys d.
Proof.
  intros H. destruct (decide (k ∈ keys d)) as [|Hn]; [done|].
  apply lookup_None_keys in Hn. congruence.
Qed.

Lemma lookup_Some_elem k v d : lookup k d = Some v -> (k, v) ∈ d.
Proof.
  induction d as [|[k' v'] d IH]; simpl; [done|].
  destruct (String.eqb_spec k k') as [->|Hne].
  - intros [= ->]. left.
  - intros H. right. auto.
Qed.

Lemma delete_absent k d : k ∉ keys d -> delete k d = d.
Proof.
  induction d as [|[k' v'] d IH]; simpl; [done|].
  rewrite not_elem_of_cons. intros [Hne Hd].
  destruct (String.eqb_spec k k'); [done|]. by rewrite IH.
Qed.

Lemma setitem_absent k v d : k ∉ keys d -> setitem k v d = d ++ [(k, v)].
Proof.
  induction d as [|[k' v'] d IH]; simpl; [done|].
  rewrite not_elem_of_cons. intros [Hne Hd].
  destruct (String.eqb_spec k k'); [done|]. by rewrite IH.
Qed.

Lemma lookup_setitem k v d : lookup k (setitem k v d) = Some v.
Proof.
  induction d as [|[k' v'] d IH]; simpl.
  - by rewrite String.eqb_refl.
  - destruct (String.eqb_spec k k') as [->|Hne]; simpl.
    + by rewrite String.eqb_refl.
    + destruct (String.eqb_spec k k'); done.
Qed.

Lemma delete_setitem k v d : delete k (setitem k v d) = delete k d.
Proof.
  induction d as [|[k' v'] d IH]; simpl.
  - by rewrite String.eqb_refl.
  - destruct (String.eqb_spec k k') as [->|Hne]; simpl.
    + by rewrite String.eqb_refl.
    + destruct (String.eqb_spec k k'); [done|]. by rewrite IH.
Qed.

(** Writing a key and moving it to the end leaves it last, whatever its
    earlier position. *)
Lemma move_to_end_setitem k v d :
  move_to_end k (setitem k v d) = delete k d ++ [(k, v)].
Proof. unfold move_to_end. by rewrite lookup_setitem, delete_setitem. Qed.

Lemma keys_delete_sub k d x : x ∈ keys (delete k d) -> x ∈ keys d.
Proof.
  induction d as [|[k' v'] d IH]; simpl; [done|].
  destruct (String.eqb_spec k k'); simpl.
  - intros H. by right.
  - rewrite !elem_of_cons. intros [->|H]; [by left | right; auto].
Qed.

Lemma keys_delete_NoDup k d : NoDup (keys d) -> NoDup (keys (delete k d)).
Proof.
  induction d as [|[k' v'] d IH]; simpl; [done|].
  rewrite NoDup_cons. intros [Hk Hd].
  destruct (String.eqb_spec k k'); simpl; [done|].
  apply NoDup_cons. split; [|auto].
  intros H. apply Hk. by eapply keys_delete_sub.
Qed.

Lemma keys_delete_absent k d : NoDup (keys d) -> k ∉ keys (delete k d).
Proof.
  induction d as [|[k' v'] d IH]; simpl; [intros _; apply not_elem_of_nil|].
  rewrite NoDup_cons. intros [Hk Hd].
  destruct (String.eqb_spec k k') as [->|Hne]; simpl; [done|].
  rewrite not_elem_of_cons. auto.
Qed.

Lemma length_delete k v d : lookup k d = Some v -> S (length (delete k d)) = length d.
Proof.
  revert v. induction d as [|[k' v'] d IH]; simpl; [done|]. intros v.
  destruct (String.eqb_spec k k'); simpl; [done|].
  intros H. by rewrite (IH _ H).
Qed.

Lemma keys_app d1 d2 : keys (d1 ++ d2) = keys d1 ++ keys d2.
Proof. unfold keys. apply map_app. Qed.
End Facts.

End OrderedDict.

(** ** [operate/core/performance.py]: the LRU cache *)

Module Performance.

Import Py.

Record CacheEntry : Type := mkCacheEntry {
  key : string;
  value : PyValue;
  timestamp : Z;
  hit_count : Z;
  size_bytes : Z;
  ttl : option Z
}.

(** [CacheEntry.is_expired], at clock reading [now]. *)
Definition is_expired (e : CacheEntry) (now : Z) : bool :=
  match ttl e with
  | None => false
  | Some t => if t =? 0 then false else timestamp e + t <? now
  end.

Record LRUCache : Type := mkLRUCache {
  max_size : Z;
  max_memory_bytes : Z;
  _cache : list (string * CacheEntry);
  _total_size : Z
}.

(** [LRUCache.__init__] *)
Definition new_cache (max_size max_memory_mb : Z) : LRUCache :=
  {| max_size := max_size;
     max_memory_bytes := max_memory_mb * 1024 * 1024;
     _cache := [];
     _total_size := 0 |}.

Section Cache.
(** Python's [str()] on a value, used by the size estimate of containers. *)
Variable py_str : PyValue -> string.

(** [LRUCache._estimate_size] *)
Definition _estimate_size (v : PyValue) : Z :=
  match v with
  | PyBytes b => Z.of_nat (length b)
  | PyStr s => encoded_len s
  | PyList _ | PyDict _ => str_len (py_str v)
  | _ => 64
  end.

(** [LRUCache.get]: the returned value and the cache afterwards. *)
Definition get (k : string) (now : Z) (c : LRUCache) : option PyValue * LRUCache :=
  match OrderedDict.lookup k (_cache c) with
  | None => (None, c)
  | Some entry =>
      if is_expired entry now then
        (None,
         {| max_size := max_size c; max_memory_bytes := max_memory_bytes c;
            _cache := OrderedDict.delete k (_cache c);
            _total_size := _total_size c - size_bytes entry |})
      else
        let entry' := {| key := key entry; value := value entry;
                         timestamp := timestamp entry;
                         hit_count := hit_count entry + 1;
                         size_bytes := size_bytes entry; ttl := ttl entry |} in
        (Some (value entry),
         {| max_size := max_size c; max_memory_bytes := max_memory_bytes c;
            _cache := OrderedDict.setitem k entry'
                        (OrderedDict.move_to_end k (_cache c));
            _total_size := _total_size c |})
  end.

(** The loop of [LRUCache._evict_if_needed]: the keys it evicts (one debug
    line each in the source), the remaining entries and the accounted
    size.  Each turn pops the first entry, so the recursion is on the
    entries. *)
Fixpoint evict_loop (max_sz max_mem : Z) (cache : list (string * CacheEntry)) (total : Z)
  : list string * (list (string * CacheEntry) * Z) :=
  if (Z.of_nat (length cache) >? max_sz) || (total >? max_mem) then
    match cache with
    | [] => ([], ([], total))
    | (k, entry) :: rest =>
        let '(evicted, r) := evict_loop max_sz max_mem rest (total - size_bytes entry) in
        (k :: evicted, r)
    end
  else ([], (cache, total)).

Definition _evict_if_needed (c : LRUCache) : list string * LRUCache :=
  let '(evicted, (cache, total)) :=
    evict_loop (max_size c) (max_memory_bytes c) (_cache c) (_total_size c) in
  (evicted,
   {| max_size := max_size c; max_memory_bytes := max_memory_bytes c;
      _cache := cache; _total_size := total |}).

(** [LRUCache.set]: the evicted keys and the cache afterwards. *)
Definition set (k : string) (v : PyValue) (ttl : option Z) (now : Z) (c : LRUCache)
  : list string * LRUCache :=
  let size := _estimate_size v in
  let total1 :=
    match OrderedDict.lookup k (_cache c) with
    | Some old => _total_size c - size_bytes old
    | None => _total_size c
    end in
  let entry := {| key := k; value := v; timestamp := now; hit_count := 0;
                  size_bytes := size; ttl := ttl |} in
  let cache1 := OrderedDict.move_to_end k (OrderedDict.setitem k entry (_cache c)) in
  _evict_if_needed
    {| max_size := max_size c; max_memory_bytes := max_memory_bytes c;
       _cache := cache1; _total_size := total1 + size |}.

(** [LRUCache.clear] *)
Definition clear (c : LRUCache) : LRUCache :=
  {| max_size := max_size c; max_memory_bytes := max_memory_bytes c;
     _cache := []; _total_size := 0 |}.

(** A caller's view: calls made on one cache, in order. *)
Inductive CacheOp : Type :=
| OpGet (k : string) (now : Z)
| OpSet (k : string) (v : PyValue) (ttl : option Z) (now : Z)
| OpClear.

(** What a run has observed so far: the cache, the keys used (hit by
    [get] or written by [set]), most recent first, and the keys evicted,
    oldest first. *)
Record Run : Type := mkRun {
  cache : LRUCache;
  used : list string;
  evictions : list string
}.

Definition step (r : Run) (op : CacheOp) : Run :=
  match op with
  | OpGet k now =>
      let '(res, c') := get k now (cache r) in
      {| cache := c';
         used := match res with Some _ => k :: used r | None => used r end;
         evictions := evictions r |}
  | OpSet k v ttl now =>
      let '(ev, c') := set k v ttl now (cache r) in
      {| cache := c'; used := k :: used r; evictions := evictions r ++ ev |}
  | OpClear =>
      {| cache := clear (cache r); used := used r; evictions := evictions r |}
  end.

Definition run (ops : list CacheOp) (c : LRUCache) : Run :=
  fold_left step ops {| cache := c; used := []; evictions := [] |}.

(** How long ago a key was last used: its first position in [used]. *)
Fixpoint recency (tr : list string) (k : string) : nat :=
  match tr with
  | [] => O
  | k' :: rest => if String.eqb k k' then O else S (recency rest k)
  end.

(** *** Size accounting *)

Definition sum_sizes (d : list (string * CacheEntry)) : Z :=
  fold_right (fun kv acc => size_bytes kv.2 + acc) 0 d.

Definition sizes_nonneg (d : list (string * CacheEntry)) : Prop :=
  Forall (fun kv => 0 <= size_bytes kv.2) d.

(** The representation invariant of a cache: keys are unique, the
    accounted size is the sum of the entries' sizes, no size is negative. *)
Record cache_ok (c : LRUCache) : Prop := mk_cache_ok {
  ok_nodup : NoDup (OrderedDict.keys (_cache c));
  ok_total : _total_size c = sum_sizes (_cache c);
  ok_sizes : sizes_nonneg (_cache c)
}.

Definition within_budget (c : LRUCache) : Prop :=
  Z.of_nat (length (_cache c)) <= max_size c /\ _total_size c <= max_memory_bytes c.

Lemma _estimate_size_nonneg v : 0 <= _estimate_size v.
Proof.
  destruct v; simpl; try lia;
    auto using str_len_nonneg, encoded_len_nonneg.
Qed.

Lemma sum_sizes_app d1 d2 : sum_sizes (d1 ++ d2) = sum_sizes d1 + sum_sizes d2.
Proof. induction d1 as [|kv d1 IH]; simpl; lia. Qed.

Lemma sum_sizes_nonneg d : sizes_nonneg d -> 0 <= sum_sizes d.
Proof. induction 1; simpl; lia. Qed.

Lemma sum_sizes_delete k e d :
  OrderedDict.lookup k d = Some e ->
  sum_sizes (OrderedDict.delete k d) = sum_sizes d - size_bytes e.
Proof.
  induction d as [|[k' e'] d IH]; simpl; [done|].
  destruct (String.eqb_spec k k').
  - intros [= ->]. lia.
  - intros H. simpl. rewrite (IH H). lia.
Qed.

Lemma sizes_nonneg_delete k d : sizes_nonneg d -> sizes_nonneg (OrderedDict.delete k d).
Proof.
  induction 1 as [|[k' e'] d Hx Hd IH]; simpl; [constructor|].
  destruct (String.eqb k k'); [done|]. by constructor.
Qed.

Lemma sizes_nonneg_lookup k e d :
  sizes_nonneg d -> OrderedDict.lookup k d = Some e -> 0 <= size_bytes e.
Proof.
  intros Hd Hl. apply OrderedDict.lookup_Some_elem in Hl.
  unfold sizes_nonneg in Hd. rewrite Forall_forall in Hd. apply (Hd _ Hl).
Qed.

(** *** The eviction loop *)

Lemma evict_loop_unfold max_sz max_mem d total :
  evict_loop max_sz max_mem d total =
  if (Z.of_nat (length d) >? max_sz) || (total >? max_mem) then
    match d with
    | [] => ([], ([], total))
    | (k, entry) :: rest =>
        let '(evicted, r) := evict_loop max_sz max_mem rest (total - size_bytes entry) in
        (k :: evicted, r)
    end
  else ([], (d, total)).
Proof. destruct d; reflexivity. Qed.

(** Within both budgets the loop evicts nothing. *)
Lemma evict_loop_idle max_sz max_mem d total :
  Z.of_nat (length d) <= max_sz -> total <= max_mem ->
  evict_loop max_sz max_mem d total = ([], (d, total)).
Proof.
  intros H1 H2. rewrite evict_loop_unfold.
  destruct (Z.gtb_spec (Z.of_nat (length d)) max_sz); [lia|].
  destruct (Z.gtb_spec total max_mem); [lia|]. done.
Qed.

(** The loop removes a prefix of the entries, in order, and leaves a cache
    within both budgets. *)
Lemma evict_loop_spec max_sz max_mem d total :
  0 <= max_sz -> 0 <= max_mem ->
  sizes_nonneg d -> total = sum_sizes d ->
  exists pre d',
    evict_loop max_sz max_mem d total = (OrderedDict.keys pre, (d', sum_sizes d'))
    /\ d = pre ++ d'
    /\ Z.of_nat (length d') <= max_sz /\ sum_sizes d' <= max_mem.
Proof.
  intros Hsz Hmem Hd. revert total.
  induction Hd as [|[k e] d Hx Hd IH]; intros total ->.
  - exists [], []. rewrite evict_loop_idle by (simpl; lia).
    repeat split; simpl; lia.
  - rewrite evict_loop_unfold.
    destruct ((Z.of_nat (length ((k, e) :: d)) >? max_sz)
              || (sum_sizes ((k, e) :: d) >? max_mem)) eqn:E.
    + destruct (IH (sum_sizes ((k, e) :: d) - size_bytes e)) as (pre & d' & Hev & -> & Hb).
      { simpl. lia. }
      exists ((k, e) :: pre), d'. rewrite Hev. simpl. repeat split; tauto.
    + exists [], ((k, e) :: d). apply orb_false_iff in E as [E1 E2].
      destruct (Z.gtb_spec (Z.of_nat (length ((k, e) :: d))) max_sz); [done|].
      destruct (Z.gtb_spec (sum_sizes ((k, e) :: d)) max_mem); [done|].
      repeat split; auto.
Qed.

(** One entry over the count budget, bytes within budget: the loop evicts
    exactly the first entry. *)
Lemma evict_loop_one max_sz max_mem k e d total :
  Z.of_nat (length d) = max_sz -> 0 <= size_bytes e -> total <= max_mem ->
  evict_loop max_sz max_mem ((k, e) :: d) total = ([k], (d, total - size_bytes e)).
Proof.
  intros Hlen He Hmem. rewrite evict_loop_unfold.
  destruct (Z.gtb_spec (Z.of_nat (length ((k, e) :: d))) max_sz) as [_|Hn].
  - simpl orb. rewrite evict_loop_idle by lia. done.
  - simpl length in Hn. lia.
Qed.

(** *** Recency order *)

(** The entries run from least to most recently used. *)
Definition lru_sorted (tr : list string) (ks : list string) : Prop :=
  StronglySorted (fun a b => (recency tr b < recency tr a)%nat) ks.

Lemma recency_head k tr : recency (k :: tr) k = O.
Proof. simpl. by rewrite String.eqb_refl. Qed.

Lemma recency_other k k' tr : k' <> k -> recency (k :: tr) k' = S (recency tr k').
Proof. intros H. simpl. by destruct (String.eqb_spec k' k). Qed.

Lemma lru_sorted_snoc tr k ks :
  k ∉ ks -> lru_sorted tr ks -> lru_sorted (k :: tr) (ks ++ [k]).
Proof.
  intros Hk Hs. induction Hs as [|a l Hl IH Ha]; simpl.
  - repeat constructor.
  - apply not_elem_of_cons in Hk as [Hka Hkl].
    constructor; [by apply IH|].
    apply Forall_app. split.
    + rewrite Forall_forall in Ha. apply Forall_forall. intros b Hb.
      assert (b <> k) by (intros ->; done).
      rewrite !recency_other by done. specialize (Ha b Hb). lia.
    + constructor; [|constructor].
      rewrite recency_head, recency_other by done. lia.
Qed.

Lemma Forall_keys_delete (P : string -> Prop) k (d : list (string * CacheEntry)) :
  Forall P (OrderedDict.keys d) -> Forall P (OrderedDict.keys (OrderedDict.delete k d)).
Proof.
  rewrite !Forall_forall. intros H x Hx. apply H. by eapply OrderedDict.keys_delete_sub.
Qed.

Lemma lru_sorted_delete tr k (d : list (string * CacheEntry)) :
  lru_sorted tr (OrderedDict.keys d) ->
  lru_sorted tr (OrderedDict.keys (OrderedDict.delete k d)).
Proof.
  induction d as [|[k' e'] d IH]; simpl; [done|].
  intros Hs. apply StronglySorted_inv in Hs as [Hs Hf].
  destruct (String.eqb k k'); [done|]. simpl.
  constructor; [by apply IH | by apply Forall_keys_delete].
Qed.

Lemma lru_sorted_touch tr k e (d : list (string * CacheEntry)) :
  NoDup (OrderedDict.keys d) -> lru_sorted tr (OrderedDict.keys d) ->
  lru_sorted (k :: tr) (OrderedDict.keys (OrderedDict.delete k d ++ [(k, e)])).
Proof.
  intros Hnd Hs. rewrite OrderedDict.keys_app. simpl.
  apply lru_sorted_snoc.
  - by apply OrderedDict.keys_delete_absent.
  - by apply lru_sorted_delete.
Qed.

Lemma lru_sorted_suffix tr (ks1 ks2 : list string) :
  lru_sorted tr (ks1 ++ ks2) -> lru_sorted tr ks2.
Proof.
  induction ks1 as [|a ks1 IH]; simpl; [done|].
  intros H. apply StronglySorted_inv in H as [H _]. auto.
Qed.

(** The first entry is the least recently used one. *)
Lemma lru_sorted_head tr e ks k' :
  lru_sorted tr (e :: ks) -> k' ∈ e :: ks -> k' <> e ->
  (recency tr k' < recency tr e)%nat.
Proof.
  intros Hs Hin Hne. apply StronglySorted_inv in Hs as [_ Hf].
  apply elem_of_cons in Hin as [->|Hin]; [done|].
  rewrite Forall_forall in Hf. by apply Hf.
Qed.

(** *** What every call preserves *)

Record run_ok (r : Run) : Prop := mk_run_ok {
  rok_size : 0 <= max_size (cache r);
  rok_mem : 0 <= max_memory_bytes (cache r);
  rok_cache : cache_ok (cache r);
  rok_budget : within_budget (cache r);
  rok_sorted : lru_sorted (used r) (OrderedDict.keys (_cache (cache r)))
}.

Lemma setitem_last k (v v0 : CacheEntry) d :
  k ∉ OrderedDict.keys d ->
  OrderedDict.setitem k v (d ++ [(k, v0)]) = d ++ [(k, v)].
Proof.
  induction d as [|[k' v'] d IH]; simpl.
  - by rewrite String.eqb_refl.
  - rewrite not_elem_of_cons. intros [Hne Hd].
    destruct (String.eqb_spec k k'); [done|]. by rewrite IH.
Qed.

(** The entries after a hit: the entry moved last, its hit count bumped. *)
Lemma get_hit_cache k now c entry :
  NoDup (OrderedDict.keys (_cache c)) ->
  OrderedDict.lookup k (_cache c) = Some entry ->
  is_expired entry now = false ->
  exists entry',
    size_bytes entry' = size_bytes entry /\
    get k now c =
      (Some (value entry),
       {| max_size := max_size c; max_memory_bytes := max_memory_bytes c;
          _cache := OrderedDict.delete k (_cache c) ++ [(k, entry')];
          _total_size := _total_size c |}).
Proof.
  intros Hnd Hl He. unfold get. rewrite Hl, He.
  eexists. split; [|unfold OrderedDict.move_to_end; rewrite Hl, setitem_last;
                     [reflexivity | by apply OrderedDict.keys_delete_absent]].
  done.
Qed.

Lemma NoDup_keys_snoc k (e : CacheEntry) d :
  NoDup (OrderedDict.keys d) ->
  NoDup (OrderedDict.keys (OrderedDict.delete k d ++ [(k, e)])).
Proof.
  intros Hnd. rewrite OrderedDict.keys_app. apply NoDup_app. split; [|split].
  - by apply OrderedDict.keys_delete_NoDup.
  - intros x Hx Hx'. simpl in Hx'. apply list_elem_of_singleton in Hx' as ->.
    by eapply OrderedDict.keys_delete_absent.
  - simpl. apply NoDup_singleton.
Qed.

Lemma step_ok r op : run_ok r -> run_ok (step r op).
Proof.
  intros [Hsz Hmem [Hnd Htot Hnn] [Hlen Hb] Hs]. destruct op as [k now|k v t now|]; simpl.
  - (* get *)
    destruct (OrderedDict.lookup k (_cache (cache r))) as [entry|] eqn:Hl.
    2:{ unfold get. rewrite Hl. by repeat constructor. }
    pose proof (sizes_nonneg_lookup _ _ _ Hnn Hl) as Hpos.
    destruct (is_expired entry now) eqn:He.
    + unfold get. rewrite Hl, He. simpl. constructor; simpl; try done.
      * constructor; simpl.
        -- by apply OrderedDict.keys_delete_NoDup.
        -- rewrite (sum_sizes_delete _ _ _ Hl). lia.
        -- by apply sizes_nonneg_delete.
      * split; simpl; [|lia].
        pose proof (OrderedDict.length_delete _ _ _ Hl). lia.
      * by apply lru_sorted_delete.
    + destruct (get_hit_cache k now _ _ Hnd Hl He) as (entry' & Hsize & ->).
      simpl. constructor; simpl; try done.
      * constructor; simpl.
        -- by apply NoDup_keys_snoc.
        -- rewrite sum_sizes_app, (sum_sizes_delete _ _ _ Hl). simpl. lia.
        -- apply Forall_app. split; [by apply sizes_nonneg_delete|].
           constructor; [simpl; lia | constructor].
      * split; simpl; [|lia]. rewrite length_app. simpl.
        pose proof (OrderedDict.length_delete _ _ _ Hl). lia.
      * by apply lru_sorted_touch.
  - (* set *)
    unfold set, _evict_if_needed. cbn [max_size max_memory_bytes _cache _total_size].
    rewrite OrderedDict.move_to_end_setitem.
    set (entry := {| key := k; value := v; timestamp := now; hit_count := 0;
                     size_bytes := _estimate_size v; ttl := t |}).
    set (d1 := OrderedDict.delete k (_cache (cache r)) ++ [(k, entry)]).
    set (total1 := _ + _estimate_size v).
    assert (sizes_nonneg d1) as Hnn1.
    { apply Forall_app. split; [by apply sizes_nonneg_delete|].
      constructor; [apply _estimate_size_nonneg | constructor]. }
    assert (total1 = sum_sizes d1) as Htot1.
    { unfold total1, d1. rewrite sum_sizes_app. simpl.
      destruct (OrderedDict.lookup k (_cache (cache r))) as [old|] eqn:Hl.
      - rewrite (sum_sizes_delete _ _ _ Hl). lia.
      - rewrite OrderedDict.delete_absent by (by apply OrderedDict.lookup_None_keys). lia. }
    destruct (evict_loop_spec (max_size (cache r)) (max_memory_bytes (cache r))
                d1 total1 Hsz Hmem Hnn1 Htot1) as (pre & d' & -> & Hd1 & Hb1 & Hb2).
    simpl.
    assert (NoDup (OrderedDict.keys d1)) as Hnd1 by (by apply NoDup_keys_snoc).
    assert (lru_sorted (k :: used r) (OrderedDict.keys d1)) as Hs1
      by (by apply lru_sorted_touch).
    rewrite Hd1, OrderedDict.keys_app in Hnd1, Hs1.
    constructor; simpl; try done.
    + constructor; simpl; try done.
      * by apply NoDup_app in Hnd1 as (_ & _ & ?).
      * rewrite Hd1 in Hnn1. by apply Forall_app in Hnn1 as [_ ?].
    + by eapply lru_sorted_suffix.
  - (* clear *)
    constructor; simpl; try done.
    + constructor; simpl; [apply NoDup_nil_2 | done | constructor].
    + constructor.
Qed.

Lemma run_snoc ops op c : run (ops ++ [op]) c = step (run ops c) op.
Proof. unfold run. by rewrite fold_left_app. Qed.

Lemma new_cache_ok max_sz max_mb :
  0 <= max_sz -> 0 <= max_mb ->
  run_ok {| cache := new_cache max_sz max_mb; used := []; evictions := [] |}.
Proof.
  intros H1 H2. constructor; simpl; try lia.
  - constructor; simpl; [apply NoDup_nil_2 | done | constructor].
  - split; simpl; lia.
  - constructor.
Qed.

Lemma run_ok_run ops max_sz max_mb :
  0 <= max_sz -> 0 <= max_mb -> run_ok (run ops (new_cache max_sz max_mb)).
Proof.
  intros H1 H2. induction ops as [|op ops IH] using rev_ind.
  - by apply new_cache_ok.
  - rewrite run_snoc. by apply step_ok.
Qed.

Lemma step_params r op :
  max_size (cache (step r op)) = max_size (cache r) /\
  max_memory_bytes (cache (step r op)) = max_memory_bytes (cache r).
Proof.
  destruct op as [k now|k v t now|]; simpl.
  - unfold get. destruct (OrderedDict.lookup _ _); [|done].
    by destruct (is_expired _ _).
  - unfold set, _evict_if_needed. simpl.
    by destruct (evict_loop _ _ _ _) as [ev [d t']].
  - done.
Qed.

Lemma run_params ops c :
  max_size (cache (run ops c)) = max_size c /\
  max_memory_bytes (cache (run ops c)) = max_memory_bytes c.
Proof.
  induction ops as [|op ops IH] using rev_ind; [done|].
  rewrite run_snoc. destruct (step_params (run ops c) op) as [-> ->]. done.
Qed.

(** *** Inserting a key the cache does not hold *)

Lemma set_new_key k v t now c :
  k ∉ OrderedDict.keys (_cache c) ->
  set k v t now c =
  _evict_if_needed
    {| max_size := max_size c; max_memory_bytes := max_memory_bytes c;
       _cache := _cache c ++ [(k, {| key := k; value := v; timestamp := now;
                                     hit_count := 0;
                                     size_bytes := _estimate_size v; ttl := t |})];
       _total_size := _total_size c + _estimate_size v |}.
Proof.
  intros Hk. unfold set. rewrite OrderedDict.move_to_end_setitem.
  rewrite OrderedDict.delete_absent by done.
  apply OrderedDict.lookup_None_keys in Hk. by rewrite Hk.
Qed.

(** Room left for the entry: nothing is evicted. *)
Lemma set_new_key_room k v t now c :
  k ∉ OrderedDict.keys (_cache c) ->
  Z.of_nat (length (_cache c)) < max_size c ->
  _total_size c + _estimate_size v <= max_memory_bytes c ->
  exists c',
    set k v t now c = ([], c')
    /\ OrderedDict.keys (_cache c') = OrderedDict.keys (_cache c) ++ [k]
    /\ _total_size c' = _total_size c + _estimate_size v
    /\ max_size c' = max_size c /\ max_memory_bytes c' = max_memory_bytes c.
Proof.
  intros Hk Hlen Hmem. rewrite set_new_key by done.
  unfold _evict_if_needed. cbn [max_size max_memory_bytes _cache _total_size].
  rewrite evict_loop_idle.
  - eexists. split; [reflexivity|]. simpl. by rewrite OrderedDict.keys_app.
  - rewrite length_app. simpl. lia.
  - done.
Qed.

(** The cache holds [max_size] entries already: exactly the first entry goes. *)
Lemma set_new_key_full k v t now c :
  sizes_nonneg (_cache c) ->
  k ∉ OrderedDict.keys (_cache c) ->
  Z.of_nat (length (_cache c)) = max_size c ->
  _total_size c + _estimate_size v <= max_memory_bytes c ->
  exists e c',
    set k v t now c = ([e], c')
    /\ e :: OrderedDict.keys (_cache c') = OrderedDict.keys (_cache c) ++ [k].
Proof.
  intros Hnn Hk Hlen Hmem. rewrite set_new_key by done.
  unfold _evict_if_needed. cbn [max_size max_memory_bytes _cache _total_size].
  destruct (_cache c) as [|[k0 e0] d] eqn:Hd.
  - simpl app. rewrite evict_loop_one; [|done|apply _estimate_size_nonneg|done].
    by eexists _, _.
  - simpl app. rewrite evict_loop_one.
    + eexists _, _. split; [reflexivity|]. simpl. by rewrite OrderedDict.keys_app.
    + rewrite length_app. simpl in *. lia.
    + by apply Forall_cons in Hnn as [? _].
    + done.
Qed.

(** The calls [set(k, v, ttl)] for a list of items, each with the clock
    reading of its call. *)
Definition sets (items : list (string * PyValue * option Z * Z)) : list CacheOp :=
  map (fun it => OpSet it.1.1.1 it.1.1.2 it.1.2 it.2) items.

Definition item_keys (items : list (string * PyValue * option Z * Z)) : list string :=
  map (fun it => it.1.1.1) items.

Definition item_bytes (items : list (string * PyValue * option Z * Z)) : Z :=
  fold_right (fun it acc => _estimate_size it.1.1.2 + acc) 0 items.

Lemma item_bytes_app i1 i2 : item_bytes (i1 ++ i2) = item_bytes i1 + item_bytes i2.
Proof. induction i1; simpl; lia. Qed.

Lemma item_bytes_nonneg items : 0 <= item_bytes items.
Proof.
  induction items as [|it items IH]; simpl; [lia|].
  pose proof (_estimate_size_nonneg it.1.1.2). lia.
Qed.

(** Distinct keys written into a fresh cache that has room for all of them
    stay in insertion order, and nothing is evicted. *)
Lemma sets_within_budget max_sz max_mb items :
  NoDup (item_keys items) ->
  Z.of_nat (length items) <= max_sz ->
  item_bytes items <= max_mb * 1024 * 1024 ->
  let r := run (sets items) (new_cache max_sz max_mb) in
  OrderedDict.keys (_cache (cache r)) = item_keys items
  /\ evictions r = []
  /\ _total_size (cache r) = item_bytes items.
Proof.
  induction items as [|[[[k v] t] now] items IH] using rev_ind; [done|].
  unfold item_keys, sets. rewrite !map_app, length_app, item_bytes_app. simpl.
  fold (item_keys items) (sets items). intros Hnd Hlen Hmem.
  apply NoDup_app in Hnd as (Hnd & Hk & _).
  pose proof (_estimate_size_nonneg v) as Hv.
  pose proof (item_bytes_nonneg items) as Hi.
  destruct IH as (IHk & IHe & IHt); [done|lia|lia|].
  rewrite run_snoc. simpl.
  destruct (run_params (sets items) (new_cache max_sz max_mb)) as [Hp1 Hp2].
  simpl in Hp1, Hp2.
  destruct (set_new_key_room k v t now (cache (run (sets items) (new_cache max_sz max_mb))))
    as (c' & -> & Hkeys & Htot & _).
  - rewrite IHk. intros Hin. apply (Hk k Hin). left.
  - rewrite Hp1. rewrite <- (length_map (fun kv => kv.1)). change (map _ (_cache ?c)) with (OrderedDict.keys (_cache c)).
    rewrite IHk. unfold item_keys. rewrite length_map. lia.
  - rewrite Hp2, IHt. lia.
  - simpl. rewrite Hkeys, IHk, IHe, Htot, IHt. repeat split; lia.
Qed.

(** C6.  A cache built with entry budget [N >= 0] and a memory budget
    [>= 0]: (1) after every sequence of [get]/[set]/[clear] calls the entry
    count is at most [N] and the accounted size at most the memory budget;
    (2) when the cache holds [N] entries, a [set] of a key it does not hold
    whose bytes fit the memory budget evicts exactly one key, the first of
    the ordered dictionary, and that key is the least recently used one of
    the run; (3) in particular [N+1] distinct keys written into a fresh
    cache, their bytes within the memory budget, cause exactly one
    eviction, of the first key written. *)
Theorem lru_cache_budget_and_eviction (N max_memory_mb : Z) :
  0 <= N -> 0 <= max_memory_mb ->
  (forall ops,
     let r := run ops (new_cache N max_memory_mb) in
     let c := cache r in
     (Z.of_nat (length (_cache c)) <= N
      /\ _total_size c <= max_memory_mb * 1024 * 1024)
     /\ (forall k v t now,
           Z.of_nat (length (_cache c)) = N ->
           k ∉ OrderedDict.keys (_cache c) ->
           _total_size c + _estimate_size v <= max_memory_mb * 1024 * 1024 ->
           exists e,
             (set k v t now c).1 = [e]
             /\ e :: OrderedDict.keys (_cache (set k v t now c).2)
                = OrderedDict.keys (_cache c) ++ [k]
             /\ forall k', k' ∈ OrderedDict.keys (_cache c) ++ [k] -> k' <> e ->
                  (recency (k :: used r) k' < recency (k :: used r) e)%nat))
  /\ (forall items first rest,
        item_keys items = first :: rest ->
        NoDup (item_keys items) ->
        Z.of_nat (length items) = N + 1 ->
        item_bytes items <= max_memory_mb * 1024 * 1024 ->
        let r := run (sets items) (new_cache N max_memory_mb) in
        evictions r = [first]
        /\ OrderedDict.keys (_cache (cache r)) = rest).
Proof.
  intros HN Hmb. split.
  - intros ops r c.
    pose proof (run_ok_run ops N max_memory_mb HN Hmb) as Hok.
    destruct (run_params ops (new_cache N max_memory_mb)) as [Hp1 Hp2].
    fold r c in Hok, Hp1, Hp2. simpl in Hp1, Hp2.
    destruct Hok as [_ _ [Hnd Htot Hnn] [Hb1 Hb2] Hs]. fold c in Hnd, Htot, Hnn, Hb1, Hb2, Hs.
    split; [split; lia|].
    intros k v t now Hlen Hk Hfit.
    destruct (set_new_key_full k v t now c) as (e & c' & Hset & Hkeys);
      [done | done | lia | lia |].
    exists e. rewrite Hset. cbn [fst snd]. split; [done|]. split; [done|].
    intros k' Hin Hne.
    assert (lru_sorted (k :: used r) (OrderedDict.keys (_cache c) ++ [k])) as Hs'.
    { by apply lru_sorted_snoc. }
    rewrite <- Hkeys in Hs', Hin. by eapply lru_sorted_head.
  - intros items first rest Hkeys Hnd Hlen Hfit.
    destruct items as [|it items _] using rev_ind; [done|].
    rewrite length_app in Hlen. simpl in Hlen.
    unfold item_keys, sets in *. rewrite !map_app in *. simpl in *.
    fold (item_keys items) (sets items) in *.
    rewrite item_bytes_app in Hfit. simpl in Hfit.
    apply NoDup_app in Hnd as (Hnd & Hfresh & _).
    pose proof (_estimate_size_nonneg it.1.1.2) as Hv.
    destruct (sets_within_budget N max_memory_mb items) as (IHk & IHe & IHt);
      [done | lia | lia |].
    rewrite run_snoc. simpl.
    pose proof (run_ok_run (sets items) N max_memory_mb HN Hmb) as Hok.
    destruct (run_params (sets items) (new_cache N max_memory_mb)) as [Hp1 Hp2].
    simpl in Hp1, Hp2.
    set (c := cache (run (sets items) (new_cache N max_memory_mb))) in *.
    destruct (set_new_key_full it.1.1.1 it.1.1.2 it.1.2 it.2 c) as (e & c' & -> & Hk').
    + by destruct Hok as [_ _ [_ _ ?] _ _].
    + rewrite IHk. intros Hin. apply (Hfresh _ Hin). left.
    + rewrite Hp1, <- (length_map (fun kv => kv.1)).
      change (map _ (_cache c)) with (OrderedDict.keys (_cache c)).
      rewrite IHk. unfold item_keys. rewrite length_map. lia.
    + rewrite Hp2, IHt. lia.
    + simpl. rewrite IHe. simpl. rewrite IHk, Hkeys in Hk'.
      injection Hk' as -> ->. done.
Qed.

(** *** Reading back what was written *)

Lemma lookup_app_absent {V} k (d1 d2 : list (string * V)) :
  k ∉ OrderedDict.keys d1 ->
  OrderedDict.lookup k (d1 ++ d2) = OrderedDict.lookup k d2.
Proof.
  induction d1 as [|[k' v'] d1 IH]; simpl; [done|].
  rewrite not_elem_of_cons. intros [Hne Hk].
  destruct (String.eqb_spec k k'); [done|]. by apply IH.
Qed.

(** The entry written last survives the eviction loop when it fits the
    budgets on its own: the loop stops at the latest when it is alone. *)
Lemma evict_loop_keeps_last max_sz max_mem d k e :
  1 <= max_sz -> size_bytes e <= max_mem ->
  exists pre d',
    evict_loop max_sz max_mem (d ++ [(k, e)]) (sum_sizes (d ++ [(k, e)]))
    = (OrderedDict.keys pre, (d' ++ [(k, e)], sum_sizes (d' ++ [(k, e)])))
    /\ d = pre ++ d'.
Proof.
  intros Hsz Hmem. induction d as [|[k0 e0] d IH].
  - exists [], []. split; [|done]. apply evict_loop_idle; simpl; lia.
  - simpl app. rewrite evict_loop_unfold.
    destruct ((Z.of_nat (length ((k0, e0) :: d ++ [(k, e)])) >? max_sz)
              || (sum_sizes ((k0, e0) :: d ++ [(k, e)]) >? max_mem)).
    + destruct IH as (pre & d' & Hev & ->).
      replace (sum_sizes ((k0, e0) :: (pre ++ d') ++ [(k, e)]) - size_bytes e0)
        with (sum_sizes ((pre ++ d') ++ [(k, e)])) by (simpl; lia).
      rewrite Hev. by exists ((k0, e0) :: pre), d'.
    + by exists [], ((k0, e0) :: d).
Qed.

(** An entry larger than the memory budget takes every entry with it, itself
    included. *)
Lemma evict_loop_oversized max_sz max_mem d k e :
  sizes_nonneg d -> max_mem < size_bytes e ->
  evict_loop max_sz max_mem (d ++ [(k, e)]) (sum_sizes (d ++ [(k, e)]))
  = (OrderedDict.keys d ++ [k], ([], 0)).
Proof.
  intros Hd Hbig. induction Hd as [|[k0 e0] d Hx Hd IH].
  - simpl app. rewrite evict_loop_unfold.
    change (sum_sizes [(k, e)]) with (size_bytes e + 0).
    destruct (Z.gtb_spec (size_bytes e + 0) max_mem) as [_|?]; [|lia].
    rewrite orb_true_r. replace (size_bytes e + 0 - size_bytes e) with 0 by lia.
    rewrite evict_loop_unfold. by destruct (_ || _).
  - simpl app. rewrite evict_loop_unfold.
    pose proof (sum_sizes_nonneg d Hd) as Hsum.
    destruct (Z.gtb_spec (sum_sizes ((k0, e0) :: d ++ [(k, e)])) max_mem) as [_|Hle].
    + rewrite orb_true_r.
      replace (sum_sizes ((k0, e0) :: d ++ [(k, e)]) - size_bytes e0)
        with (sum_sizes (d ++ [(k, e)])) by (simpl; lia).
      by rewrite IH.
    + simpl in Hle, Hx. rewrite sum_sizes_app in Hle. simpl in Hle. lia.
Qed.

(** The cache [set] hands to the eviction loop: the key's old entry is
    gone, the new one is last, and the accounted size is the sum again. *)
Lemma set_before_eviction k v t now c :
  cache_ok c ->
  let entry := {| key := k; value := v; timestamp := now; hit_count := 0;
                  size_bytes := _estimate_size v; ttl := t |} in
  let d1 := OrderedDict.delete k (_cache c) ++ [(k, entry)] in
  set k v t now c =
  _evict_if_needed
    {| max_size := max_size c; max_memory_bytes := max_memory_bytes c;
       _cache := d1; _total_size := sum_sizes d1 |}.
Proof.
  intros [Hnd Htot Hnn] entry d1. unfold set.
  rewrite OrderedDict.move_to_end_setitem. fold entry d1. f_equal. f_equal.
  unfold d1. rewrite sum_sizes_app. simpl. rewrite Htot.
  destruct (OrderedDict.lookup k (_cache c)) as [old|] eqn:Hl.
  - rewrite (sum_sizes_delete _ _ _ Hl). lia.
  - rewrite OrderedDict.delete_absent by (by apply OrderedDict.lookup_None_keys). lia.
Qed.

(** A value that fits the memory budget, written into a cache that may hold
    at least one entry, is what [get] returns for its key afterwards, until
    its time to live is over: an entry written at [now] with a time to live
    [t] is returned up to and including [now + t] and not after.  A time to
    live of [None] or [0] never runs out. *)
Theorem get_returns_what_set_stored (c : LRUCache) (k : string) (v : PyValue)
  (t : option Z) (now now' : Z) :
  cache_ok c -> 1 <= max_size c -> _estimate_size v <= max_memory_bytes c ->
  (get k now' (set k v t now c).2).1 =
  match t with
  | Some s => if negb (s =? 0) && (now + s <? now') then None else Some v
  | None => Some v
  end.
Proof.
  intros Hok Hsz Hfit. rewrite (set_before_eviction k v t now c Hok). cbv zeta.
  set (entry := {| key := k; value := v; timestamp := now; hit_count := 0;
                   size_bytes := _estimate_size v; ttl := t |}).
  unfold _evict_if_needed. cbn [max_size max_memory_bytes _cache _total_size].
  destruct (evict_loop_keeps_last (max_size c) (max_memory_bytes c)
              (OrderedDict.delete k (_cache c)) k entry Hsz Hfit)
    as (pre & d' & -> & Hd).
  cbn [snd]. unfold get. cbn [_cache].
  assert (k ∉ OrderedDict.keys d') as Hk.
  { intros Hin. apply (OrderedDict.keys_delete_absent k (_cache c)); [by destruct Hok|].
    rewrite Hd, OrderedDict.keys_app. apply elem_of_app. by right. }
  rewrite (lookup_app_absent k d' _ Hk). simpl. rewrite String.eqb_refl.
  unfold is_expired. simpl. destruct t as [s|]; [|done].
  destruct (s =? 0); simpl; [done|]. by destruct (now + s <? now').
Qed.

(** A value whose estimated size exceeds the memory budget is not cached,
    and writing it empties the cache: every entry is evicted, oldest first,
    the new one last, and the accounted size is back to zero. *)
Theorem oversized_value_empties_cache (c : LRUCache) (k : string) (v : PyValue)
  (t : option Z) (now : Z) :
  cache_ok c -> max_memory_bytes c < _estimate_size v ->
  set k v t now c =
  (OrderedDict.keys (OrderedDict.delete k (_cache c)) ++ [k],
   {| max_size := max_size c; max_memory_bytes := max_memory_bytes c;
      _cache := []; _total_size := 0 |}).
Proof.
  intros Hok Hbig. rewrite (set_before_eviction k v t now c Hok). cbv zeta.
  unfold _evict_if_needed. cbn [max_size max_memory_bytes _cache _total_size].
  rewrite evict_loop_oversized; [done| |done].
  apply sizes_nonneg_delete. by destruct Hok.
Qed.

(** A hit protects the key: in a full cache of at least two entries, a key
    that [get] has just returned is not the one evicted by the next [set]
    of a new key (whose bytes fit), and it is still cached afterwards. *)
Theorem hit_protects_from_eviction (c : LRUCache) (k k' : string) (v' : PyValue)
  (t : option Z) (now now' : Z) (x : PyValue) :
  cache_ok c -> 2 <= max_size c ->
  Z.of_nat (length (_cache c)) = max_size c ->
  (get k now c).1 = Some x ->
  k' ∉ OrderedDict.keys (_cache c) ->
  _total_size c + _estimate_size v' <= max_memory_bytes c ->
  let r := set k' v' t now' (get k now c).2 in
  exists e, r.1 = [e] /\ e <> k /\ e ∈ OrderedDict.keys (_cache c)
            /\ k ∈ OrderedDict.keys (_cache r.2)
            /\ k' ∈ OrderedDict.keys (_cache r.2).
Proof.
  intros [Hnd Htot Hnn] Hsz Hfull Hhit Hnew Hfit r.
  destruct (OrderedDict.lookup k (_cache c)) as [entry|] eqn:Hl;
    [|unfold get in Hhit; by rewrite Hl in Hhit].
  destruct (is_expired entry now) eqn:He;
    [unfold get in Hhit; by rewrite Hl, He in Hhit|].
  destruct (get_hit_cache k now c entry Hnd Hl He) as (entry' & Hsize & Hget).
  unfold r. rewrite Hget. cbn [snd].
  set (c1 := {| max_size := max_size c; max_memory_bytes := max_memory_bytes c;
                _cache := OrderedDict.delete k (_cache c) ++ [(k, entry')];
                _total_size := _total_size c |}).
  pose proof (OrderedDict.length_delete _ _ _ Hl) as Hlen.
  destruct (set_new_key_full k' v' t now' c1) as (e & c' & -> & Hkeys).
  - unfold c1. simpl. apply Forall_app. split; [by apply sizes_nonneg_delete|].
    constructor; [|constructor]. simpl. rewrite Hsize.
    by eapply sizes_nonneg_lookup.
  - unfold c1. simpl. rewrite OrderedDict.keys_app. simpl.
    rewrite elem_of_app, list_elem_of_singleton. intros [Hin| ->].
    + apply Hnew. by eapply OrderedDict.keys_delete_sub.
    + apply Hnew. by eapply OrderedDict.lookup_Some_keys.
  - unfold c1. simpl. rewrite length_app. simpl. lia.
  - done.
  - unfold c1 in Hkeys. simpl in Hkeys. rewrite OrderedDict.keys_app in Hkeys.
    simpl in Hkeys. cbn [fst snd].
    destruct (OrderedDict.delete k (_cache c)) as [|[k0 e0] d0] eqn:Hdel;
      [simpl in Hlen; lia|].
    simpl in Hkeys. injection Hkeys as -> Hrest.
    exists k0. split; [done|].
    assert (k0 ∈ OrderedDict.keys (OrderedDict.delete k (_cache c))) as Hk0
      by (rewrite Hdel; left).
    split; [|split; [|split]].
    + intros ->. by apply (OrderedDict.keys_delete_absent k (_cache c)).
    + by eapply OrderedDict.keys_delete_sub.
    + rewrite Hrest. rewrite !elem_of_app, !list_elem_of_singleton. auto.
    + rewrite Hrest. rewrite !elem_of_app, !list_elem_of_singleton. auto.
Qed.

End Cache.

(** Three string values written into a cache of two entries: the first key
    written is the one evicted. *)
Lemma lru_cache_budget_and_eviction_witness :
  0 <= 2 /\ 0 <= 1 /\
  let r := run (fun _ => "")
             (sets [("a", PyStr "x", None, 10); ("b", PyStr "y", None, 11);
                    ("c", PyStr "z", None, 12)])
             (new_cache 2 1) in
  evictions r = ["a"] /\ OrderedDict.keys (_cache (cache r)) = ["b"; "c"].
Proof.
  split; [lia|]. split; [lia|].
  refine (proj2 (lru_cache_budget_and_eviction (fun _ => "") 2 1 _ _) _ "a" ["b"; "c"] _ _ _ _);
    try lia; try reflexivity.
  - apply (bool_decide_unpack _). vm_compute. exact I.
  - vm_compute. discriminate.
Defined.

(** A cache of two entries and one megabyte holding ["a"] and ["b"],
    written in this order at clock readings 10 and 11. *)
Definition two_entries : LRUCache :=
  cache (run (fun _ => "")
           (sets [("a", PyStr "x", None, 10); ("b", PyStr "y", None, 11)])
           (new_cache 2 1)).

Lemma two_entries_ok : cache_ok two_entries.
Proof. apply (rok_cache _ (run_ok_run (fun _ => "") _ 2 1 ltac:(lia) ltac:(lia))). Qed.

(** A value written with a time to live of five seconds is read back five
    seconds later. *)
Lemma get_returns_what_set_stored_witness :
  let c := new_cache 2 1 in
  cache_ok c /\ 1 <= max_size c
  /\ _estimate_size (fun _ => "") (PyStr "x") <= max_memory_bytes c
  /\ (get "a" 15 (set (fun _ => "") "a" (PyStr "x") (Some 5) 10 c).2).1 = Some (PyStr "x").
Proof.
  intros c.
  assert (cache_ok c) as Hok
    by apply (rok_cache _ (run_ok_run (fun _ => "") [] 2 1 ltac:(lia) ltac:(lia))).
  assert (1 <= max_size c) as Hsz by (simpl; lia).
  assert (_estimate_size (fun _ => "") (PyStr "x") <= max_memory_bytes c) as Hfit
    by (vm_compute; discriminate).
  repeat (split; [done|]).
  exact (get_returns_what_set_stored (fun _ => "") c "a" (PyStr "x") (Some 5) 10 15
           Hok Hsz Hfit).
Defined.

(** A cache without memory budget holds an empty string; writing an integer
    (64 bytes by the estimate) evicts both. *)
Lemma oversized_value_empties_cache_witness :
  let c := cache (run (fun _ => "") [OpSet "a" (PyStr "") None 0] (new_cache 2 0)) in
  cache_ok c /\ max_memory_bytes c < _estimate_size (fun _ => "") (PyInt 1)
  /\ OrderedDict.keys (_cache c) = ["a"]
  /\ (set (fun _ => "") "b" (PyInt 1) None 1 c).1 = ["a"; "b"]
  /\ _cache (set (fun _ => "") "b" (PyInt 1) None 1 c).2 = [].
Proof.
  intros c.
  assert (cache_ok c) as Hok
    by apply (rok_cache _ (run_ok_run (fun _ => "") _ 2 0 ltac:(lia) ltac:(lia))).
  assert (max_memory_bytes c < _estimate_size (fun _ => "") (PyInt 1)) as Hbig
    by (vm_compute; reflexivity).
  split; [done|]. split; [done|]. split; [reflexivity|].
  by rewrite (oversized_value_empties_cache (fun _ => "") c "b" (PyInt 1) None 1 Hok Hbig).
Defined.

(** ["a"] is the older entry of the full cache; once it has been read, the
    next new key evicts ["b"] instead. *)
Lemma hit_protects_from_eviction_witness :
  cache_ok two_entries /\ 2 <= max_size two_entries
  /\ Z.of_nat (length (_cache two_entries)) = max_size two_entries
  /\ (get "a" 12 two_entries).1 = Some (PyStr "x")
  /\ ("c" ∉ OrderedDict.keys (_cache two_entries))
  /\ _total_size two_entries + _estimate_size (fun _ => "") (PyStr "z")
     <= max_memory_bytes two_entries
  /\ let r := set (fun _ => "") "c" (PyStr "z") None 13 (get "a" 12 two_entries).2 in
     exists e, r.1 = [e] /\ e <> "a" /\ e ∈ OrderedDict.keys (_cache two_entries)
               /\ "a" ∈ OrderedDict.keys (_cache r.2)
               /\ "c" ∈ OrderedDict.keys (_cache r.2).
Proof.
  assert (2 <= max_size two_entries) as Hsz by (vm_compute; discriminate).
  assert (Z.of_nat (length (_cache two_entries)) = max_size two_entries) as Hfull
    by reflexivity.
  assert ((get "a" 12 two_entries).1 = Some (PyStr "x")) as Hhit by reflexivity.
  assert ("c" ∉ OrderedDict.keys (_cache two_entries)) as Hnew
    by (apply (bool_decide_unpack _); vm_compute; exact I).
  assert (_total_size two_entries + _estimate_size (fun _ => "") (PyStr "z")
          <= max_memory_bytes two_entries) as Hfit by (vm_compute; discriminate).
  repeat (split; [done || exact two_entries_ok|]).
  exact (hit_protects_from_eviction (fun _ => "") two_entries "a" "c" (PyStr "z")
           None 12 13 (PyStr "x") two_entries_ok Hsz Hfull Hhit Hnew Hfit).
Defined.

End Performance.

(** ** [operate/state/manager.py]: the state manager *)

Module Manager.

Import Py.

(** [StateStore], the abstract storage backend.  [keys] is the call with its
    default pattern ["*"], which [fnmatch] matches against every key.  The
    clock reading is the [datetime.utcnow()] a call may make. *)
Class StateStore (S : Type) : Type := {
  store_get : string -> Z -> S -> PyValue * S;
  store_set : string -> PyValue -> option Z -> Z -> S -> S;
  store_delete : string -> S -> S;
  store_exists : string -> S -> bool;
  store_keys : S -> list string
}.

(** [MemoryStateStore]: [_data] maps a key to its value and expiry. *)
Record MemoryStateStore : Type := mkMemoryStateStore {
  _data : gmap string (PyValue * option Z)
}.

Definition memory_get (k : string) (now : Z) (s : MemoryStateStore)
  : PyValue * MemoryStateStore :=
  match _data s !! k with
  | None => (PyNone, s)
  | Some (v, expiry) =>
      match expiry with
      | Some e =>
          if e <? now then (PyNone, {| _data := delete k (_data s) |}) else (v, s)
      | None => (v, s)
      end
  end.

(** [if ttl:] holds for a ttl that is neither [None] nor [0]. *)
Definition ttl_set (ttl : option Z) : option Z :=
  match ttl with
  | Some t => if t =? 0 then None else Some t
  | None => None
  end.

Definition memory_set (k : string) (v : PyValue) (ttl : option Z) (now : Z)
  (s : MemoryStateStore) : MemoryStateStore :=
  let expiry := match ttl_set ttl with Some t => Some (now + t) | None => None end in
  {| _data := <[k := (v, expiry)]> (_data s) |}.

Definition memory_delete (k : string) (s : MemoryStateStore) : MemoryStateStore :=
  {| _data := delete k (_data s) |}.

Definition memory_exists (k : string) (s : MemoryStateStore) : bool :=
  bool_decide (is_Some (_data s !! k)).

Definition memory_keys (s : MemoryStateStore) : list string :=
  (map_to_list (_data s)).*1.

#[export] Instance MemoryStore : StateStore MemoryStateStore := {
  store_get := memory_get;
  store_set := memory_set;
  store_delete := memory_delete;
  store_exists := memory_exists;
  store_keys := memory_keys
}.

(** [StateSnapshot].  A snapshot read back from the store is whatever was
    stored there, so the fields are Python values. *)
Record StateSnapshot : Type := mkStateSnapshot {
  id : PyValue;
  timestamp : PyValue;
  data : PyValue;
  metadata : PyValue;
  parent_id : PyValue
}.

(** [dataclasses.asdict(snapshot)] *)
Definition asdict (s : StateSnapshot) : PyValue :=
  PyDict [("id", id s); ("timestamp", timestamp s); ("data", data s);
          ("metadata", metadata s); ("parent_id", parent_id s)].

(** Building a [StateSnapshot] from the keyword arguments unpacked from
    [snapshot_data]: a [TypeError] unless the argument is a
    mapping whose keys are field names and cover the fields without
    default. *)
Definition snapshot_from (v : PyValue) : outcome StateSnapshot :=
  match v with
  | PyDict d =>
      if forallb (fun kv => dict_has kv.1
                    [("id", PyNone); ("timestamp", PyNone); ("data", PyNone);
                     ("metadata", PyNone); ("parent_id", PyNone)]) d
         && dict_has "id" d && dict_has "timestamp" d
         && dict_has "data" d && dict_has "metadata" d
      then Ok {| id := dict_get "id" d; timestamp := dict_get "timestamp" d;
                 data := dict_get "data" d; metadata := dict_get "metadata" d;
                 parent_id := dict_get "parent_id" d |}
      else Raise (TypeError "StateSnapshot.__init__() got unexpected or missing arguments")
  | _ => Raise (TypeError "argument after ** must be a mapping")
  end.

(** [StateTransaction]; an operation is [("set", key, value)] or
    [("delete", key, None)]. *)
Inductive TxOp : Type :=
| TxSet (k : string) (v : PyValue)
| TxDelete (k : string).

Record StateTransaction : Type := mkStateTransaction {
  tx_id : string;
  operations : list TxOp;
  tx_timestamp : Z;
  committed : bool
}.

Section StateManager.
Context {S : Type} `{StateStore S}.

(** [len(json.dumps(data, default=str))], the size estimate kept in a
    snapshot's metadata. *)
Variable json_size : list (string * PyValue) -> Z.

(** [StateManager].  [backend_ttl] is [backend.ttl].  The open transaction
    is also registered in [_transactions] under its id; both names denote one
    object, so a change to the open transaction is made in both places. *)
Record StateManager : Type := mkStateManager {
  backend_ttl : Z;
  _store : S;
  _snapshots : gmap string StateSnapshot;
  _transactions : gmap string StateTransaction;
  _current_transaction : option StateTransaction
}.

Definition with_store (m : StateManager) (s : S) : StateManager :=
  {| backend_ttl := backend_ttl m; _store := s; _snapshots := _snapshots m;
     _transactions := _transactions m;
     _current_transaction := _current_transaction m |}.

Definition with_current (m : StateManager) (tx : StateTransaction) : StateManager :=
  {| backend_ttl := backend_ttl m; _store := _store m; _snapshots := _snapshots m;
     _transactions := <[tx_id tx := tx]> (_transactions m);
     _current_transaction := Some tx |}.

Definition queue (tx : StateTransaction) (op : TxOp) : StateTransaction :=
  {| tx_id := tx_id tx; operations := operations tx ++ [op];
     tx_timestamp := tx_timestamp tx; committed := committed tx |}.

(** [StateManager.save_state] *)
Definition save_state (k : string) (v : PyValue) (now : Z) (m : StateManager)
  : StateManager :=
  match _current_transaction m with
  | Some tx => with_current m (queue tx (TxSet k v))
  | None => with_store m (store_set k v (Some (backend_ttl m)) now (_store m))
  end.

(** [StateManager.load_state] *)
Definition load_state (k : string) (now : Z) (m : StateManager)
  : PyValue * StateManager :=
  let '(v, s) := store_get k now (_store m) in (v, with_store m s).

(** [StateManager.delete_state] *)
Definition delete_state (k : string) (m : StateManager) : StateManager :=
  match _current_transaction m with
  | Some tx => with_current m (queue tx (TxDelete k))
  | None => with_store m (store_delete k (_store m))
  end.

(** The capture loop of [create_checkpoint]: each key is read at its own
    clock reading, and kept unless its value is [None]. *)
Fixpoint capture (keys : list string) (reading : string -> Z) (s : S)
  (acc : list (string * PyValue)) : list (string * PyValue) * S :=
  match keys with
  | [] => (acc, s)
  | k :: rest =>
      let '(v, s') := store_get k (reading k) s in
      if is_none v then capture rest reading s' acc
      else capture rest reading s' (OrderedDict.setitem k v acc)
  end.

(** [StateManager.create_checkpoint]; [checkpoint_id] is the [uuid4] drawn,
    [now] the snapshot's timestamp. *)
Definition create_checkpoint (checkpoint_id : string) (reading : string -> Z) (now : Z)
  (m : StateManager) : string * StateManager :=
  let all_keys := store_keys (_store m) in
  let '(d, s1) := capture all_keys reading (_store m) [] in
  let snapshot :=
    {| id := PyStr checkpoint_id;
       timestamp := PyDatetime now;
       data := PyDict d;
       metadata := PyDict [("key_count", PyInt (Z.of_nat (length d)));
                           ("size_estimate", PyInt (json_size d))];
       parent_id := PyNone |} in
  let s2 := store_set ("_snapshots/" ++ checkpoint_id) (asdict snapshot) None now s1 in
  (checkpoint_id,
   {| backend_ttl := backend_ttl m; _store := s2;
      _snapshots := <[checkpoint_id := snapshot]> (_snapshots m);
      _transactions := _transactions m;
      _current_transaction := _current_transaction m |}).

(** The two loops of [restore_checkpoint]. *)
Definition clear_state (s : S) : S :=
  fold_left (fun acc k => if startswith "_snapshots/" k then acc else store_delete k acc)
            (store_keys s) s.

Definition write_back (items : list (string * PyValue)) (now : Z) (s : S) : S :=
  fold_left (fun acc kv => store_set kv.1 kv.2 None now acc) items s.

(** [StateManager.restore_checkpoint] *)
Definition restore_checkpoint (checkpoint_id : string) (now : Z) (m : StateManager)
  : outcome unit * StateManager :=
  let loaded :=
    match _snapshots m !! checkpoint_id with
    | Some snapshot => (Ok snapshot, _store m)
    | None =>
        let '(v, s) := store_get ("_snapshots/" ++ checkpoint_id) now (_store m) in
        if truthy v then (snapshot_from v, s)
        else (Raise (ValueError ("Checkpoint " ++ checkpoint_id ++ " not found")), s)
    end in
  match loaded with
  | (Raise e, s) => (Raise e, with_store m s)
  | (Ok snapshot, s) =>
      let s1 := clear_state s in
      match data snapshot with
      | PyDict items => (Ok tt, with_store m (write_back items now s1))
      | _ => (Raise (AttributeError "object has no attribute 'items'"), with_store m s1)
      end
  end.

(** [StateManager.begin_transaction]; [transaction_id] is the [uuid4] drawn. *)
Definition begin_transaction (transaction_id : string) (now : Z) (m : StateManager)
  : outcome string * StateManager :=
  match _current_transaction m with
  | Some _ => (Raise (RuntimeError "Transaction already in progress"), m)
  | None =>
      (Ok transaction_id,
       with_current m {| tx_id := transaction_id; operations := [];
                         tx_timestamp := now; committed := false |})
  end.

Definition apply_tx_op (now : Z) (ttl : Z) (s : S) (op : TxOp) : S :=
  match op with
  | TxSet k v => store_set k v (Some ttl) now s
  | TxDelete k => store_delete k s
  end.

Definition invalid_transaction (transaction_id : string) : PyError :=
  ValueError ("Invalid transaction " ++ transaction_id).

(** [StateManager.commit_transaction] *)
Definition commit_transaction (transaction_id : string) (now : Z) (m : StateManager)
  : outcome unit * StateManager :=
  match _current_transaction m with
  | None => (Raise (invalid_transaction transaction_id), m)
  | Some tx =>
      if negb (String.eqb (tx_id tx) transaction_id)
      then (Raise (invalid_transaction transaction_id), m)
      else
        let s := fold_left (apply_tx_op now (backend_ttl m)) (operations tx) (_store m) in
        let tx' := {| tx_id := tx_id tx; operations := operations tx;
                      tx_timestamp := tx_timestamp tx; committed := true |} in
        (Ok tt,
         {| backend_ttl := backend_ttl m; _store := s; _snapshots := _snapshots m;
            _transactions := <[tx_id tx := tx']> (_transactions m);
            _current_transaction := None |})
  end.

(** [StateManager.rollback_transaction] *)
Definition rollback_transaction (transaction_id : string) (m : StateManager)
  : outcome unit * StateManager :=
  match _current_transaction m with
  | None => (Raise (invalid_transaction transaction_id), m)
  | Some tx =>
      if negb (String.eqb (tx_id tx) transaction_id)
      then (Raise (invalid_transaction transaction_id), m)
      else
        (Ok tt,
         {| backend_ttl := backend_ttl m; _store := _store m; _snapshots := _snapshots m;
            _transactions := _transactions m;
            _current_transaction := None |})
  end.

(** Calls that change state values, as a caller issues them. *)
Inductive Mutation : Type :=
| SaveState (k : string) (v : PyValue) (now : Z)
| DeleteState (k : string).

Definition mutate (m : StateManager) (mu : Mutation) : StateManager :=
  match mu with
  | SaveState k v now => save_state k v now m
  | DeleteState k => delete_state k m
  end.

Definition mutations (mus : list Mutation) (m : StateManager) : StateManager :=
  fold_left mutate mus m.

(** *** Writes inside a transaction *)

Definition tx_op_of (mu : Mutation) : TxOp :=
  match mu with
  | SaveState k v _ => TxSet k v
  | DeleteState k => TxDelete k
  end.

Lemma mutate_in_transaction m tx mu :
  _current_transaction m = Some tx ->
  _store (mutate m mu) = _store m
  /\ _current_transaction (mutate m mu) = Some (queue tx (tx_op_of mu)).
Proof.
  intros Htx. destruct mu; simpl; unfold save_state, delete_state; by rewrite Htx.
Qed.

Lemma mutations_in_transaction mus m tx :
  _current_transaction m = Some tx ->
  _store (mutations mus m) = _store m
  /\ exists tx', _current_transaction (mutations mus m) = Some tx'
       /\ tx_id tx' = tx_id tx
       /\ operations tx' = operations tx ++ map tx_op_of mus.
Proof.
  revert m tx. induction mus as [|mu mus IH]; intros m tx Htx; simpl.
  - split; [done|]. exists tx. by rewrite app_nil_r.
  - destruct (mutate_in_transaction m tx mu Htx) as [Hs Hc].
    destruct (IH _ _ Hc) as (Hs' & tx' & Hc' & Hid & Hops).
    split; [congruence|]. exists tx'. split; [done|]. split; [done|].
    rewrite Hops. simpl. by rewrite <- app_assoc.
Qed.

Lemma mutations_snapshots mus m : _snapshots (mutations mus m) = _snapshots m.
Proof.
  revert m. induction mus as [|mu mus IH]; intros m; simpl; [done|].
  rewrite IH. destruct mu; simpl; unfold save_state, delete_state;
    by destruct (_current_transaction m).
Qed.

(** C9.  While a transaction is open, [save_state] and [delete_state] only
    queue: the store is left as it was, so [load_state] of any key, at any
    clock reading, returns what it returns on the store as it stood when the
    writes were issued. *)
Theorem load_state_skips_open_transaction (m : StateManager) (mus : list Mutation)
  (k : string) (now : Z) :
  is_Some (_current_transaction m) ->
  _store (mutations mus m) = _store m
  /\ (load_state k now (mutations mus m)).1 = (load_state k now m).1
  /\ exists tx tx',
       _current_transaction m = Some tx
       /\ _current_transaction (mutations mus m) = Some tx'
       /\ operations tx' = operations tx ++ map tx_op_of mus.
Proof.
  intros [tx Htx].
  destruct (mutations_in_transaction mus m tx Htx) as (Hs & tx' & Hc & _ & Hops).
  split; [done|]. split.
  - unfold load_state. rewrite Hs. by destruct (store_get k now (_store m)).
  - by exists tx, tx'.
Qed.

(** *** Transactions from begin to end *)

(** A write made outside a transaction, on the store. *)
Definition apply_mutation (ttl : Z) (s : S) (mu : Mutation) : S :=
  match mu with
  | SaveState k v now => store_set k v (Some ttl) now s
  | DeleteState k => store_delete k s
  end.

(** The same write, issued at clock reading [now]. *)
Definition at_time (now : Z) (mu : Mutation) : Mutation :=
  match mu with
  | SaveState k v _ => SaveState k v now
  | DeleteState k => DeleteState k
  end.

Lemma with_store_same m : with_store m (_store m) = m.
Proof. by destruct m. Qed.

Lemma mutations_direct mus m :
  _current_transaction m = None ->
  mutations mus m = with_store m (fold_left (apply_mutation (backend_ttl m)) mus (_store m)).
Proof.
  revert m. induction mus as [|mu mus IH]; intros m Hnone; simpl.
  - by rewrite with_store_same.
  - assert (mutate m mu = with_store m (apply_mutation (backend_ttl m) (_store m) mu)) as ->
      by (destruct mu; simpl; unfold save_state, delete_state; by rewrite Hnone).
    by rewrite IH.
Qed.

Lemma apply_queued now ttl mus s :
  fold_left (apply_tx_op now ttl) (map tx_op_of mus) s
  = fold_left (apply_mutation ttl) (map (at_time now) mus) s.
Proof.
  revert s. induction mus as [|mu mus IH]; intros s; simpl; [done|].
  rewrite IH. by destruct mu.
Qed.

Lemma mutations_backend_ttl mus m : backend_ttl (mutations mus m) = backend_ttl m.
Proof.
  revert m. induction mus as [|mu mus IH]; intros m; simpl; [done|].
  rewrite IH. destruct mu; simpl; unfold save_state, delete_state;
    by destruct (_current_transaction m).
Qed.

(** What [begin_transaction] and then any writes leave: the store as it
    was, and the transaction open with the writes queued in order. *)
Lemma transaction_queue m tid t0 mus :
  _current_transaction m = None ->
  let m2 := mutations mus (begin_transaction tid t0 m).2 in
  (begin_transaction tid t0 m).1 = Ok tid
  /\ _store m2 = _store m /\ backend_ttl m2 = backend_ttl m
  /\ _snapshots m2 = _snapshots m
  /\ exists tx, _current_transaction m2 = Some tx /\ tx_id tx = tid
                /\ operations tx = map tx_op_of mus /\ committed tx = false
                /\ _transactions m2 !! tid = Some tx.
Proof.
  intros Hnone m2. unfold m2, begin_transaction. rewrite Hnone. cbn [fst snd].
  set (tx0 := {| tx_id := tid; operations := []; tx_timestamp := t0; committed := false |}).
  assert (forall mus m1 tx,
            _current_transaction m1 = Some tx -> _transactions m1 !! tx_id tx = Some tx ->
            exists tx', _current_transaction (mutations mus m1) = Some tx'
                        /\ tx_id tx' = tx_id tx
                        /\ operations tx' = operations tx ++ map tx_op_of mus
                        /\ committed tx' = committed tx
                        /\ _transactions (mutations mus m1) !! tx_id tx = Some tx') as Hq.
  { clear. induction mus as [|mu mus IH]; intros m1 tx Hc Hreg; simpl.
    - exists tx. by rewrite app_nil_r.
    - destruct (IH (mutate m1 mu) (queue tx (tx_op_of mu))) as (tx' & Hc' & Hid & Hops & Hcm & Hreg').
      + by apply mutate_in_transaction.
      + destruct mu; simpl; unfold save_state, delete_state; rewrite Hc; simpl;
          by rewrite lookup_insert_eq.
      + exists tx'. split; [done|]. split; [done|]. split; [|split; [done|done]].
        rewrite Hops. simpl. by rewrite <- app_assoc. }
  destruct (Hq mus (with_current m tx0) tx0) as (tx' & Hc & Hid & Hops & Hcm & Hreg).
  { done. }
  { simpl. by rewrite lookup_insert_eq. }
  destruct (mutations_in_transaction mus (with_current m tx0) tx0 eq_refl) as [Hs _].
  split; [done|]. split; [done|]. split; [by rewrite mutations_backend_ttl|].
  split; [by rewrite mutations_snapshots|]. by exists tx'.
Qed.

(** Committing a transaction is making its writes outside a transaction at
    the time of the commit: the store afterwards is the one the same
    [save_state] and [delete_state] calls, all issued at the clock reading
    of the commit, give without a transaction.  In particular expiry times
    count from the commit.  The transaction is closed and marked
    committed. *)
Theorem commit_applies_queued_writes (m : StateManager) (tid : string) (t0 : Z)
  (mus : list Mutation) (now : Z) :
  _current_transaction m = None ->
  let r := commit_transaction tid now (mutations mus (begin_transaction tid t0 m).2) in
  r.1 = Ok tt
  /\ _store r.2 = _store (mutations (map (at_time now) mus) m)
  /\ _current_transaction r.2 = None
  /\ (committed <$> _transactions r.2 !! tid) = Some true.
Proof.
  intros Hnone r.
  destruct (transaction_queue m tid t0 mus Hnone)
    as (_ & Hs & Httl & _ & tx & Hc & Hid & Hops & _ & _).
  unfold r, commit_transaction. rewrite Hc, Hid, String.eqb_refl. cbn [negb fst snd].
  simpl. rewrite lookup_insert_eq. simpl.
  repeat (split; [done|]).
  rewrite Hops, Hs, Httl, apply_queued, (mutations_direct _ m Hnone). by split.
Qed.

(** Rolling a transaction back discards its writes: the store and the
    snapshots are as they were when the transaction began, and no
    transaction is open.  The transaction stays registered, not
    committed. *)
Theorem rollback_discards_queued_writes (m : StateManager) (tid : string) (t0 : Z)
  (mus : list Mutation) :
  _current_transaction m = None ->
  let r := rollback_transaction tid (mutations mus (begin_transaction tid t0 m).2) in
  r.1 = Ok tt
  /\ _store r.2 = _store m
  /\ _snapshots r.2 = _snapshots m
  /\ _current_transaction r.2 = None
  /\ (committed <$> _transactions r.2 !! tid) = Some false.
Proof.
  intros Hnone r.
  destruct (transaction_queue m tid t0 mus Hnone)
    as (_ & Hs & _ & Hsn & tx & Hc & Hid & _ & Hcm & Hreg).
  unfold r, rollback_transaction. rewrite Hc, Hid, String.eqb_refl. cbn [negb fst snd].
  simpl. rewrite Hreg. simpl. by rewrite Hcm.
Qed.

(** There is one transaction at a time, and it is ended by its own id: while
    a transaction is open, beginning another raises [RuntimeError], and
    committing or rolling back under another id raises [ValueError]; with no
    transaction open, committing and rolling back raise [ValueError] too.
    None of these calls changes anything, so the open transaction can still
    be committed. *)
Theorem transaction_misuse_is_rejected (m : StateManager) (tid other : string)
  (t0 t1 now : Z) (mus : list Mutation) :
  _current_transaction m = None -> other <> tid ->
  let m2 := mutations mus (begin_transaction tid t0 m).2 in
  begin_transaction other t1 m2
    = (Raise (RuntimeError "Transaction already in progress"), m2)
  /\ begin_transaction tid t1 m2
     = (Raise (RuntimeError "Transaction already in progress"), m2)
  /\ commit_transaction other now m2 = (Raise (invalid_transaction other), m2)
  /\ rollback_transaction other m2 = (Raise (invalid_transaction other), m2)
  /\ commit_transaction tid now m = (Raise (invalid_transaction tid), m)
  /\ rollback_transaction tid m = (Raise (invalid_transaction tid), m).
Proof.
  intros Hnone Hne m2.
  destruct (transaction_queue m tid t0 mus Hnone)
    as (_ & _ & _ & _ & tx & Hc & Hid & _).
  fold m2 in Hc.
  unfold begin_transaction, commit_transaction, rollback_transaction.
  rewrite Hc, Hnone, Hid.
  destruct (String.eqb_spec tid other) as [->|_]; done.
Qed.

End StateManager.

(** *** Checkpoints *)


Section DictFacts.
Context {V : Type}.



End DictFacts.

Section Checkpoint.
Context {S : Type} {storable : PyValue -> Prop} `{KeyValueStore S storable}.
Variable json_size : list (string * PyValue) -> Z.

Implicit Types (s : S) (k : string).














End Checkpoint.

(** *** The in-memory store *)

Section MemoryStore.

Implicit Types (s : MemoryStateStore) (k : string).

Lemma memory_keys_spec s k : k ∈ memory_keys s <-> is_Some (_data s !! k).
Proof.
  unfold memory_keys. rewrite list_elem_of_fmap. split.
  - intros ([k' v] & -> & Hin). apply elem_of_map_to_list in Hin. by exists v.
  - intros [v Hv]. exists (k, v). split; [done|]. by apply elem_of_map_to_list.
Qed.




Lemma load_state_memory k t (m : @StateManager MemoryStateStore) :
  (load_state k t m).1 = (memory_get k t (_store m)).1.
Proof. unfold load_state. simpl. by destruct (memory_get k t (_store m)). Qed.


End MemoryStore.

(** A fresh manager over the in-memory store. *)
Definition memory_manager (ttl : Z) : @StateManager MemoryStateStore :=
  {| backend_ttl := ttl; _store := {| _data := ∅ |}; _snapshots := ∅;
     _transactions := ∅; _current_transaction := None |}.

(** *** Expiry in the in-memory store *)

(** What [get] returns for a key just written, at a later clock reading. *)
Lemma memory_get_set k v ttl now now' s :
  memory_get k now' (memory_set k v ttl now s) =
  match ttl_set ttl with
  | Some t =>
      if now + t <? now' then (PyNone, {| _data := delete k (_data s) |})
      else (v, memory_set k v ttl now s)
  | None => (v, memory_set k v ttl now s)
  end.
Proof.
  unfold memory_get, memory_set. simpl. rewrite lookup_insert_eq.
  destruct (ttl_set ttl) as [t|]; [|done].
  destruct (now + t <? now'); [|done]. by rewrite delete_insert_eq.
Qed.

(** State saved through the manager lives for [backend.ttl] seconds: outside
    a transaction, [load_state] returns the value [save_state] stored up to
    and including [backend.ttl] seconds after the save, and [None] from then
    on.  A [backend.ttl] of 0 means no expiry. *)
Theorem saved_state_expires_with_backend_ttl (m : @StateManager MemoryStateStore)
  (k : string) (v : PyValue) (now now' : Z) :
  _current_transaction m = None ->
  (load_state k now' (save_state k v now m)).1 =
  if negb (backend_ttl m =? 0) && (now + backend_ttl m <? now') then PyNone else v.
Proof.
  intros Hnone. rewrite load_state_memory. unfold save_state. rewrite Hnone.
  simpl. rewrite memory_get_set. simpl.
  destruct (backend_ttl m =? 0); simpl; [done|].
  by destruct (now + backend_ttl m <? now').
Qed.

(** An expired key is still reported until it is read: [exists] and [keys]
    do not look at the expiry, so after the time to live has run out the key
    exists and is listed although [get] returns [None] for it; that [get]
    removes it, and only then [exists] says no. *)
Theorem expired_key_exists_until_read (s : MemoryStateStore) (k : string) (v : PyValue)
  (t now now' : Z) :
  t <> 0 -> now + t < now' ->
  let s1 := memory_set k v (Some t) now s in
  memory_exists k s1 = true
  /\ k ∈ memory_keys s1
  /\ (memory_get k now' s1).1 = PyNone
  /\ memory_exists k (memory_get k now' s1).2 = false
  /\ k ∉ memory_keys (memory_get k now' s1).2.
Proof.
  intros Ht Hlate s1.
  assert (is_Some (_data s1 !! k)) as Hsome
    by (unfold s1, memory_set; simpl; rewrite lookup_insert_eq; by eexists).
  assert (memory_get k now' s1 = (PyNone, {| _data := delete k (_data s) |})) as Hget.
  { unfold s1. rewrite memory_get_set. simpl.
    destruct (Z.eqb_spec t 0); [done|].
    by destruct (Z.ltb_spec (now + t) now'); [|lia]. }
  split; [by apply bool_decide_eq_true_2|]. split; [by apply memory_keys_spec|].
  rewrite Hget. simpl. split; [done|].
  assert (~ is_Some (delete k (_data s) !! k)) as Hgone
    by (rewrite lookup_delete_eq; by intros [? ?]).
  split; [by apply bool_decide_eq_false_2|]. by rewrite memory_keys_spec.
Qed.

(** State saved with the default [ttl] of an hour is gone an hour and a
    second later. *)
Lemma saved_state_expires_with_backend_ttl_witness :
  let m := memory_manager 3600 in
  _current_transaction m = None
  /\ (load_state "a" 3600 (save_state "a" (PyInt 1) 0 m)).1 = PyInt 1
  /\ (load_state "a" 3601 (save_state "a" (PyInt 1) 0 m)).1 = PyNone.
Proof.
  intros m. assert (_current_transaction m = None) as Hnone by reflexivity.
  split; [done|]. split.
  - exact (saved_state_expires_with_backend_ttl m "a" (PyInt 1) 0 3600 Hnone).
  - exact (saved_state_expires_with_backend_ttl m "a" (PyInt 1) 0 3601 Hnone).
Defined.

Lemma expired_key_exists_until_read_witness :
  let s1 := memory_set "a" (PyInt 1) (Some 5) 0 {| _data := ∅ |} in
  5 <> 0 /\ 0 + 5 < 6
  /\ memory_exists "a" s1 = true
  /\ "a" ∈ memory_keys s1
  /\ (memory_get "a" 6 s1).1 = PyNone
  /\ memory_exists "a" (memory_get "a" 6 s1).2 = false
  /\ "a" ∉ memory_keys (memory_get "a" 6 s1).2.
Proof.
  intros s1. assert (5 <> 0) as Ht by lia. assert (0 + 5 < 6) as Hlate by lia.
  split; [done|]. split; [done|].
  exact (expired_key_exists_until_read {| _data := ∅ |} "a" (PyInt 1) 5 0 6 Ht Hlate).
Defined.

(** A transaction on the in-memory store: two writes and a delete are
    queued, then committed at clock reading 9. *)
Lemma commit_applies_queued_writes_witness :
  let m := save_state "a" (PyInt 1) 0 (memory_manager 3600) in
  let mus := [SaveState "b" (PyInt 2) 2; DeleteState "a"; SaveState "c" (PyInt 3) 4] in
  let r := commit_transaction "t1" 9 (mutations mus (begin_transaction "t1" 1 m).2) in
  _current_transaction m = None
  /\ r.1 = Ok tt
  /\ _store r.2 = _store (mutations (map (at_time 9) mus) m)
  /\ _current_transaction r.2 = None
  /\ (committed <$> _transactions r.2 !! "t1") = Some true.
Proof.
  intros m mus r. assert (_current_transaction m = None) as Hnone by reflexivity.
  split; [done|]. exact (commit_applies_queued_writes m "t1" 1 mus 9 Hnone).
Defined.

Lemma rollback_discards_queued_writes_witness :
  let m := save_state "a" (PyInt 1) 0 (memory_manager 3600) in
  let mus := [SaveState "b" (PyInt 2) 2; DeleteState "a"] in
  let r := rollback_transaction "t1" (mutations mus (begin_transaction "t1" 1 m).2) in
  _current_transaction m = None
  /\ r.1 = Ok tt
  /\ _store r.2 = _store m
  /\ _snapshots r.2 = _snapshots m
  /\ _current_transaction r.2 = None
  /\ (committed <$> _transactions r.2 !! "t1") = Some false.
Proof.
  intros m mus r. assert (_current_transaction m = None) as Hnone by reflexivity.
  split; [done|]. exact (rollback_discards_queued_writes m "t1" 1 mus Hnone).
Defined.

Lemma transaction_misuse_is_rejected_witness :
  let m := memory_manager 3600 in
  let m2 := mutations [SaveState "b" (PyInt 2) 2] (begin_transaction "t1" 1 m).2 in
  _current_transaction m = None /\ "t2" <> "t1"
  /\ begin_transaction "t2" 3 m2
     = (Raise (RuntimeError "Transaction already in progress"), m2)
  /\ begin_transaction "t1" 3 m2
     = (Raise (RuntimeError "Transaction already in progress"), m2)
  /\ commit_transaction "t2" 4 m2 = (Raise (invalid_transaction "t2"), m2)
  /\ rollback_transaction "t2" m2 = (Raise (invalid_transaction "t2"), m2)
  /\ commit_transaction "t1" 4 m = (Raise (invalid_transaction "t1"), m)
  /\ rollback_transaction "t1" m = (Raise (invalid_transaction "t1"), m).
Proof.
  intros m m2. assert (_current_transaction m = None) as Hnone by reflexivity.
  assert ("t2" <> "t1") as Hne by discriminate.
  split; [done|]. split; [done|].
  exact (transaction_misuse_is_rejected m "t1" "t2" 1 3 4 [SaveState "b" (PyInt 2) 2]
           Hnone Hne).
Defined.


(** C9 on a run: a value saved before the transaction is what [load_state]
    returns while a write to the same key is queued, and the write shows
    after the commit. *)
Lemma load_state_skips_open_transaction_witness :
  let m0 := save_state "a" (PyInt 1) 0 (memory_manager 3600) in
  let m1 := (begin_transaction "t1" 1 m0).2 in
  let mus := [SaveState "a" (PyInt 2) 2] in
  is_Some (_current_transaction m1)
  /\ (load_state "a" 3 (mutations mus m1)).1 = PyInt 1
  /\ (load_state "a" 5 (commit_transaction "t1" 4 (mutations mus m1)).2).1 = PyInt 2.
Proof.
  intros m0 m1 mus.
  assert (is_Some (_current_transaction m1)) as Hopen by (by eexists).
  split; [done|]. split.
  - rewrite (proj1 (proj2 (load_state_skips_open_transaction m1 mus "a" 3 Hopen))).
    reflexivity.
  - reflexivity.
Defined.

End Manager.

(** ** [operate/interfaces/base.py] *)

Module Interfaces.

Import Py.

Inductive ActionType : Type :=
| CLICK | TYPE | KEY | SCREENSHOT | WAIT | SCROLL | DRAG | HOVER | EXECUTE | GITHUB.

#[export] Instance ActionType_eq_dec : EqDecision ActionType.
Proof. solve_decision. Defined.

(** [ActionType.value] *)
Definition action_type_value (t : ActionType) : string :=
  match t with
  | CLICK => "click" | TYPE => "type" | KEY => "key" | SCREENSHOT => "screenshot"
  | WAIT => "wait" | SCROLL => "scroll" | DRAG => "drag" | HOVER => "hover"
  | EXECUTE => "execute" | GITHUB => "github"
  end.

(** [str(t)] of an enum member. *)
Definition action_type_str (t : ActionType) : string :=
  "ActionType." ++
  match t with
  | CLICK => "CLICK" | TYPE => "TYPE" | KEY => "KEY" | SCREENSHOT => "SCREENSHOT"
  | WAIT => "WAIT" | SCROLL => "SCROLL" | DRAG => "DRAG" | HOVER => "HOVER"
  | EXECUTE => "EXECUTE" | GITHUB => "GITHUB"
  end.

Inductive OperationStatus : Type :=
| PENDING | RUNNING | SUCCESS | FAILED | CANCELLED | ROLLED_BACK.

#[export] Instance OperationStatus_eq_dec : EqDecision OperationStatus.
Proof. solve_decision. Defined.

(** [Action.target]: a [Coordinate] or a string. *)
Inductive Target : Type :=
| Coordinate (x y : Z)
| TargetStr (s : string).

#[export] Instance Target_eq_dec : EqDecision Target.
Proof. solve_decision. Defined.

(** [bool(target)]: a dataclass instance is true, a string when not empty. *)
Definition target_truthy (t : option Target) : bool :=
  match t with
  | None => false
  | Some (Coordinate _ _) => true
  | Some (TargetStr s) => negb (String.eqb s "")
  end.

(** [str(target)] *)
Definition target_str (t : option Target) : string :=
  match t with
  | None => "None"
  | Some (Coordinate x y) => "Coordinate(x=" ++ pretty x ++ ", y=" ++ pretty y ++ ")"
  | Some (TargetStr s) => s
  end.

Record Action : Type := mkAction {
  id : string;
  type : ActionType;
  target : option Target;
  value : PyValue;
  metadata : list (string * PyValue)
}.

Record OperationResult : Type := mkOperationResult {
  operation_id : string;
  status : OperationStatus;
  result : PyValue;
  error : option PyError;
  timestamp : Z;
  duration : option Z
}.

End Interfaces.

(** ** [operate/security/guardian.py] *)

Module Guardian.

Import Py Interfaces.

Inductive SecurityLevel : Type := LOW | MEDIUM | HIGH | CRITICAL.

Inductive RuleType : Type := BLACKLIST | WHITELIST | PATTERN | PERMISSION.

Record SecurityRule : Type := mkSecurityRule {
  rule_id : string;
  rule_type : RuleType;
  level : SecurityLevel;
  pattern : option string;
  actions : list ActionType;
  targets : list string;
  conditions : list (string * PyValue);
  message : string
}.

(** The action summary of an audit entry. *)
Record ActionSummary : Type := mkActionSummary {
  summary_id : string;
  summary_type : string;
  summary_target : option string
}.

(** An audit entry; [entry_action] and [entry_details] are keys the entry
    may lack. *)
Record LogEntry : Type := mkLogEntry {
  entry_timestamp : Z;
  entry_event : string;
  entry_session_id : string;
  entry_sandbox_mode : bool;
  entry_action : option ActionSummary;
  entry_details : option (list (string * PyValue))
}.

Record SecurityContext : Type := mkSecurityContext {
  sandbox_mode : bool;
  user_permissions : gset string;
  session_id : string;
  audit_log : list LogEntry
}.

Record SecurityConfig : Type := mkSecurityConfig {
  enable_sandbox : bool;
  require_confirmation : list string;
  blacklisted_commands : list string;
  sensitive_patterns : list string;
  max_file_size : Z;
  allowed_domains : list string
}.

(** [SecurityConfig()] *)
Definition default_config : SecurityConfig :=
  {| enable_sandbox := true;
     require_confirmation := ["system_commands"; "file_deletion"; "network_requests"];
     blacklisted_commands := ["rm -rf /"; "format"; "del /s /q"];
     sensitive_patterns := ["password\s*="; "api[_-]?key\s*="; "secret\s*=";
                            "token\s*="; "private[_-]?key"];
     max_file_size := 100000000;
     allowed_domains := ["github.com"; "gitlab.com"; "bitbucket.org"] |}.

(** [SecurityGuardian].  [audit_files] are the files written under
    [logs/security]: the file name is the second of the write, so it is
    keyed by that clock reading, and a second write in the same second
    replaces the first. *)
Record SecurityGuardian : Type := mkSecurityGuardian {
  config : SecurityConfig;
  rules : list SecurityRule;
  context : SecurityContext;
  _confirmation_cache : gmap string (bool * Z);
  audit_files : gmap Z (list LogEntry)
}.

Definition with_context (g : SecurityGuardian) (c : SecurityContext) : SecurityGuardian :=
  {| config := config g; rules := rules g; context := c;
     _confirmation_cache := _confirmation_cache g; audit_files := audit_files g |}.

Definition with_audit_log (c : SecurityContext) (l : list LogEntry) : SecurityContext :=
  {| sandbox_mode := sandbox_mode c; user_permissions := user_permissions c;
     session_id := session_id c; audit_log := l |}.

(** [SecurityGuardian._persist_audit_log], at clock reading [now]. *)
Definition _persist_audit_log (now : Z) (g : SecurityGuardian) : SecurityGuardian :=
  {| config := config g; rules := rules g;
     context := with_audit_log (context g) [];
     _confirmation_cache := _confirmation_cache g;
     audit_files := <[now := audit_log (context g)]> (audit_files g) |}.

(** The entry [_audit_log] builds. *)
Definition log_entry (action : option Action) (event : string)
  (details : option (list (string * PyValue))) (now : Z) (g : SecurityGuardian)
  : LogEntry :=
  {| entry_timestamp := now;
     entry_event := event;
     entry_session_id := session_id (context g);
     entry_sandbox_mode := sandbox_mode (context g);
     entry_action :=
       match action with
       | Some a =>
           Some {| summary_id := id a;
                   summary_type := action_type_value (type a);
                   summary_target :=
                     if target_truthy (target a) then Some (target_str (target a))
                     else None |}
       | None => None
       end;
     entry_details :=
       match details with
       | Some (_ :: _ as d) => Some d
       | _ => None
       end |}.

(** [SecurityGuardian._audit_log] *)
Definition _audit_log (action : option Action) (event : string)
  (details : option (list (string * PyValue))) (now : Z) (g : SecurityGuardian)
  : SecurityGuardian :=
  let g1 := with_context g
              (with_audit_log (context g)
                 (audit_log (context g) ++ [log_entry action event details now g])) in
  if (100 <=? Z.of_nat (length (audit_log (context g1)))) then _persist_audit_log now g1
  else g1.

Section Validation.
(** Python's own operations on values: [str(v)], [re.search(pattern, text,
    re.IGNORECASE)] as a truth value, [a > b] and [a in b]; the last three
    may raise. *)
Variable py_str : PyValue -> string.
Variable re_search : string -> string -> outcome bool.
Variable py_gt : PyValue -> PyValue -> outcome bool.
Variable py_in : PyValue -> PyValue -> outcome bool.

(** [SecurityGuardian._check_permission] *)
Definition _check_permission (action : Action) (rule : SecurityRule) : outcome bool :=
  let size_ok :=
    if dict_has "max_size" (conditions rule) && truthy (dict_get "size" (metadata action))
    then match py_gt (dict_get "size" (metadata action))
                     (dict_get "max_size" (conditions rule)) with
         | Ok b => Ok (negb b)
         | Raise e => Raise e
         end
    else Ok true in
  match size_ok with
  | Raise e => Raise e
  | Ok false => Ok false
  | Ok true =>
      if dict_has "allowed_domains" (conditions rule)
         && truthy (dict_get "domain" (metadata action))
      then py_in (dict_get "domain" (metadata action))
                 (dict_get "allowed_domains" (conditions rule))
      else Ok true
  end.

(** The first text of [to_check] the pattern is found in. *)
Fixpoint search_any (pat : string) (texts : list string) : outcome bool :=
  match texts with
  | [] => Ok false
  | text :: rest =>
      match re_search pat text with
      | Raise e => Raise e
      | Ok true => Ok true
      | Ok false => search_any pat rest
      end
  end.

(** [bool(rule.pattern)] *)
Definition pattern_set (rule : SecurityRule) : option string :=
  match pattern rule with
  | Some p => if String.eqb p "" then None else Some p
  | None => None
  end.

(** [SecurityGuardian._check_rule]: the violation found, if any. *)
Definition _check_rule (action : Action) (rule : SecurityRule) : outcome (option string) :=
  if match actions rule with [] => false | _ => true end
     && negb (bool_decide (type action ∈ actions rule))
  then Ok None
  else
    match rule_type rule with
    | BLACKLIST =>
        match pattern_set rule with
        | Some p =>
            if truthy (value action) then
              match re_search p (py_str (value action)) with
              | Raise e => Raise e
              | Ok true => Ok (Some "Blacklisted pattern matched")
              | Ok false => Ok None
              end
            else Ok None
        | None => Ok None
        end
    | PATTERN =>
        match pattern_set rule with
        | Some p =>
            let to_check :=
              (if truthy (value action) then [py_str (value action)] else [])
              ++ map (fun kv => py_str kv.2) (metadata action) in
            match search_any p to_check with
            | Raise e => Raise e
            | Ok true => Ok (Some ("Sensitive pattern detected: " ++ p)%string)
            | Ok false => Ok None
            end
        | None => Ok None
        end
    | PERMISSION =>
        match _check_permission action rule with
        | Raise e => Raise e
        | Ok false => Ok (Some "Permission check failed")
        | Ok true => Ok None
        end
    | WHITELIST => Ok None
    end.

(** The rule loop of [validate_action]: the first rule violated, with the
    violation. *)
Fixpoint check_rules (action : Action) (rs : list SecurityRule)
  : outcome (option (SecurityRule * string)) :=
  match rs with
  | [] => Ok None
  | rule :: rest =>
      match _check_rule action rule with
      | Raise e => Raise e
      | Ok (Some violation) => Ok (Some (rule, violation))
      | Ok None => check_rules action rest
      end
  end.

(** [SecurityGuardian._categorize_action] *)
Definition _categorize_action (action : Action) : string :=
  match type action with
  | EXECUTE => "system_commands"
  | TYPE =>
      match dict_get "file_operation" (metadata action) with
      | PyStr s => if String.eqb s "delete" then "file_deletion" else "general"
      | _ => "general"
      end
  | GITHUB =>
      if truthy (dict_get "network_request" (metadata action)) then "network_requests"
      else "general"
  | _ => "general"
  end.

(** [SecurityGuardian._requires_confirmation] *)
Definition _requires_confirmation (action : Action) (g : SecurityGuardian) : bool :=
  bool_decide (_categorize_action action ∈ require_confirmation (config g)).

(** [SecurityGuardian.request_permission] *)
Definition request_permission (action : Action) (now : Z) (g : SecurityGuardian)
  : bool * SecurityGuardian :=
  let cache_key := (action_type_str (type action) ++ ":" ++ target_str (target action)
                    ++ ":" ++ py_str (value action))%string in
  let fresh :=
    let result := negb (sandbox_mode (context g)) in
    (result,
     {| config := config g; rules := rules g; context := context g;
        _confirmation_cache := <[cache_key := (result, now)]> (_confirmation_cache g);
        audit_files := audit_files g |}) in
  match _confirmation_cache g !! cache_key with
  | Some (cached_result, cache_time) =>
      if now - cache_time <? 300 then (cached_result, g) else fresh
  | None => fresh
  end.

Definition sandbox_reason : string := "Action not allowed in sandbox mode".

(** [SecurityGuardian.validate_action]; the clock reads [now] throughout
    the call. *)
Definition validate_action (action : Action) (now : Z) (g : SecurityGuardian)
  : outcome (bool * option string) * SecurityGuardian :=
  let g1 := _audit_log (Some action) "validation_started" None now g in
  if sandbox_mode (context g1) && bool_decide (type action ∈ [EXECUTE; GITHUB])
  then (Ok (false, Some sandbox_reason), g1)
  else
    match check_rules action (rules g1) with
    | Raise e => (Raise e, g1)
    | Ok (Some (rule, violation)) =>
        let g2 := _audit_log (Some action) "validation_failed"
                    (Some [("rule", PyStr (rule_id rule))]) now g1 in
        (Ok (false, Some (message rule ++ ": " ++ violation)%string), g2)
    | Ok None =>
        let passed g' :=
          (Ok (true, None), _audit_log (Some action) "validation_passed" None now g') in
        if _requires_confirmation action g1 then
          let '(confirmed, g2) := request_permission action now g1 in
          if confirmed then passed g2
          else (Ok (false, Some "User denied permission"),
                _audit_log (Some action) "user_denied" None now g2)
        else passed g1
    end.

(** [SecurityGuardian.add_rule] *)
Definition add_rule (rule : SecurityRule) (g : SecurityGuardian) : SecurityGuardian :=
  {| config := config g; rules := rules g ++ [rule]; context := context g;
     _confirmation_cache := _confirmation_cache g; audit_files := audit_files g |}.

(** [SecurityGuardian.remove_rule] *)
Definition remove_rule (rid : string) (g : SecurityGuardian) : SecurityGuardian :=
  {| config := config g;
     rules := filter (fun r => negb (String.eqb (rule_id r) rid)) (rules g);
     context := context g;
     _confirmation_cache := _confirmation_cache g; audit_files := audit_files g |}.

Definition with_permissions (g : SecurityGuardian) (ps : gset string) : SecurityGuardian :=
  with_context g {| sandbox_mode := sandbox_mode (context g); user_permissions := ps;
                    session_id := session_id (context g);
                    audit_log := audit_log (context g) |}.

(** [SecurityGuardian.grant_permission] *)
Definition grant_permission (permission : string) (now : Z) (g : SecurityGuardian)
  : SecurityGuardian :=
  _audit_log None "permission_granted" (Some [("permission", PyStr permission)]) now
    (with_permissions g (user_permissions (context g) ∪ {[permission]})).

(** [SecurityGuardian.revoke_permission] *)
Definition revoke_permission (permission : string) (now : Z) (g : SecurityGuardian)
  : SecurityGuardian :=
  _audit_log None "permission_revoked" (Some [("permission", PyStr permission)]) now
    (with_permissions g (user_permissions (context g) ∖ {[permission]})).

(** [SecurityGuardian.__init__] without the default rules, which the
    constructor appends next. *)
Definition new_guardian (cfg : SecurityConfig) (rs : list SecurityRule) : SecurityGuardian :=
  {| config := cfg; rules := rs;
     context := {| sandbox_mode := enable_sandbox cfg; user_permissions := ∅;
                   session_id := ""; audit_log := [] |};
     _confirmation_cache := ∅; audit_files := ∅ |}.

(** *** The audit log *)

(** An entry is on record when it is in the in-memory log or in a file. *)
Definition recorded (e : LogEntry) (g : SecurityGuardian) : Prop :=
  e ∈ audit_log (context g)
  \/ exists t es, audit_files g !! t = Some es /\ e ∈ es.

Lemma _audit_log_context action event details now g :
  sandbox_mode (context (_audit_log action event details now g)) = sandbox_mode (context g)
  /\ session_id (context (_audit_log action event details now g)) = session_id (context g)
  /\ rules (_audit_log action event details now g) = rules g
  /\ config (_audit_log action event details now g) = config g.
Proof. unfold _audit_log. simpl. by destruct (100 <=? _). Qed.

Lemma log_entry_context action event details now g g' :
  sandbox_mode (context g') = sandbox_mode (context g) ->
  session_id (context g') = session_id (context g) ->
  log_entry action event details now g' = log_entry action event details now g.
Proof. intros H1 H2. unfold log_entry. by rewrite H1, H2. Qed.

(** One call of [_audit_log] on a log shorter than 100: the entry is
    appended, and the log is written out and cleared exactly when that makes
    100 entries. *)
Lemma _audit_log_step action event details now g :
  (length (audit_log (context g)) < 100)%nat ->
  let e := log_entry action event details now g in
  let g' := _audit_log action event details now g in
  if decide (length (audit_log (context g)) = 99%nat) then
    audit_log (context g') = []
    /\ audit_files g' = <[now := audit_log (context g) ++ [e]]> (audit_files g)
  else
    audit_log (context g') = audit_log (context g) ++ [e]
    /\ audit_files g' = audit_files g.
Proof.
  intros Hlen e g'. unfold g', _audit_log. simpl. rewrite length_app. simpl.
  destruct (decide (length (audit_log (context g)) = 99%nat)) as [Heq|Hne].
  - rewrite Heq. simpl. done.
  - destruct (Z.leb_spec 100 (Z.of_nat (length (audit_log (context g)) + 1))); [lia|done].
Qed.

Lemma _audit_log_length action event details now g :
  (length (audit_log (context g)) < 100)%nat ->
  (length (audit_log (context (_audit_log action event details now g))) < 100)%nat.
Proof.
  intros Hlen. pose proof (_audit_log_step action event details now g Hlen) as Hs.
  simpl in Hs. destruct (decide _) as [Heq|Hne]; destruct Hs as [-> _]; simpl; [lia|].
  rewrite length_app. simpl. lia.
Qed.

(** The entry just logged is on record. *)
Lemma _audit_log_recorded action event details now g :
  (length (audit_log (context g)) < 100)%nat ->
  recorded (log_entry action event details now g) (_audit_log action event details now g).
Proof.
  intros Hlen. pose proof (_audit_log_step action event details now g Hlen) as Hs.
  simpl in Hs. destruct (decide _) as [Heq|Hne]; destruct Hs as [Hl Hf].
  - right. eexists now, _. rewrite Hf, lookup_insert_eq. split; [done|].
    apply elem_of_app. right. left.
  - left. rewrite Hl. apply elem_of_app. right. left.
Qed.

(** An entry of the in-memory log stays on record through the next call. *)
Lemma _audit_log_keeps e action event details now g :
  (length (audit_log (context g)) < 100)%nat ->
  e ∈ audit_log (context g) ->
  recorded e (_audit_log action event details now g).
Proof.
  intros Hlen He. pose proof (_audit_log_step action event details now g Hlen) as Hs.
  simpl in Hs. destruct (decide _) as [Heq|Hne]; destruct Hs as [Hl Hf].
  - right. eexists now, _. rewrite Hf, lookup_insert_eq. split; [done|].
    apply elem_of_app. by left.
  - left. rewrite Hl. apply elem_of_app. by left.
Qed.

(** An entry on record stays so through a call that does not write a file. *)
Lemma _audit_log_keeps_unflushed e action event details now g :
  (length (audit_log (context g)) < 99)%nat ->
  recorded e g ->
  recorded e (_audit_log action event details now g).
Proof.
  intros Hlen He.
  pose proof (_audit_log_step action event details now g ltac:(lia)) as Hs.
  simpl in Hs. destruct (decide _) as [Heq|Hne]; [lia|]. destruct Hs as [Hl Hf].
  destruct He as [He|(t & es & Ht & He)].
  - left. rewrite Hl. apply elem_of_app. by left.
  - right. exists t, es. by rewrite Hf.
Qed.

(** Two calls in a row at one clock reading keep the first entry. *)
Lemma _audit_log_twice a1 ev1 d1 a2 ev2 d2 now g :
  (length (audit_log (context g)) < 100)%nat ->
  recorded (log_entry a1 ev1 d1 now g)
           (_audit_log a2 ev2 d2 now (_audit_log a1 ev1 d1 now g)).
Proof.
  intros Hlen. pose proof (_audit_log_step a1 ev1 d1 now g Hlen) as Hs.
  simpl in Hs. destruct (decide _) as [Heq|Hne]; destruct Hs as [Hl Hf].
  - apply _audit_log_keeps_unflushed.
    + rewrite Hl. simpl. lia.
    + right. eexists now, _. rewrite Hf, lookup_insert_eq. split; [done|].
      apply elem_of_app. right. left.
  - apply _audit_log_keeps.
    + by apply _audit_log_length.
    + rewrite Hl. apply elem_of_app. right. left.
Qed.

Lemma request_permission_audit action now g :
  context (request_permission action now g).2 = context g
  /\ audit_files (request_permission action now g).2 = audit_files g.
Proof.
  unfold request_permission.
  destruct (_confirmation_cache g !! _) as [[r t]|]; [|done].
  by destruct (now - t <? 300).
Qed.

Lemma _audit_log_same_audit action event details now g g' :
  context g' = context g -> audit_files g' = audit_files g ->
  context (_audit_log action event details now g') = context (_audit_log action event details now g)
  /\ audit_files (_audit_log action event details now g')
     = audit_files (_audit_log action event details now g).
Proof.
  intros Hc Hf. unfold _audit_log, log_entry. simpl. rewrite Hc.
  destruct (100 <=? _); simpl; by rewrite ?Hc, ?Hf.
Qed.

Lemma recorded_same_audit e g g' :
  context g' = context g -> audit_files g' = audit_files g ->
  recorded e g -> recorded e g'.
Proof. intros Hc Hf. unfold recorded. by rewrite Hc, Hf. Qed.

(** C5.  In sandbox mode an action of type [EXECUTE] or [GITHUB] is rejected
    with the fixed reason, whatever rules are registered and whatever the
    rule checks would do (they are parameters here, and may raise): the
    call returns right after logging that validation started, which is its
    only effect. *)
Theorem sandbox_rejects_privileged_actions (action : Action) (now : Z) (g : SecurityGuardian) :
  sandbox_mode (context g) = true ->
  type action ∈ [EXECUTE; GITHUB] ->
  validate_action action now g =
  (Ok (false, Some "Action not allowed in sandbox mode"),
   _audit_log (Some action) "validation_started" None now g).
Proof.
  intros Hsb Hty. unfold validate_action.
  destruct (_audit_log_context (Some action) "validation_started" None now g) as [-> _].
  rewrite Hsb. by rewrite bool_decide_eq_true_2.
Qed.

(** The outcome entry that follows the entry of the call, also after a
    permission request in between. *)
Lemma second_entry action event details now g g2 :
  (length (audit_log (context g)) < 100)%nat ->
  let g1 := _audit_log (Some action) "validation_started" None now g in
  context g2 = context g1 -> audit_files g2 = audit_files g1 ->
  let g' := _audit_log (Some action) event details now g2 in
  recorded (log_entry (Some action) "validation_started" None now g) g'
  /\ recorded (log_entry (Some action) event details now g) g'
  /\ (length (audit_log (context g')) < 100)%nat.
Proof.
  intros Hlen g1 Hc Hf g'.
  destruct (_audit_log_same_audit (Some action) event details now g1 g2 Hc Hf) as [Hc' Hf'].
  fold g' in Hc', Hf'.
  destruct (_audit_log_context (Some action) "validation_started" None now g)
    as (Hsb & Hsid & _). fold g1 in Hsb, Hsid.
  pose proof (_audit_log_length (Some action) "validation_started" None now g Hlen) as Hlen1.
  fold g1 in Hlen1.
  split; [|split].
  - apply (recorded_same_audit _ _ _ Hc' Hf'). by apply _audit_log_twice.
  - apply (recorded_same_audit _ _ _ Hc' Hf').
    rewrite <- (log_entry_context (Some action) event details now g g1 Hsb Hsid).
    by apply _audit_log_recorded.
  - rewrite Hc'. by apply _audit_log_length.
Qed.

(** What a call of [validate_action] leaves in the audit trail, on a
    guardian whose in-memory log is shorter than 100: (1) the entry of the
    call, with the clock reading, the event, the session's sandbox flag and
    the action's id and type, is on record afterwards, whatever the outcome
    (a sandbox rejection and a raising rule check included); (2) a pass also
    leaves a [validation_passed] entry, and a rejection that is not the
    sandbox one a [validation_failed] or [user_denied] entry; (3) the
    in-memory log is shorter than 100 afterwards; (4) each logging step
    appends its entry and writes the log out and clears it exactly when that
    makes 100 entries. *)
Theorem every_call_is_audited (action : Action) (now : Z) (g : SecurityGuardian) :
  (length (audit_log (context g)) < 100)%nat ->
  let r := validate_action action now g in
  let entry event details := log_entry (Some action) event details now g in
  (recorded (entry "validation_started" None) r.2
   /\ forall event details,
        entry_timestamp (entry event details) = now
        /\ entry_event (entry event details) = event
        /\ entry_sandbox_mode (entry event details) = sandbox_mode (context g)
        /\ exists tgt, entry_action (entry event details)
                       = Some {| summary_id := id action;
                                 summary_type := action_type_value (type action);
                                 summary_target := tgt |})
  /\ (r.1 = Ok (true, None) -> recorded (entry "validation_passed" None) r.2)
  /\ (forall reason, r.1 = Ok (false, reason) ->
        sandbox_mode (context g) && bool_decide (type action ∈ [EXECUTE; GITHUB]) = true
        \/ (exists rule, rule ∈ rules g
              /\ recorded (entry "validation_failed"
                             (Some [("rule", PyStr (rule_id rule))])) r.2)
        \/ recorded (entry "user_denied" None) r.2)
  /\ (length (audit_log (context r.2)) < 100)%nat
  /\ (forall a event details t g0,
        (length (audit_log (context g0)) < 100)%nat ->
        let e := log_entry a event details t g0 in
        let g' := _audit_log a event details t g0 in
        if decide (length (audit_log (context g0)) = 99%nat) then
          audit_log (context g') = []
          /\ audit_files g' = <[t := audit_log (context g0) ++ [e]]> (audit_files g0)
        else
          audit_log (context g') = audit_log (context g0) ++ [e]
          /\ audit_files g' = audit_files g0).
Proof.
  intros Hlen r entry.
  set (g1 := _audit_log (Some action) "validation_started" None now g).
  destruct (_audit_log_context (Some action) "validation_started" None now g)
    as (Hsb & Hsid & Hrules & Hcfg). fold g1 in Hsb, Hsid, Hrules, Hcfg.
  pose proof (_audit_log_length (Some action) "validation_started" None now g Hlen) as Hlen1.
  pose proof (_audit_log_recorded (Some action) "validation_started" None now g Hlen) as Hrec1.
  fold g1 in Hlen1, Hrec1.
  assert (forall event details,
            entry_timestamp (entry event details) = now
            /\ entry_event (entry event details) = event
            /\ entry_sandbox_mode (entry event details) = sandbox_mode (context g)
            /\ exists tgt, entry_action (entry event details)
                           = Some {| summary_id := id action;
                                     summary_type := action_type_value (type action);
                                     summary_target := tgt |}) as Hfields.
  { intros event details. unfold entry, log_entry. simpl. repeat split. by eexists. }
  assert (forall ev d g2, context g2 = context g1 -> audit_files g2 = audit_files g1 ->
            let g' := _audit_log (Some action) ev d now g2 in
            recorded (entry "validation_started" None) g'
            /\ recorded (entry ev d) g'
            /\ (length (audit_log (context g')) < 100)%nat) as Hsecond.
  { intros ev d g2 Hc Hf. by apply second_entry. }
  cut (recorded (entry "validation_started" None) r.2
       /\ (r.1 = Ok (true, None) -> recorded (entry "validation_passed" None) r.2)
       /\ (forall reason, r.1 = Ok (false, reason) ->
             sandbox_mode (context g) && bool_decide (type action ∈ [EXECUTE; GITHUB]) = true
             \/ (exists rule, rule ∈ rules g
                   /\ recorded (entry "validation_failed"
                                  (Some [("rule", PyStr (rule_id rule))])) r.2)
             \/ recorded (entry "user_denied" None) r.2)
       /\ (length (audit_log (context r.2)) < 100)%nat).
  { intros (H1 & H2 & H3 & H4).
    split; [split; [done | apply Hfields]|].
    split; [done|]. split; [done|]. split; [done|].
    intros a event details t g0 Hl. by apply _audit_log_step. }
  unfold r, validate_action. fold g1. rewrite Hsb.
  destruct (sandbox_mode (context g) && bool_decide (type action ∈ [EXECUTE; GITHUB])) eqn:Hsand.
  { simpl. repeat split; try done. intros reason _. by left. }
  destruct (check_rules action (rules g1)) as [[[rule violation]|]|e] eqn:Hcheck.
  - (* a rule is violated *)
    destruct (Hsecond "validation_failed" (Some [("rule", PyStr (rule_id rule))]) g1)
      as (Hs1 & Hs2 & Hs3); [done|done|].
    simpl. repeat split; try done.
    intros reason _. right. left. exists rule. split; [|done].
    rewrite <- Hrules. clear -Hcheck.
    induction (rules g1) as [|r0 rs IH]; simpl in Hcheck; [done|].
    destruct (_check_rule action r0) as [[v|]|e]; try done.
    + injection Hcheck as -> _. left.
    + right. by apply IH.
  - (* no rule is violated *)
    destruct (_requires_confirmation action g1).
    + destruct (request_permission action now g1) as [confirmed g2] eqn:Hreq.
      destruct (request_permission_audit action now g1) as [Hc Hf].
      rewrite Hreq in Hc, Hf. simpl in Hc, Hf.
      destruct confirmed.
      * destruct (Hsecond "validation_passed" None g2) as (Hs1 & Hs2 & Hs3); [done|done|].
        simpl. repeat split; try done.
      * destruct (Hsecond "user_denied" None g2) as (Hs1 & Hs2 & Hs3); [done|done|].
        simpl. repeat split; try done. intros reason _. by right; right.
    + destruct (Hsecond "validation_passed" None g1) as (Hs1 & Hs2 & Hs3); [done|done|].
      simpl. repeat split; try done.
  - (* a rule check raises *)
    simpl. repeat split; try done.
Qed.

(** *** What a validation result depends on *)

(** Two guardians with the same sandbox flag, rules, configuration and
    confirmation cache. *)
Definition same_policy (g g' : SecurityGuardian) : Prop :=
  sandbox_mode (context g') = sandbox_mode (context g)
  /\ rules g' = rules g
  /\ config g' = config g
  /\ _confirmation_cache g' = _confirmation_cache g.

Lemma same_policy_trans g1 g2 g3 : same_policy g1 g2 -> same_policy g2 g3 -> same_policy g1 g3.
Proof. unfold same_policy. intros (?&?&?&?) (?&?&?&?). repeat split; congruence. Qed.

Lemma same_policy_sym g1 g2 : same_policy g1 g2 -> same_policy g2 g1.
Proof. unfold same_policy. intros (?&?&?&?). repeat split; congruence. Qed.

Lemma _audit_log_policy action event details now g :
  same_policy g (_audit_log action event details now g).
Proof. unfold same_policy, _audit_log. simpl. by destruct (100 <=? _). Qed.

(** The answer to a permission request is decided by the sandbox flag and
    the confirmation cache. *)
Lemma request_permission_result action now g g' :
  sandbox_mode (context g') = sandbox_mode (context g) ->
  _confirmation_cache g' = _confirmation_cache g ->
  (request_permission action now g').1 = (request_permission action now g).1.
Proof.
  intros Hsb Hcache. unfold request_permission. rewrite Hcache, Hsb.
  destruct (_confirmation_cache g !! _) as [[r t]|]; [|done].
  by destruct (now - t <? 300).
Qed.

(** The result of [validate_action] is decided by the sandbox flag, the
    rules, the configuration and the confirmation cache. *)
Lemma validate_action_policy action now g g' :
  same_policy g g' ->
  (validate_action action now g').1 = (validate_action action now g).1.
Proof.
  intros Hp. unfold validate_action.
  set (g1 := _audit_log (Some action) "validation_started" None now g).
  set (g1' := _audit_log (Some action) "validation_started" None now g').
  assert (same_policy g1 g1') as Hp1.
  { eapply same_policy_trans; [apply same_policy_sym, _audit_log_policy|].
    eapply same_policy_trans; [exact Hp|]. apply _audit_log_policy. }
  destruct Hp1 as (Hsb & Hr & Hc & Hcache).
  rewrite Hsb, Hr. destruct (_ && _); [done|].
  destruct (check_rules action (rules g1)) as [[[rule violation]|]|e]; [done| |done].
  unfold _requires_confirmation. rewrite Hc.
  destruct (bool_decide _); [|done].
  pose proof (request_permission_result action now g1 g1' Hsb Hcache) as Hres.
  destruct (request_permission action now g1) as [confirmed g2].
  destruct (request_permission action now g1') as [confirmed' g2'].
  simpl in Hres. subst confirmed'. by destruct confirmed.
Qed.

(** The session's permissions play no part in validation: whatever
    permission is granted or revoked, at any time, every action is validated
    with the result it would have had without that. *)
Theorem permissions_never_affect_validation (action : Action) (now t : Z)
  (permission : string) (g : SecurityGuardian) :
  (validate_action action now (grant_permission permission t g)).1
  = (validate_action action now g).1
  /\ (validate_action action now (revoke_permission permission t g)).1
     = (validate_action action now g).1.
Proof.
  split; apply validate_action_policy;
    (eapply same_policy_trans; [|apply _audit_log_policy]); by repeat split.
Qed.

Lemma check_rules_app action rs1 rs2 :
  check_rules action (rs1 ++ rs2) =
  match check_rules action rs1 with
  | Ok None => check_rules action rs2
  | res => res
  end.
Proof.
  induction rs1 as [|r rs1 IH]; simpl; [done|].
  by destruct (_check_rule action r) as [[v|]|e].
Qed.

(** A [WHITELIST] rule restricts nothing: no branch of the rule check looks
    at that type, so adding such a rule leaves the result of every
    validation as it was. *)
Theorem whitelist_rule_has_no_effect (rule : SecurityRule) (action : Action) (now : Z)
  (g : SecurityGuardian) :
  rule_type rule = WHITELIST ->
  (validate_action action now (add_rule rule g)).1 = (validate_action action now g).1.
Proof.
  intros Hty. unfold validate_action.
  set (g1 := _audit_log (Some action) "validation_started" None now g).
  set (g1' := _audit_log (Some action) "validation_started" None now (add_rule rule g)).
  destruct (_audit_log_policy (Some action) "validation_started" None now g)
    as (Hsb & Hr & Hc & Hcache).
  destruct (_audit_log_policy (Some action) "validation_started" None now (add_rule rule g))
    as (Hsb' & Hr' & Hc' & Hcache').
  fold g1 in Hsb, Hr, Hc, Hcache. fold g1' in Hsb', Hr', Hc', Hcache'. simpl in *.
  rewrite Hsb', Hsb. destruct (_ && _); [done|].
  rewrite Hr', Hr, check_rules_app.
  assert (check_rules action [rule] = Ok None) as Hrule.
  { simpl. unfold _check_rule. rewrite Hty. by destruct (_ && _). }
  destruct (check_rules action (rules g)) as [[[r violation]|]|e]; [done| |done].
  rewrite Hrule. unfold _requires_confirmation. rewrite Hc', Hc.
  destruct (bool_decide _); [|done].
  pose proof (request_permission_result action now g1 g1'
                ltac:(by rewrite Hsb', Hsb) ltac:(by rewrite Hcache', Hcache)) as Hres.
  destruct (request_permission action now g1) as [confirmed g2].
  destruct (request_permission action now g1') as [confirmed' g2'].
  simpl in Hres. subst confirmed'. by destruct confirmed.
Qed.

(** The rules are checked in the order they were registered, and the first
    one violated decides: with no sandbox rejection, rules that pass, then a
    rule that is violated, the action is rejected with that rule's message
    and the violation, the rejection is logged with the rule's id, and the
    rules after it are not looked at. *)
Theorem first_violated_rule_decides (action : Action) (now : Z) (g : SecurityGuardian)
  (pre : list SecurityRule) (rule : SecurityRule) (post : list SecurityRule)
  (violation : string) :
  sandbox_mode (context g) && bool_decide (type action ∈ [EXECUTE; GITHUB]) = false ->
  rules g = pre ++ rule :: post ->
  Forall (fun r => _check_rule action r = Ok None) pre ->
  _check_rule action rule = Ok (Some violation) ->
  validate_action action now g =
  (Ok (false, Some (message rule ++ ": " ++ violation)%string),
   _audit_log (Some action) "validation_failed" (Some [("rule", PyStr (rule_id rule))]) now
     (_audit_log (Some action) "validation_started" None now g)).
Proof.
  intros Hsand Hrules Hpre Hrule. unfold validate_action.
  destruct (_audit_log_policy (Some action) "validation_started" None now g)
    as (-> & -> & _). rewrite Hsand, Hrules, check_rules_app.
  assert (check_rules action pre = Ok None) as ->.
  { clear -Hpre. induction Hpre as [|r pre Hr Hpre IH]; simpl; [done|]. by rewrite Hr. }
  simpl. by rewrite Hrule.
Qed.

(** *** Remembered decisions *)

(** The key a decision is cached under: [f"{action.type}:{action.target}:{action.value}"]. *)
Definition confirmation_key (action : Action) : string :=
  (action_type_str (type action) ++ ":" ++ target_str (target action)
   ++ ":" ++ py_str (value action))%string.

(** A decision is remembered for 300 seconds, whatever becomes of the
    sandbox mode in the meantime.  When the cache holds no decision younger
    than 300 seconds for the action, [request_permission] decides by the
    sandbox mode (denied in sandbox mode, granted otherwise) and caches the
    decision; a request for the same type, target and value made less than
    300 seconds later gets that decision again, also when the sandbox mode
    has changed; from 300 seconds on the request is decided afresh. *)
Theorem cached_decision_outlives_sandbox_mode (action : Action) (now now' : Z)
  (g g2 : SecurityGuardian) :
  (forall r t, _confirmation_cache g !! confirmation_key action = Some (r, t) ->
               300 <= now - t) ->
  _confirmation_cache g2 = _confirmation_cache (request_permission action now g).2 ->
  (request_permission action now g).1 = negb (sandbox_mode (context g))
  /\ (request_permission action now' g2).1 =
     if now' - now <? 300 then negb (sandbox_mode (context g))
     else negb (sandbox_mode (context g2)).
Proof.
  intros Hstale Hcache.
  assert (request_permission action now g =
          (negb (sandbox_mode (context g)),
           {| config := config g; rules := rules g; context := context g;
              _confirmation_cache :=
                <[confirmation_key action := (negb (sandbox_mode (context g)), now)]>
                  (_confirmation_cache g);
              audit_files := audit_files g |})) as Hfirst.
  { unfold request_permission. fold (confirmation_key action).
    destruct (_confirmation_cache g !! confirmation_key action) as [[r t]|] eqn:Hc; [|done].
    specialize (Hstale r t eq_refl).
    by destruct (Z.ltb_spec (now - t) 300); [lia|]. }
  rewrite Hfirst in Hcache |- *. simpl in Hcache. split; [done|].
  unfold request_permission. fold (confirmation_key action).
  rewrite Hcache, lookup_insert_eq. by destruct (now' - now <? 300).
Qed.

(** *** The sandbox block *)

(** [guardian.context.sandbox_mode = b] *)
Definition set_sandbox_mode (b : bool) (g : SecurityGuardian) : SecurityGuardian :=
  with_context g {| sandbox_mode := b; user_permissions := user_permissions (context g);
                    session_id := session_id (context g);
                    audit_log := audit_log (context g) |}.

(** [async with guardian.sandbox_mode(): body].  [SandboxContext.__aenter__]
    keeps the mode in [original_mode] and switches sandbox mode on;
    [__aexit__] puts [original_mode] back, also when the body raised (the
    body's result says so), and lets the exception through. *)
Definition within_sandbox {A : Type} (body : SecurityGuardian -> A * SecurityGuardian)
  (g : SecurityGuardian) : A * SecurityGuardian :=
  let original_mode := sandbox_mode (context g) in
  let '(a, g1) := body (set_sandbox_mode true g) in
  (a, set_sandbox_mode original_mode g1).

(** The calls a body makes on the guardian. *)
Inductive Call : Type :=
| CallValidate (action : Action) (now : Z)
| CallRequestPermission (action : Action) (now : Z)
| CallAddRule (rule : SecurityRule)
| CallRemoveRule (rule_id : string)
| CallGrant (permission : string) (now : Z)
| CallRevoke (permission : string) (now : Z).

(** A body that makes the calls one after the other and keeps the verdicts
    of its validations; an exception a validation raises ends the body. *)
Fixpoint calls (cs : list Call) (verdicts : list (Action * (bool * option string)))
  (g : SecurityGuardian)
  : (outcome unit * list (Action * (bool * option string))) * SecurityGuardian :=
  match cs with
  | [] => ((Ok tt, verdicts), g)
  | CallValidate action now :: rest =>
      match validate_action action now g with
      | (Ok verdict, g') => calls rest (verdicts ++ [(action, verdict)]) g'
      | (Raise e, g') => ((Raise e, verdicts), g')
      end
  | CallRequestPermission action now :: rest =>
      calls rest verdicts (request_permission action now g).2
  | CallAddRule rule :: rest => calls rest verdicts (add_rule rule g)
  | CallRemoveRule rid :: rest => calls rest verdicts (remove_rule rid g)
  | CallGrant permission now :: rest => calls rest verdicts (grant_permission permission now g)
  | CallRevoke permission now :: rest => calls rest verdicts (revoke_permission permission now g)
  end.

(** In sandbox mode an [EXECUTE] or [GITHUB] action gets the sandbox
    verdict. *)
Definition sandboxed (av : Action * (bool * option string)) : Prop :=
  type av.1 ∈ [EXECUTE; GITHUB] -> av.2 = (false, Some sandbox_reason).

Lemma request_permission_sandbox_mode action now g :
  sandbox_mode (context (request_permission action now g).2) = sandbox_mode (context g).
Proof.
  unfold request_permission. destruct (_confirmation_cache g !! _) as [[r t]|]; [|done].
  by destruct (now - t <? 300).
Qed.

Lemma validate_action_sandbox_mode action now g :
  sandbox_mode (context (validate_action action now g).2) = sandbox_mode (context g).
Proof.
  unfold validate_action.
  set (g1 := _audit_log (Some action) "validation_started" None now g).
  assert (sandbox_mode (context g1) = sandbox_mode (context g)) as H1
    by apply _audit_log_context.
  assert (forall ev d g', sandbox_mode (context g') = sandbox_mode (context g) ->
            sandbox_mode (context (_audit_log (Some action) ev d now g'))
            = sandbox_mode (context g)) as Hlog.
  { intros ev d g' Hg'. by destruct (_audit_log_context (Some action) ev d now g') as [-> _]. }
  destruct (_ && _); [done|].
  destruct (check_rules action (rules g1)) as [[[rule violation]|]|e]; simpl; [by apply Hlog| |done].
  destruct (_requires_confirmation action g1); [|by apply Hlog].
  pose proof (request_permission_sandbox_mode action now g1) as Hreq.
  destruct (request_permission action now g1) as [[|] g2]; simpl in *;
    apply Hlog; congruence.
Qed.

Lemma calls_in_sandbox cs verdicts g :
  sandbox_mode (context g) = true -> Forall sandboxed verdicts ->
  sandbox_mode (context (calls cs verdicts g).2) = true
  /\ Forall sandboxed (calls cs verdicts g).1.2.
Proof.
  revert verdicts g. induction cs as [|c cs IH]; intros verdicts g Hsb Hv; [done|].
  destruct c as [action now|action now|rule|rid|permission now|permission now]; simpl.
  - pose proof (validate_action_sandbox_mode action now g) as Hmode.
    assert (forall verdict, (validate_action action now g).1 = Ok verdict ->
              sandboxed (action, verdict)) as Hverdict.
    { intros verdict Hres Hty. simpl in *. unfold validate_action in Hres.
      destruct (_audit_log_context (Some action) "validation_started" None now g) as [Hs _].
      rewrite Hs, Hsb in Hres. rewrite bool_decide_eq_true_2 in Hres by done.
      simpl in Hres. by injection Hres as <-. }
    destruct (validate_action action now g) as [[verdict|e] g']; simpl in *.
    + apply IH; [congruence|]. apply Forall_app. split; [done|].
      constructor; [by apply Hverdict|constructor].
    + split; [congruence|done].
  - apply IH; [|done]. by rewrite request_permission_sandbox_mode.
  - by apply IH.
  - by apply IH.
  - apply IH; [|done]. unfold grant_permission.
    by destruct (_audit_log_context None "permission_granted"
                   (Some [("permission", PyStr permission)]) now
                   (with_permissions g (user_permissions (context g) ∪ {[permission]})))
      as [-> _].
  - apply IH; [|done]. unfold revoke_permission.
    by destruct (_audit_log_context None "permission_revoked"
                   (Some [("permission", PyStr permission)]) now
                   (with_permissions g (user_permissions (context g) ∖ {[permission]})))
      as [-> _].
Qed.

(** Inside a sandbox block the sandbox holds whatever the body does: no
    call on the guardian (validating, requesting permission, adding or
    removing rules, granting or revoking permissions) switches sandbox mode
    off, so every [EXECUTE] and [GITHUB] action validated in the block is
    rejected with the sandbox reason, whatever the mode was before the
    block.  After the block the mode is what it was before, also when the
    body ended with an exception. *)
Theorem sandbox_block_is_enforced (cs : list Call) (g : SecurityGuardian) :
  let r := within_sandbox (calls cs []) g in
  Forall sandboxed r.1.2
  /\ sandbox_mode (context r.2) = sandbox_mode (context g).
Proof.
  unfold within_sandbox.
  destruct (calls_in_sandbox cs [] (set_sandbox_mode true g) eq_refl (Forall_nil_2 _))
    as [_ Hv].
  by destruct (calls cs [] (set_sandbox_mode true g)) as [[res verdicts] g1].
Qed.

End Validation.

(** A blacklist rule for system commands, as the constructor registers it
    (the pattern is the escaped alternation of the configured commands). *)
Definition sys_cmd_blacklist : SecurityRule :=
  {| rule_id := "sys_cmd_blacklist"; rule_type := BLACKLIST; level := CRITICAL;
     pattern := Some "rm\ \-rf\ /|format|del\ /s\ /q";
     actions := [EXECUTE]; targets := []; conditions := [];
     message := "Dangerous system command detected" |}.

(** C5 on a run: sandbox mode on, an [EXECUTE] action, and a rule whose
    check would raise if it were evaluated. *)
Lemma sandbox_rejects_privileged_actions_witness :
  let g := new_guardian default_config [sys_cmd_blacklist] in
  let a := {| id := "a1"; type := EXECUTE; target := None;
              value := PyStr "rm -rf /"; metadata := [] |} in
  let raising := fun _ _ : string => @Raise bool (OtherError "re.error") in
  sandbox_mode (context g) = true
  /\ type a ∈ [EXECUTE; GITHUB]
  /\ (validate_action (fun _ => "") raising (fun _ _ => Ok false) (fun _ _ => Ok false)
        a 0 g).1
     = Ok (false, Some "Action not allowed in sandbox mode").
Proof.
  intros g a raising.
  assert (sandbox_mode (context g) = true) as Hsb by reflexivity.
  assert (type a ∈ [EXECUTE; GITHUB]) as Hty by (simpl; left).
  split; [done|]. split; [done|].
  by rewrite (sandbox_rejects_privileged_actions (fun _ => "") raising
                (fun _ _ => Ok false) (fun _ _ => Ok false) a 0 g Hsb Hty).
Defined.

(** C8.  A guardian built with the default configuration (sandbox mode on)
    validates an [EXECUTE] action: the call is rejected with the sandbox
    reason, and the audit trail it leaves is the single [validation_started]
    entry written before the decision.  No entry records the rejection:
    nothing on record, in memory or on file, has another event, whereas a
    rule violation, a denial and a pass each append an entry of their own
    ([every_call_is_audited]). *)
Theorem sandbox_rejection_leaves_no_outcome_entry :
  let g := new_guardian default_config [sys_cmd_blacklist] in
  let a := {| id := "a1"; type := EXECUTE; target := None;
              value := PyStr "rm -rf /"; metadata := [] |} in
  forall (py_str : PyValue -> string) (re_search : string -> string -> outcome bool)
         (py_gt py_in : PyValue -> PyValue -> outcome bool) (now : Z),
  let r := validate_action py_str re_search py_gt py_in a now g in
  r.1 = Ok (false, Some "Action not allowed in sandbox mode")
  /\ audit_log (context r.2) = [log_entry (Some a) "validation_started" None now g]
  /\ audit_files r.2 = ∅
  /\ (forall e, recorded e r.2 -> entry_event e = "validation_started")
  /\ ~ (exists e, recorded e r.2
          /\ entry_event e ∈ ["validation_failed"; "user_denied"; "validation_passed"]).
Proof.
  intros g a py_str re_search py_gt py_in now r.
  assert (r = (Ok (false, Some "Action not allowed in sandbox mode"),
               _audit_log (Some a) "validation_started" None now g)) as Hr by reflexivity.
  assert (audit_log (context r.2) = [log_entry (Some a) "validation_started" None now g]
          /\ audit_files r.2 = ∅) as [Hlog Hfiles] by (by rewrite Hr).
  assert (forall e, recorded e r.2 -> entry_event e = "validation_started") as Honly.
  { intros e [He|(t & es & Ht & _)].
    - rewrite Hlog in He. apply list_elem_of_singleton in He. by rewrite He.
    - by rewrite Hfiles, lookup_empty in Ht. }
  split; [by rewrite Hr|]. split; [done|]. split; [done|]. split; [done|].
  intros (e & He & Hev). rewrite (Honly e He) in Hev.
  repeat (apply elem_of_cons in Hev as [Hev|Hev]; [discriminate|]).
  by apply elem_of_nil in Hev.
Qed.

(** *** Flushes of the audit log *)

(** Events logged one after the other at one clock reading, each with its
    action and details. *)
Definition log_all (events : list (option Action * string * option (list (string * PyValue))))
  (now : Z) (g : SecurityGuardian) : SecurityGuardian :=
  fold_left (fun acc ev => _audit_log ev.1.1 ev.1.2 ev.2 now acc) events g.

Lemma log_all_snoc events ev now g :
  log_all (events ++ [ev]) now g = _audit_log ev.1.1 ev.1.2 ev.2 now (log_all events now g).
Proof. unfold log_all. by rewrite fold_left_app. Qed.

Lemma log_all_app e1 e2 now g : log_all (e1 ++ e2) now g = log_all e2 now (log_all e1 now g).
Proof. unfold log_all. by rewrite fold_left_app. Qed.

Lemma log_all_context events now g :
  sandbox_mode (context (log_all events now g)) = sandbox_mode (context g)
  /\ session_id (context (log_all events now g)) = session_id (context g).
Proof.
  induction events as [|ev events IH] using rev_ind; [done|].
  rewrite log_all_snoc.
  destruct (_audit_log_context ev.1.1 ev.1.2 ev.2 now (log_all events now g)) as (-> & -> & _).
  exact IH.
Qed.

(** Below a hundred entries nothing is written out. *)
Lemma log_all_fill events now g :
  (length (audit_log (context g)) + length events < 100)%nat ->
  audit_log (context (log_all events now g))
  = audit_log (context g) ++ ((fun ev => log_entry ev.1.1 ev.1.2 ev.2 now g) <$> events)
  /\ audit_files (log_all events now g) = audit_files g.
Proof.
  induction events as [|ev events IH] using rev_ind; intros Hlen.
  - simpl. by rewrite app_nil_r.
  - rewrite length_app in Hlen. simpl in Hlen. destruct IH as [IHl IHf]; [lia|].
    rewrite log_all_snoc.
    pose proof (_audit_log_step ev.1.1 ev.1.2 ev.2 now (log_all events now g)) as Hs.
    simpl in Hs. rewrite IHl, length_app, length_fmap in Hs.
    destruct (decide _) as [Heq|_]; [lia|]. destruct Hs as [-> ->]; [lia|].
    destruct (log_all_context events now g) as [Hsb Hsid].
    rewrite (log_entry_context _ _ _ _ g _ Hsb Hsid).
    split; [|done]. by rewrite fmap_app, app_assoc.
Qed.

(** A hundred entries logged into an empty log at one clock reading are
    written to that second's file, and the log is empty again. *)
Lemma log_all_flush events now g :
  audit_log (context g) = [] -> length events = 100%nat ->
  audit_log (context (log_all events now g)) = []
  /\ audit_files (log_all events now g)
     = <[now := (fun ev => log_entry ev.1.1 ev.1.2 ev.2 now g) <$> events]> (audit_files g).
Proof.
  intros Hempty Hlen.
  destruct events as [|ev events _] using rev_ind; [done|].
  rewrite length_app in Hlen. simpl in Hlen.
  destruct (log_all_fill events now g) as [Hl Hf]; [rewrite Hempty; simpl; lia|].
  rewrite Hempty in Hl. simpl in Hl.
  rewrite log_all_snoc.
  pose proof (_audit_log_step ev.1.1 ev.1.2 ev.2 now (log_all events now g)) as Hs.
  simpl in Hs. rewrite Hl, length_fmap in Hs.
  destruct (decide _) as [_|Hne]; [|lia]. destruct Hs as [-> ->]; [lia|].
  destruct (log_all_context events now g) as [Hsb Hsid].
  rewrite (log_entry_context _ _ _ _ g _ Hsb Hsid).
  split; [done|]. by rewrite Hf, fmap_app.
Qed.

(** The audit file is named after the second it is written in, so a second
    flush within the same second replaces the first: of two hundred entries
    logged into an empty log at one clock reading, the file holds the last
    hundred, the log is empty, and the first hundred are in neither. *)
Theorem same_second_flush_replaces_file
  (first second : list (option Action * string * option (list (string * PyValue))))
  (now : Z) (g : SecurityGuardian) :
  audit_log (context g) = [] ->
  length first = 100%nat -> length second = 100%nat ->
  let g' := log_all (first ++ second) now g in
  audit_log (context g') = []
  /\ audit_files g'
     = <[now := (fun ev => log_entry ev.1.1 ev.1.2 ev.2 now g) <$> second]> (audit_files g).
Proof.
  intros Hempty H1 H2 g'. unfold g'. rewrite log_all_app.
  destruct (log_all_flush first now g Hempty H1) as [Hl1 Hf1].
  destruct (log_all_flush second now (log_all first now g) Hl1 H2) as [Hl2 Hf2].
  split; [done|]. rewrite Hf2, Hf1, insert_insert_eq. f_equal.
  apply list_fmap_ext. intros i ev _.
  destruct (log_all_context first now g) as [Hsb Hsid].
  by apply log_entry_context.
Qed.

(** A hundred grants and a hundred revocations of one permission, all
    within second 7: the file of that second holds the revocations only. *)
Lemma same_second_flush_replaces_file_witness :
  let grants := replicate 100 (None, "permission_granted",
                               Some [("permission", PyStr "admin")]) in
  let revocations := replicate 100 (None, "permission_revoked",
                                    Some [("permission", PyStr "admin")]) in
  let g := new_guardian default_config [] in
  let g' := log_all (grants ++ revocations) 7 g in
  audit_log (context g) = []
  /\ length grants = 100%nat /\ length revocations = 100%nat
  /\ audit_log (context g') = []
  /\ audit_files g'
     = <[7 := (fun ev => log_entry ev.1.1 ev.1.2 ev.2 7 g) <$> revocations]> ∅.
Proof.
  intros grants revocations g g'.
  assert (audit_log (context g) = []) as Hempty by reflexivity.
  assert (length grants = 100%nat) as H1 by reflexivity.
  assert (length revocations = 100%nat) as H2 by reflexivity.
  split; [exact Hempty|]. split; [exact H1|]. split; [exact H2|].
  exact (same_second_flush_replaces_file grants revocations 7 g Hempty H1 H2).
Defined.

(** A guardian outside sandbox mode with a whitelist rule, the command
    blacklist and a rule whose pattern is no regular expression. *)
Definition allow_clicks : SecurityRule :=
  {| rule_id := "allow_clicks"; rule_type := WHITELIST; level := LOW;
     pattern := None; actions := [CLICK]; targets := []; conditions := [];
     message := "Only clicks are allowed" |}.

Definition broken_pattern : SecurityRule :=
  {| rule_id := "broken"; rule_type := PATTERN; level := HIGH;
     pattern := Some "("; actions := []; targets := []; conditions := [];
     message := "Broken" |}.

(** [re.search] of this small world: the pattern ["("] does not compile,
    the command blacklist matches the text ["rm -rf /"], nothing else
    matches. *)
Definition search (pat text : string) : outcome bool :=
  if String.eqb pat "(" then Raise (OtherError "re.error")
  else Ok (String.eqb pat (default "" (pattern sys_cmd_blacklist))
           && String.eqb text "rm -rf /").

(** [str] of this small world: a string is itself. *)
Definition show (v : PyValue) : string :=
  match v with PyStr s => s | _ => "" end.

Definition open_guardian : SecurityGuardian :=
  set_sandbox_mode false
    (new_guardian default_config [allow_clicks; sys_cmd_blacklist; broken_pattern]).

Definition rm_rf : Action :=
  {| id := "a1"; type := EXECUTE; target := None; value := PyStr "rm -rf /";
     metadata := [] |}.

(** The blacklist rejects the command; the whitelist before it lets it
    pass, and the broken rule after it is never compiled. *)
Lemma first_violated_rule_decides_witness :
  let validate := validate_action show search (fun _ _ => Ok false) (fun _ _ => Ok false) in
  let check := _check_rule show search (fun _ _ => Ok false) (fun _ _ => Ok false) in
  sandbox_mode (context open_guardian) && bool_decide (type rm_rf ∈ [EXECUTE; GITHUB]) = false
  /\ rules open_guardian = [allow_clicks] ++ sys_cmd_blacklist :: [broken_pattern]
  /\ Forall (fun r => check rm_rf r = Ok None) [allow_clicks]
  /\ check rm_rf sys_cmd_blacklist = Ok (Some "Blacklisted pattern matched")
  /\ (validate rm_rf 5 open_guardian).1
     = Ok (false, Some "Dangerous system command detected: Blacklisted pattern matched").
Proof.
  intros validate check.
  assert (sandbox_mode (context open_guardian)
          && bool_decide (type rm_rf ∈ [EXECUTE; GITHUB]) = false) as Hsand by reflexivity.
  assert (rules open_guardian = [allow_clicks] ++ sys_cmd_blacklist :: [broken_pattern])
    as Hrules by reflexivity.
  assert (Forall (fun r => check rm_rf r = Ok None) [allow_clicks]) as Hpre
    by (by repeat constructor).
  assert (check rm_rf sys_cmd_blacklist = Ok (Some "Blacklisted pattern matched")) as Hrule
    by reflexivity.
  repeat (split; [done|]).
  unfold validate.
  by rewrite (first_violated_rule_decides show search (fun _ _ => Ok false)
                (fun _ _ => Ok false) rm_rf 5 open_guardian [allow_clicks] sys_cmd_blacklist
                [broken_pattern] "Blacklisted pattern matched" Hsand Hrules Hpre Hrule).
Defined.

(** The whitelist rule lists clicks only, and a click-free action passes
    all the same. *)
Lemma whitelist_rule_has_no_effect_witness :
  let validate := validate_action show search (fun _ _ => Ok false) (fun _ _ => Ok false) in
  let g := set_sandbox_mode false (new_guardian default_config []) in
  let a := {| id := "a2"; type := SCROLL; target := None; value := PyNone;
              metadata := [] |} in
  rule_type allow_clicks = WHITELIST
  /\ (validate a 5 g).1 = Ok (true, None)
  /\ (validate a 5 (add_rule allow_clicks g)).1 = Ok (true, None).
Proof.
  intros validate g a.
  assert (rule_type allow_clicks = WHITELIST) as Hty by reflexivity.
  split; [done|]. split; [reflexivity|].
  unfold validate.
  by rewrite (whitelist_rule_has_no_effect show search (fun _ _ => Ok false)
                (fun _ _ => Ok false) allow_clicks a 5 g Hty).
Defined.

(** A file deletion is denied in sandbox mode; 299 seconds later, sandbox
    mode switched off, the same request is still denied. *)
Lemma cached_decision_outlives_sandbox_mode_witness :
  let g := new_guardian default_config [] in
  let a := {| id := "a3"; type := TYPE; target := Some (TargetStr "notes.txt");
              value := PyNone; metadata := [("file_operation", PyStr "delete")] |} in
  let g2 := set_sandbox_mode false (request_permission show a 0 g).2 in
  (forall r t, _confirmation_cache g !! confirmation_key show a = Some (r, t) ->
               300 <= 0 - t)
  /\ _confirmation_cache g2 = _confirmation_cache (request_permission show a 0 g).2
  /\ sandbox_mode (context g) = true /\ sandbox_mode (context g2) = false
  /\ (request_permission show a 0 g).1 = false
  /\ (request_permission show a 299 g2).1 = false.
Proof.
  intros g a g2.
  assert (forall r t, _confirmation_cache g !! confirmation_key show a = Some (r, t) ->
                      300 <= 0 - t) as Hstale by (intros r t Hc; discriminate Hc).
  assert (_confirmation_cache g2 = _confirmation_cache (request_permission show a 0 g).2)
    as Hcache by reflexivity.
  split; [done|]. split; [done|]. split; [reflexivity|]. split; [reflexivity|].
  exact (cached_decision_outlives_sandbox_mode show a 0 299 g g2 Hstale Hcache).
Defined.

(** The audit theorem on a run: the log holds 99 entries, sandbox mode is
    off, a click passes validation.  The entry of the call makes 100: the log
    is written out and cleared, and the outcome entry starts the new log. *)
Lemma every_call_is_audited_on_a_run :
  let old := {| entry_timestamp := 0; entry_event := "validation_passed";
                entry_session_id := ""; entry_sandbox_mode := false;
                entry_action := None; entry_details := None |} in
  let g := {| config := default_config; rules := [sys_cmd_blacklist];
              context := {| sandbox_mode := false; user_permissions := ∅;
                            session_id := ""; audit_log := replicate 99 old |};
              _confirmation_cache := ∅; audit_files := ∅ |} in
  let a := {| id := "a2"; type := CLICK; target := Some (Coordinate 10 20);
              value := PyNone; metadata := [] |} in
  let r := validate_action (fun _ => "") (fun _ _ => Ok false) (fun _ _ => Ok false)
             (fun _ _ => Ok false) a 7 g in
  (length (audit_log (context g)) < 100)%nat
  /\ r.1 = Ok (true, None)
  /\ recorded (log_entry (Some a) "validation_started" None 7 g) r.2
  /\ recorded (log_entry (Some a) "validation_passed" None 7 g) r.2
  /\ length (audit_log (context r.2)) = 1%nat
  /\ (length <$> (audit_files r.2 !! 7)) = Some 100%nat.
Proof.
  intros old g a r.
  assert (length (audit_log (context g)) < 100)%nat as Hlen by (simpl; lia).
  destruct (every_call_is_audited (fun _ => "") (fun _ _ => Ok false)
              (fun _ _ => Ok false) (fun _ _ => Ok false) a 7 g Hlen)
    as ((Hstarted & _) & Hpassed & _).
  assert (r.1 = Ok (true, None)) as Hr by reflexivity.
  split; [done|]. split; [done|]. split; [done|]. split; [by apply Hpassed|].
  split; reflexivity.
Defined.

End Guardian.

(** ** [operate/core/orchestrator.py] *)

Module Orchestrator.

Import Py Interfaces.

(** What the orchestrator does to its collaborators, in order.  The model
    keeps this record beside the orchestrator's own state; [EvRetry] carries
    the retry count after the increment, whose power of two is the backoff
    slept. *)
Inductive Event : Type :=
| EvValidate (op : string)
| EvPreValidation (op : string)
| EvCheckpoint (op : string)
| EvExecute (op : string)
| EvPostValidation (op : string)
| EvRetry (op : string) (retry_count : Z)
| EvRollback (op : string)
| EvRestore (op : string) (checkpoint : string).

Definition event_operation (ev : Event) : string :=
  match ev with
  | EvValidate op | EvPreValidation op | EvCheckpoint op | EvExecute op
  | EvPostValidation op | EvRetry op _ | EvRollback op | EvRestore op _ => op
  end.

Definition is_execute (ev : Event) : bool :=
  match ev with EvExecute _ => true | _ => false end.

Definition is_retry (ev : Event) : bool :=
  match ev with EvRetry _ _ => true | _ => false end.

(** The retry counts recorded, and the operations handed to the executor. *)
Fixpoint retry_counts (evs : list Event) : list Z :=
  match evs with
  | [] => []
  | EvRetry _ n :: rest => n :: retry_counts rest
  | _ :: rest => retry_counts rest
  end.

Fixpoint executions (evs : list Event) : list string :=
  match evs with
  | [] => []
  | EvExecute op :: rest => op :: executions rest
  | _ :: rest => executions rest
  end.

Lemma retry_counts_app e1 e2 : retry_counts (e1 ++ e2) = retry_counts e1 ++ retry_counts e2.
Proof. induction e1 as [|[] e1 IH]; simpl; by rewrite ?IH. Qed.

Lemma executions_app e1 e2 : executions (e1 ++ e2) = executions e1 ++ executions e2.
Proof. induction e1 as [|[] e1 IH]; simpl; by rewrite ?IH. Qed.

Lemma retry_counts_none evs :
  Forall (fun ev => is_retry ev = false) evs -> retry_counts evs = [].
Proof. induction 1 as [|[] evs Hx Hf IH]; simpl in *; by try done. Qed.

Lemma executions_none evs :
  Forall (fun ev => is_execute ev = false) evs -> executions evs = [].
Proof. induction 1 as [|[] evs Hx Hf IH]; simpl in *; by try done. Qed.

Lemma executions_elem i evs : i ∈ executions evs <-> EvExecute i ∈ evs.
Proof.
  induction evs as [|ev evs IH]; simpl.
  - split; intros Hin; by apply not_elem_of_nil in Hin.
  - destruct ev; rewrite ?elem_of_cons, IH;
      try (split; [intros ?; by right | intros [?|?]; [discriminate | done]]).
    split; [intros [->|?]; [by left | by right] | intros [[= ->]|?]; [by left | by right]].
Qed.

(** A learned pattern. *)
Record Pattern : Type := mkPattern {
  pattern_action_type : ActionType;
  pattern_metadata : list (string * PyValue);
  pattern_duration : option Z;
  pattern_timestamp : Z
}.

(** The collaborators injected into the orchestrator and the clock, over
    the state [Env] they share: [security_validator.validate_action],
    [state_manager.create_checkpoint], [.restore_checkpoint] and
    [.save_state], [action_interface.execute_action], [datetime.utcnow] and
    [asyncio.sleep(2 ** n)].  A call may change the state and may raise. *)
Class Collaborators (Env : Type) : Type := {
  utcnow : Env -> Z;
  sleep_pow2 : Z -> Env -> Env;
  validate_action : Action -> Env -> outcome (bool * option string) * Env;
  create_checkpoint : Env -> outcome string * Env;
  restore_checkpoint : string -> Env -> outcome unit * Env;
  save_state : string -> list Pattern -> Env -> outcome unit * Env;
  execute_action : Action -> Env -> outcome OperationResult * Env
}.

(** [ExecutionContext]; the operation is kept by its id. *)
Inductive ExecutionContext : Type :=
| mkExecutionContext (operation : string) (start_time : Z)
    (checkpoint_id : option string) (parent_context : option ExecutionContext).

Definition start_time (c : ExecutionContext) : Z :=
  match c with mkExecutionContext _ t _ _ => t end.
Definition checkpoint_id (c : ExecutionContext) : option string :=
  match c with mkExecutionContext _ _ cp _ => cp end.
Definition parent_context (c : ExecutionContext) : option ExecutionContext :=
  match c with mkExecutionContext _ _ _ p => p end.
Definition with_checkpoint (c : ExecutionContext) (cp : string) : ExecutionContext :=
  match c with mkExecutionContext op t _ p => mkExecutionContext op t (Some cp) p end.

Section Engine.
Context {Env : Type} `{Collaborators Env}.

(** [Operation].  The hooks are callables of the caller: they act on the
    shared state and may raise; the value a validation hook returns is read
    as a truth value. *)
Record Operation : Type := mkOperation {
  id : string;
  action : Action;
  pre_validation : option (Env -> outcome bool * Env);
  post_validation : option (OperationResult -> Env -> outcome bool * Env);
  rollback : option (Env -> outcome unit * Env);
  dependencies : gset string;
  metadata : list (string * PyValue);
  retry_count : Z;
  max_retries : Z;
  timeout : option Z
}.

Definition set_retry_count (op : Operation) (n : Z) : Operation :=
  {| id := id op; action := action op; pre_validation := pre_validation op;
     post_validation := post_validation op; rollback := rollback op;
     dependencies := dependencies op; metadata := metadata op;
     retry_count := n; max_retries := max_retries op; timeout := timeout op |}.

(** [OperationOrchestrator]: the collaborators' state, the configuration,
    the registries, and the record of events. *)
Record OperationOrchestrator : Type := mkOperationOrchestrator {
  env : Env;
  max_parallel : Z;
  enable_learning : bool;
  executing : gmap string ExecutionContext;
  patterns : list Pattern;
  trace : list Event
}.

(** [OperationOrchestrator.__init__] *)
Definition new_orchestrator (e : Env) (max_parallel : Z) (enable_learning : bool)
  : OperationOrchestrator :=
  {| env := e; max_parallel := max_parallel; enable_learning := enable_learning;
     executing := ∅; patterns := []; trace := [] |}.

Definition with_env (o : OperationOrchestrator) (e : Env) : OperationOrchestrator :=
  {| env := e; max_parallel := max_parallel o; enable_learning := enable_learning o;
     executing := executing o; patterns := patterns o; trace := trace o |}.

Definition with_executing (o : OperationOrchestrator) (x : gmap string ExecutionContext)
  : OperationOrchestrator :=
  {| env := env o; max_parallel := max_parallel o; enable_learning := enable_learning o;
     executing := x; patterns := patterns o; trace := trace o |}.

Definition with_patterns (o : OperationOrchestrator) (ps : list Pattern)
  : OperationOrchestrator :=
  {| env := env o; max_parallel := max_parallel o; enable_learning := enable_learning o;
     executing := executing o; patterns := ps; trace := trace o |}.

Definition record_event (ev : Event) (o : OperationOrchestrator) : OperationOrchestrator :=
  {| env := env o; max_parallel := max_parallel o; enable_learning := enable_learning o;
     executing := executing o; patterns := patterns o; trace := trace o ++ [ev] |}.

(** How the [try] block of [execute_operation] ends: with a [return], or in
    one of the [except] clauses. *)
Inductive Attempt : Type :=
| Returned (r : OperationResult)
| Failed (error : PyError).

(** A result built by the orchestrator, stamped by [__post_init__]. *)
Definition make_result (op : Operation) (st : OperationStatus) (error : PyError)
  (o : OperationOrchestrator) : OperationResult :=
  {| operation_id := id op; status := st; result := PyNone; error := Some error;
     timestamp := utcnow (env o); duration := None |}.

(** [OperationOrchestrator._learn_from_execution] *)
Definition _learn_from_execution (op : Operation) (r : OperationResult)
  (o : OperationOrchestrator) : outcome unit * OperationOrchestrator :=
  let pattern := {| pattern_action_type := type (action op);
                    pattern_metadata := Interfaces.metadata (action op);
                    pattern_duration := duration r;
                    pattern_timestamp := timestamp r |} in
  let o1 := with_patterns o (patterns o ++ [pattern]) in
  if Z.of_nat (length (patterns o1)) mod 10 =? 0 then
    let '(res, e) := save_state "execution_patterns" (patterns o1) (env o1) in
    (res, with_env o1 e)
  else (Ok tt, o1).

(** [OperationOrchestrator._execute_action] *)
Definition _execute_action (op : Operation) (context : ExecutionContext)
  (o : OperationOrchestrator) : outcome OperationResult * OperationOrchestrator :=
  let o1 := with_executing o (<[id op := context]> (executing o)) in
  let o2 := record_event (EvExecute (id op)) o1 in
  let '(res, e) := execute_action (action op) (env o2) in
  let o3 := with_executing (with_env o2 e) (delete (id op) (executing o2)) in
  match res with
  | Ok r =>
      (Ok {| operation_id := operation_id r; status := status r; result := result r;
             error := error r; timestamp := timestamp r;
             duration := Some (utcnow e - start_time context) |}, o3)
  | Raise err => (Raise err, o3)
  end.

(** [if operation.timeout:] *)
Definition timeout_set (op : Operation) : option Z :=
  match timeout op with
  | Some t => if t =? 0 then None else Some t
  | None => None
  end.

(** The call of [_execute_action], under [asyncio.wait_for] when a timeout
    is set: the call is cut off with [asyncio.TimeoutError] when the clock
    has moved by more than the timeout. *)
Definition execute_with_timeout (op : Operation) (context : ExecutionContext)
  (o : OperationOrchestrator) : outcome OperationResult * OperationOrchestrator :=
  let t0 := utcnow (env o) in
  let '(res, o1) := _execute_action op context o in
  match timeout_set op with
  | Some t => if t <? utcnow (env o1) - t0 then (Raise AsyncioTimeoutError, o1) else (res, o1)
  | None => (res, o1)
  end.

(** The end of the [try] block: post-validation, learning, [return]. *)
Definition after_execution (op : Operation) (context : ExecutionContext)
  (r : OperationResult) (o : OperationOrchestrator)
  : Attempt * ExecutionContext * OperationOrchestrator :=
  let learn o' :=
    if enable_learning o' && bool_decide (status r = SUCCESS) then
      match _learn_from_execution op r o' with
      | (Ok _, o'') => (Returned r, context, o'')
      | (Raise e, o'') => (Failed e, context, o'')
      end
    else (Returned r, context, o') in
  match post_validation op with
  | Some hook =>
      let o1 := record_event (EvPostValidation (id op)) o in
      match hook r (env o1) with
      | (Raise e, e1) => (Failed e, context, with_env o1 e1)
      | (Ok false, e1) =>
          (Failed (RuntimeError ("Post-validation failed for operation " ++ id op)),
           context, with_env o1 e1)
      | (Ok true, e1) => learn (with_env o1 e1)
      end
  | None => learn o
  end.

(** The checkpoint and the execution. *)
Definition after_pre_validation (op : Operation) (context : ExecutionContext)
  (o : OperationOrchestrator) : Attempt * ExecutionContext * OperationOrchestrator :=
  let run context' o' :=
    match execute_with_timeout op context' o' with
    | (Ok r, o'') => after_execution op context' r o''
    | (Raise e, o'') => (Failed e, context', o'')
    end in
  match rollback op with
  | Some _ =>
      let o1 := record_event (EvCheckpoint (id op)) o in
      match create_checkpoint (env o1) with
      | (Raise e, e1) => (Failed e, context, with_env o1 e1)
      | (Ok cp, e1) => run (with_checkpoint context cp) (with_env o1 e1)
      end
  | None => run context o
  end.

(** The [try] block of [execute_operation], from the top. *)
Definition attempt (op : Operation) (parent : option ExecutionContext)
  (o : OperationOrchestrator) : Attempt * ExecutionContext * OperationOrchestrator :=
  let context := mkExecutionContext (id op) (utcnow (env o)) None parent in
  let o0 := record_event (EvValidate (id op)) o in
  match validate_action (action op) (env o0) with
  | (Raise e, e1) => (Failed e, context, with_env o0 e1)
  | (Ok (false, reason), e1) =>
      let o1 := with_env o0 e1 in
      (Returned (make_result op FAILED
                   (PermissionError (match reason with Some r => r | None => "None" end)) o1),
       context, o1)
  | (Ok (true, _), e1) =>
      let o1 := with_env o0 e1 in
      match pre_validation op with
      | Some hook =>
          let o2 := record_event (EvPreValidation (id op)) o1 in
          match hook (env o2) with
          | (Raise e, e2) => (Failed e, context, with_env o2 e2)
          | (Ok false, e2) =>
              (Failed (ValueError ("Pre-validation failed for operation " ++ id op)),
               context, with_env o2 e2)
          | (Ok true, e2) => after_pre_validation op context (with_env o2 e2)
          end
      | None => after_pre_validation op context o1
      end
  end.

(** The error an [except] clause hands to [_handle_failure]. *)
Definition caught (e : PyError) : PyError :=
  match e with
  | AsyncioTimeoutError => TimeoutError "Operation timed out"
  | _ => e
  end.

(** [if operation.rollback and context.checkpoint_id:] *)
Definition rollback_ready (op : Operation) (context : ExecutionContext)
  : option ((Env -> outcome unit * Env) * string) :=
  match rollback op, checkpoint_id context with
  | Some hook, Some cp => if String.eqb cp "" then None else Some (hook, cp)
  | _, _ => None
  end.

(** The part of [_handle_failure] after the retries: rollback, or the
    [FAILED] result. *)
Definition roll_back_or_fail (op : Operation) (context : ExecutionContext)
  (error : PyError) (o : OperationOrchestrator) : OperationResult * OperationOrchestrator :=
  match rollback_ready op context with
  | Some (hook, cp) =>
      let o1 := record_event (EvRollback (id op)) o in
      match hook (env o1) with
      | (Raise _, e1) => let o2 := with_env o1 e1 in (make_result op FAILED error o2, o2)
      | (Ok _, e1) =>
          let o2 := record_event (EvRestore (id op) cp) (with_env o1 e1) in
          match restore_checkpoint cp (env o2) with
          | (Raise _, e2) => let o3 := with_env o2 e2 in (make_result op FAILED error o3, o3)
          | (Ok _, e2) => let o3 := with_env o2 e2 in (make_result op ROLLED_BACK error o3, o3)
          end
      end
  | None => (make_result op FAILED error o, o)
  end.

(** [OperationOrchestrator._handle_failure]; [retry] is the call back into
    [execute_operation]. *)
Definition _handle_failure
  (retry : Operation -> option ExecutionContext -> OperationOrchestrator
           -> option (OperationResult * Operation * OperationOrchestrator))
  (op : Operation) (context : ExecutionContext) (error : PyError)
  (o : OperationOrchestrator)
  : option (OperationResult * Operation * OperationOrchestrator) :=
  if retry_count op <? max_retries op then
    let op' := set_retry_count op (retry_count op + 1) in
    let o1 := record_event (EvRetry (id op) (retry_count op')) o in
    let o2 := with_env o1 (sleep_pow2 (retry_count op') (env o1)) in
    retry op' (parent_context context) o2
  else
    let '(r, o1) := roll_back_or_fail op context error o in
    Some (r, op, o1).

(** [OperationOrchestrator.execute_operation], with a bound on the retries
    still to run: [None] when the bound is hit. *)
Fixpoint execute_operation_fuel (fuel : nat) (op : Operation)
  (parent : option ExecutionContext) (o : OperationOrchestrator)
  : option (OperationResult * Operation * OperationOrchestrator) :=
  match attempt op parent o with
  | (Returned r, _, o1) => Some (r, op, o1)
  | (Failed e, context, o1) =>
      _handle_failure
        (match fuel with
         | O => fun _ _ _ => None
         | S fuel' => execute_operation_fuel fuel'
         end)
        op context (caught e) o1
  end.

(** [OperationOrchestrator.execute_operation]: the result, the operation
    with the retry count the call leaves it with, and the orchestrator
    afterwards. *)
Definition execute_operation (op : Operation) (parent : option ExecutionContext)
  (o : OperationOrchestrator)
  : option (OperationResult * Operation * OperationOrchestrator) :=
  execute_operation_fuel (Z.to_nat (max_retries op - retry_count op)) op parent o.

(** [not operation.metadata.get("continue_on_failure")] *)
Definition stops_on_failure (op : Operation) : bool :=
  negb (truthy (dict_get "continue_on_failure" (metadata op))).

(** The [break] condition of [execute_sequence]:
    [result.status == OperationStatus.FAILED and not
    operation.metadata.get("continue_on_failure")]. *)
Definition stops_sequence (operation : Operation) (r : OperationResult) : bool :=
  bool_decide (status r = FAILED) && stops_on_failure operation.

(** [OperationOrchestrator.execute_sequence]: the results, the operations
    as the call leaves them, and the orchestrator afterwards.  The [for]
    loop with its [break] is the recursion on the list. *)
Fixpoint execute_sequence (operations : list Operation) (o : OperationOrchestrator)
  : option (list OperationResult * list Operation * OperationOrchestrator) :=
  match operations with
  | [] => Some ([], [], o)
  | operation :: rest =>
      match execute_operation operation None o with
      | None => None
      | Some (r, operation', o1) =>
          if stops_sequence operation r
          then Some ([r], operation' :: rest, o1)
          else
            match execute_sequence rest o1 with
            | None => None
            | Some (rs, rest', o2) => Some (r :: rs, operation' :: rest', o2)
            end
      end
  end.

(** [l[:n]] *)
Definition slice_to {A : Type} (n : Z) (l : list A) : list A :=
  if 0 <=? n then take (Z.to_nat n) l
  else take (length l - Z.to_nat (- n)) l.

Definition unhashable : PyError := TypeError "unhashable type: 'Operation'".

(** [hash(op)], which a dict takes of a key.  [Operation] is declared with
    a plain [@dataclass]: the decorator defines [__eq__] and, [frozen] and
    [unsafe_hash] being left false, sets [__hash__] to [None].  The module
    defines no [__hash__] for the class and no subclass of it, so hashing
    an operation raises. *)
Definition hash_operation (op : Operation) : outcome Z := Raise unhashable.

(** [OperationOrchestrator._build_dependency_graph].  [op_map] is keyed by
    the ids and is not used.  The dict returned is keyed by the operations
    themselves, so the comprehension hashes each operation as it stores it
    with a copy of its dependency set; the entries are kept in insertion
    order. *)
Fixpoint _build_dependency_graph (operations : list Operation)
  : outcome (list (Operation * gset string)) :=
  match operations with
  | [] => Ok []
  | op :: rest =>
      match hash_operation op with
      | Raise e => Raise e
      | Ok _ =>
          match _build_dependency_graph rest with
          | Raise e => Raise e
          | Ok graph => Ok ((op, dependencies op) :: graph)
          end
      end
  end.

(** [[op for op in dependency_graph if not dependency_graph[op]]] *)
Definition ready (graph : list (Operation * gset string)) : list Operation :=
  (filter (fun kv => kv.2 = ∅) graph).*1.

(** [del dependency_graph[op]] for the first [n] ready operations. *)
Fixpoint drop_ready (n : nat) (graph : list (Operation * gset string))
  : list (Operation * gset string) :=
  match n, graph with
  | O, _ => graph
  | S _, [] => []
  | S n', (op, deps) :: rest =>
      if decide (deps = ∅) then drop_ready n' rest
      else (op, deps) :: drop_ready n rest
  end.

(** [dependency_graph[other_op].discard(op.id)] for every operation of the
    wave and every entry left. *)
Definition discard_wave (wave : list Operation) (graph : list (Operation * gset string))
  : list (Operation * gset string) :=
  map (fun kv => (kv.1, kv.2 ∖ list_to_set (id <$> wave))) graph.

(** [asyncio.gather] over the tasks of a wave.  The tasks are run one after
    the other, in the order of the wave: one of the schedules the event
    loop may choose. *)
Fixpoint gather (wave : list Operation) (o : OperationOrchestrator)
  : option (list OperationResult * OperationOrchestrator) :=
  match wave with
  | [] => Some ([], o)
  | op :: rest =>
      match execute_operation op None o with
      | None => None
      | Some (r, _, o1) =>
          match gather rest o1 with
          | None => None
          | Some (rs, o2) => Some (r :: rs, o2)
          end
      end
  end.

Definition circular_dependency : PyError :=
  RuntimeError "Circular dependency detected in operations".

(** The [while dependency_graph:] loop of [execute_parallel], at most
    [fuel] waves: [None] when the bound is hit. *)
Fixpoint run_waves (fuel : nat) (graph : list (Operation * gset string))
  (results : list OperationResult) (o : OperationOrchestrator)
  : option (outcome (list OperationResult) * OperationOrchestrator) :=
  match graph with
  | [] => Some (Ok results, o)
  | _ :: _ =>
      match ready graph with
      | [] => Some (Raise circular_dependency, o)
      | _ :: _ =>
          match fuel with
          | O => None
          | S fuel' =>
              let wave := slice_to (max_parallel o) (ready graph) in
              match gather wave o with
              | None => None
              | Some (wave_results, o1) =>
                  run_waves fuel'
                    (discard_wave wave (drop_ready (length wave) graph))
                    (results ++ wave_results) o1
              end
          end
      end
  end.

(** [OperationOrchestrator.execute_parallel].  Every wave that runs an
    operation shortens the graph, so as many waves as there are operations
    suffice; a wave that runs none (a [max_parallel] of 0) repeats for
    ever. *)
Definition execute_parallel (operations : list Operation) (o : OperationOrchestrator)
  : option (outcome (list OperationResult) * OperationOrchestrator) :=
  match _build_dependency_graph operations with
  | Raise e => Some (Raise e, o)
  | Ok dependency_graph => run_waves (length operations) dependency_graph [] o
  end.

(** *** What a call adds to the record of events *)

(** [o'] is [o] after some more events, each satisfying [P]; the
    configuration is the same. *)
Definition advances (P : Event -> Prop) (o o' : OperationOrchestrator) : Prop :=
  max_parallel o' = max_parallel o
  /\ exists evs, trace o' = trace o ++ evs /\ Forall P evs.

(** The events of one pass through the [try] block of operation [i]: its
    own, and no retry. *)
Definition attempt_event (i : string) (ev : Event) : Prop :=
  event_operation ev = i /\ is_retry ev = false.

Definition extends (i : string) (o o' : OperationOrchestrator) : Prop :=
  advances (attempt_event i) o o'.

Lemma advances_refl P o : advances P o o.
Proof. split; [done|]. exists []. by rewrite app_nil_r. Qed.

Lemma advances_trans P o1 o2 o3 : advances P o1 o2 -> advances P o2 o3 -> advances P o1 o3.
Proof.
  intros [Hp1 (e1 & Ht1 & Hf1)] [Hp2 (e2 & Ht2 & Hf2)]. split; [congruence|].
  exists (e1 ++ e2). rewrite Ht2, Ht1, app_assoc. split; [done|]. by apply Forall_app.
Qed.

Lemma advances_weaken (P Q : Event -> Prop) o o' :
  (forall ev, P ev -> Q ev) -> advances P o o' -> advances Q o o'.
Proof.
  intros HPQ [Hp (evs & Ht & Hf)]. split; [done|]. exists evs. split; [done|].
  eapply Forall_impl; eauto.
Qed.

Lemma advances_record P ev o o' :
  P ev -> advances P o o' -> advances P o (record_event ev o').
Proof.
  intros Hev Hext. eapply advances_trans; [exact Hext|].
  split; [done|]. exists [ev]. split; [done|]. by constructor.
Qed.

Lemma advances_with_env P o o' e : advances P o o' -> advances P o (with_env o' e).
Proof. intros [Hp Ht]. by split. Qed.

Lemma advances_with_executing P o o' x :
  advances P o o' -> advances P o (with_executing o' x).
Proof. intros [Hp Ht]. by split. Qed.

Lemma advances_with_patterns P o o' ps :
  advances P o o' -> advances P o (with_patterns o' ps).
Proof. intros [Hp Ht]. by split. Qed.

Lemma extends_refl i o : extends i o o.
Proof. apply advances_refl. Qed.

Ltac extends_tac :=
  unfold extends in *;
  repeat first
    [ assumption
    | apply advances_refl
    | apply advances_with_env
    | apply advances_with_executing
    | apply advances_with_patterns
    | apply advances_record; [by split|] ].

Lemma _learn_from_execution_extends op r o o0 :
  extends (id op) o0 o -> extends (id op) o0 (_learn_from_execution op r o).2.
Proof.
  intros Hext. unfold _learn_from_execution.
  destruct (_ =? 0); simpl; [|extends_tac].
  destruct (save_state _ _ _) as [res e]. simpl. extends_tac.
Qed.

Lemma _execute_action_extends op context o o0 :
  extends (id op) o0 o -> extends (id op) o0 (_execute_action op context o).2.
Proof.
  intros Hext. unfold _execute_action.
  destruct (execute_action _ _) as [[r|err] e]; simpl; extends_tac.
Qed.

Lemma execute_with_timeout_extends op context o o0 :
  extends (id op) o0 o -> extends (id op) o0 (execute_with_timeout op context o).2.
Proof.
  intros Hext. unfold execute_with_timeout.
  pose proof (_execute_action_extends op context o o0 Hext) as He.
  destruct (_execute_action op context o) as [res o1]. simpl in He.
  destruct (timeout_set op) as [t|]; [|done].
  by destruct (t <? _).
Qed.

Lemma after_execution_extends op context r o o0 :
  extends (id op) o0 o -> extends (id op) o0 (after_execution op context r o).2.
Proof.
  intros Hext. unfold after_execution.
  assert (forall o', extends (id op) o0 o' ->
            extends (id op) o0
              (if enable_learning o' && bool_decide (status r = SUCCESS)
               then match _learn_from_execution op r o' with
                    | (Ok _, o'') => (Returned r, context, o'')
                    | (Raise e, o'') => (Failed e, context, o'')
                    end
               else (Returned r, context, o')).2) as Hlearn.
  { intros o' Ho'. destruct (_ && _); [|done].
    pose proof (_learn_from_execution_extends op r o' o0 Ho') as Hl.
    by destruct (_learn_from_execution op r o') as [[?|?] ?]. }
  destruct (post_validation op) as [hook|]; [|by apply Hlearn].
  destruct (hook r _) as [[[|]|e] e1].
  - apply (Hlearn (with_env (record_event (EvPostValidation (id op)) o) e1)).
    extends_tac.
  - simpl. extends_tac.
  - simpl. extends_tac.
Qed.

Lemma after_pre_validation_extends op context o o0 :
  extends (id op) o0 o -> extends (id op) o0 (after_pre_validation op context o).2.
Proof.
  intros Hext. unfold after_pre_validation.
  assert (forall c o', extends (id op) o0 o' ->
            extends (id op) o0
              (match execute_with_timeout op c o' with
               | (Ok r, o'') => after_execution op c r o''
               | (Raise e, o'') => (Failed e, c, o'')
               end).2) as Hrun.
  { intros c o' Ho'.
    pose proof (execute_with_timeout_extends op c o' o0 Ho') as He.
    destruct (execute_with_timeout op c o') as [[r|e] o'']; simpl in *; [|done].
    by apply after_execution_extends. }
  destruct (rollback op); [|by apply Hrun].
  destruct (create_checkpoint _) as [[cp|e] e1]; [|simpl; extends_tac].
  apply (Hrun (with_checkpoint context cp)
              (with_env (record_event (EvCheckpoint (id op)) o) e1)).
  extends_tac.
Qed.

Lemma attempt_extends op parent o :
  extends (id op) o (attempt op parent o).2.
Proof.
  unfold attempt.
  destruct (validate_action _ _) as [[[[|] reason]|e] e1]; [|simpl; extends_tac..].
  destruct (pre_validation op) as [hook|].
  - destruct (hook _) as [[[|]|e] e2]; [|simpl; extends_tac..].
    apply after_pre_validation_extends. extends_tac.
  - apply after_pre_validation_extends. extends_tac.
Qed.

Lemma roll_back_or_fail_extends op context error o :
  extends (id op) o (roll_back_or_fail op context error o).2.
Proof.
  unfold roll_back_or_fail.
  destruct (rollback_ready op context) as [[hook cp]|]; simpl; [|extends_tac].
  destruct (hook _) as [[?|?] e1]; simpl; [|extends_tac].
  destruct (restore_checkpoint _ _) as [[?|?] e2]; simpl; extends_tac.
Qed.

(** The [try] block does not read the retry count. *)
Lemma attempt_set_retry_count op n parent o :
  attempt (set_retry_count op n) parent o = attempt op parent o.
Proof. reflexivity. Qed.

Lemma roll_back_or_fail_set_retry_count op n context error o :
  roll_back_or_fail (set_retry_count op n) context error o
  = roll_back_or_fail op context error o.
Proof. reflexivity. Qed.

(** *** Retries *)

Lemma execute_operation_fuel_unfold fuel op parent o :
  execute_operation_fuel fuel op parent o =
  match attempt op parent o with
  | (Returned r, _, o1) => Some (r, op, o1)
  | (Failed e, context, o1) =>
      _handle_failure
        (match fuel with
         | O => fun _ _ _ => None
         | S fuel' => execute_operation_fuel fuel'
         end)
        op context (caught e) o1
  end.
Proof. by destruct fuel. Qed.

Lemma set_retry_count_same op : set_retry_count op (retry_count op) = op.
Proof. by destruct op. Qed.

(** The events of a whole call for operation [i]. *)
Definition operation_event (i : string) (ev : Event) : Prop := event_operation ev = i.

(** [execute_operation] returns, whatever the collaborators do: the fuel it
    is given covers the retries left.  The operation comes back with a retry
    count that has not decreased and is at most [max_retries] (or what it
    was, if that was more); the events added are the operation's own. *)
Lemma execute_operation_fuel_returns fuel op parent o :
  (Z.to_nat (max_retries op - retry_count op) <= fuel)%nat ->
  exists r n o',
    execute_operation_fuel fuel op parent o = Some (r, set_retry_count op n, o')
    /\ retry_count op <= n <= Z.max (retry_count op) (max_retries op)
    /\ advances (operation_event (id op)) o o'.
Proof.
  revert op parent o. induction fuel as [|fuel IH]; intros op parent o Hfuel;
    rewrite execute_operation_fuel_unfold;
    pose proof (attempt_extends op parent o) as Hatt;
    destruct (attempt op parent o) as [[[r|e] context] o1]; simpl in Hatt;
    apply (advances_weaken _ (operation_event (id op))) in Hatt;
    try (by intros ev [? _]).
  - exists r, (retry_count op), o1. rewrite set_retry_count_same.
    split; [done|]. split; [lia|done].
  - unfold _handle_failure.
    destruct (Z.ltb_spec (retry_count op) (max_retries op)) as [Hlt|Hge]; [lia|].
    pose proof (roll_back_or_fail_extends op context (caught e) o1) as Hrb.
    destruct (roll_back_or_fail op context (caught e) o1) as [r o'] eqn:Hr.
    exists r, (retry_count op), o'. rewrite set_retry_count_same.
    split; [done|]. split; [lia|].
    eapply advances_trans; [exact Hatt|].
    eapply advances_weaken; [|exact Hrb]. by intros ev [? _].
  - exists r, (retry_count op), o1. rewrite set_retry_count_same.
    split; [done|]. split; [lia|done].
  - unfold _handle_failure.
    destruct (Z.ltb_spec (retry_count op) (max_retries op)) as [Hlt|Hge].
    + set (op' := set_retry_count op (retry_count op + 1)).
      set (o2 := with_env _ _).
      destruct (IH op' (parent_context context) o2) as (r & n & o' & Hex & Hn & Hadv).
      { simpl. lia. }
      exists r, n, o'. split; [exact Hex|]. simpl in Hn. split; [lia|].
      eapply advances_trans; [exact Hatt|].
      eapply advances_trans; [|exact Hadv].
      unfold o2. apply advances_with_env. apply advances_record; [done|]. apply advances_refl.
    + pose proof (roll_back_or_fail_extends op context (caught e) o1) as Hrb.
      destruct (roll_back_or_fail op context (caught e) o1) as [r o'] eqn:Hr.
      exists r, (retry_count op), o'. rewrite set_retry_count_same.
      split; [done|]. split; [lia|].
      eapply advances_trans; [exact Hatt|].
      eapply advances_weaken; [|exact Hrb]. by intros ev [? _].
Qed.

Lemma execute_operation_returns op parent o :
  exists r n o',
    execute_operation op parent o = Some (r, set_retry_count op n, o')
    /\ retry_count op <= n <= Z.max (retry_count op) (max_retries op)
    /\ advances (operation_event (id op)) o o'.
Proof. by apply execute_operation_fuel_returns. Qed.

(** The state in which a retry is entered: [_handle_failure] has recorded
    the retry and slept the backoff. *)
Definition backed_off (op : Operation) (o : OperationOrchestrator) : OperationOrchestrator :=
  let o1 := record_event (EvRetry (id op) (retry_count op + 1)) o in
  with_env o1 (sleep_pow2 (retry_count op + 1) (env o1)).

(** Every pass through the [try] block that the call
    [execute_operation op parent o] makes ends in an [except] clause: the
    first pass does, and when it is retried, so does every pass of the
    retry.  Only the passes of this call are looked at, in the states in
    which they are made; [fuel] bounds their number. *)
Fixpoint fails_on_every_attempt (fuel : nat) (op : Operation)
  (parent : option ExecutionContext) (o : OperationOrchestrator) : Prop :=
  match attempt op parent o with
  | (Returned _, _, _) => False
  | (Failed _, context, o1) =>
      if retry_count op <? max_retries op then
        match fuel with
        | O => True
        | S fuel' =>
            fails_on_every_attempt fuel' (set_retry_count op (retry_count op + 1))
              (parent_context context) (backed_off op o1)
        end
      else True
  end.

Definition every_attempt_fails (op : Operation) (parent : option ExecutionContext)
  (o : OperationOrchestrator) : Prop :=
  fails_on_every_attempt (Z.to_nat (max_retries op - retry_count op)) op parent o.

(** The seconds slept in backoff for the retries recorded:
    [2 ** retry_count] for each. *)
Definition backoff (evs : list Event) : Z :=
  foldr (fun n total => 2 ^ n + total) 0 (retry_counts evs).

Lemma backoff_app e1 e2 : backoff (e1 ++ e2) = backoff e1 + backoff e2.
Proof.
  unfold backoff. rewrite retry_counts_app.
  induction (retry_counts e1) as [|n l IH]; simpl; [done|]. rewrite IH. lia.
Qed.

Lemma backoff_none evs :
  Forall (fun ev => is_retry ev = false) evs -> backoff evs = 0.
Proof. intros Hevs. unfold backoff. by rewrite retry_counts_none. Qed.

(** When every pass through the [try] block that the call makes ends in an
    [except] clause, the call retries until the retry count reaches
    [max_retries], and the last failure goes to the rollback-or-fail part.
    [P] holds of the events of a failed pass, [R] of the error and context
    it ends with.  Between the passes the call sleeps the backoff, and it
    sleeps nowhere else if the [try] block does not: whatever measures the
    time slept has then grown by the backoff of the retries. *)
Lemma failing_attempts_exhaust_retries (P : Event -> Prop)
  (R : PyError -> ExecutionContext -> Prop) :
  (forall ev, P ev -> is_retry ev = false) ->
  forall fuel op parent o,
    (forall parent' o' e context o1,
        attempt op parent' o' = (Failed e, context, o1) ->
        advances P o' o1 /\ R e context) ->
    fails_on_every_attempt fuel op parent o ->
    (Z.to_nat (max_retries op - retry_count op) <= fuel)%nat ->
    exists e context o1 evs,
      R e context
      /\ execute_operation_fuel fuel op parent o =
         Some ((roll_back_or_fail op context (caught e) o1).1,
               set_retry_count op (Z.max (retry_count op) (max_retries op)),
               (roll_back_or_fail op context (caught e) o1).2)
      /\ max_parallel o1 = max_parallel o
      /\ trace o1 = trace o ++ evs
      /\ Forall (fun ev => P ev \/ exists n, ev = EvRetry (id op) n) evs
      /\ retry_counts evs = seqZ (retry_count op + 1) (max_retries op - retry_count op)
      /\ (forall slept : Env -> Z,
            (forall n e, 0 <= n -> slept (sleep_pow2 n e) = slept e + 2 ^ n) ->
            (forall parent' o', slept (env (attempt op parent' o').2) = slept (env o')) ->
            0 <= retry_count op ->
            slept (env o1) = slept (env o) + backoff evs).
Proof.
  intros HP fuel. induction fuel as [|fuel IH]; intros op parent o Hfail Hrun Hfuel;
    rewrite execute_operation_fuel_unfold;
    pose proof (Hfail parent o) as Hpass;
    simpl in Hrun;
    destruct (attempt op parent o) as [[[r|e] context] o1] eqn:Hatt; try done;
    destruct (Hpass e context o1 eq_refl) as [[Hmp (evs & Htr & Hevs)] HR];
    unfold _handle_failure;
    destruct (Z.ltb_spec (retry_count op) (max_retries op)) as [Hlt|Hge]; try lia.
  - exists e, context, o1, evs.
    destruct (roll_back_or_fail op context (caught e) o1) as [r o'].
    rewrite Z.max_l by lia. rewrite set_retry_count_same.
    repeat (split; [done|]). split; [|split].
    + eapply Forall_impl; [exact Hevs|]. by left.
    + rewrite seqZ_nil by lia. apply retry_counts_none.
      eapply Forall_impl; [exact Hevs|]. exact HP.
    + intros slept _ Hquiet _. specialize (Hquiet parent o). rewrite Hatt in Hquiet.
      simpl in Hquiet. rewrite Hquiet, backoff_none; [lia|].
      eapply Forall_impl; [exact Hevs|]. exact HP.
  - set (op' := set_retry_count op (retry_count op + 1)) in *.
    destruct (IH op' (parent_context context) (backed_off op o1)) as
      (e' & context' & o1' & evs' & HR' & Hex & Hmp' & Htr' & Hevs' & Hrc' & Hsl').
    { intros p' o'. exact (Hfail p' o'). }
    { exact Hrun. }
    { simpl. lia. }
    exists e', context', o1', (evs ++ [EvRetry (id op) (retry_count op + 1)] ++ evs').
    split; [done|]. split.
    { transitivity (execute_operation_fuel fuel op' (parent_context context)
                      (backed_off op o1)); [reflexivity|].
      rewrite Hex. simpl.
      by rewrite (Z.max_r (retry_count op + 1)), Z.max_r by lia. }
    split; [by rewrite Hmp'|]. split.
    { rewrite Htr'. unfold backed_off. simpl. rewrite Htr. by rewrite <- !app_assoc. }
    split; [|split].
    + apply Forall_app. split; [eapply Forall_impl; [exact Hevs|]; by left|].
      apply Forall_app. split; [|exact Hevs'].
      constructor; [|constructor]. right. by eexists.
    + rewrite !retry_counts_app. simpl. rewrite Hrc'. simpl.
      rewrite (retry_counts_none evs) by (eapply Forall_impl; [exact Hevs|]; exact HP).
      simpl. rewrite (seqZ_cons (retry_count op + 1)) by lia.
      f_equal. f_equal; lia.
    + intros slept Hsleep Hquiet Hrc.
      rewrite (Hsl' slept Hsleep) by (done || (simpl; lia)).
      rewrite !backoff_app.
      rewrite (backoff_none evs) by (eapply Forall_impl; [exact Hevs|]; exact HP).
      specialize (Hquiet parent o). rewrite Hatt in Hquiet. simpl in Hquiet.
      unfold backed_off. simpl. rewrite Hsleep by lia. rewrite Hquiet.
      change (backoff [EvRetry (id op) (retry_count op + 1)])
        with (2 ^ (retry_count op + 1) + 0). lia.
  - exists e, context, o1, evs.
    destruct (roll_back_or_fail op context (caught e) o1) as [r o'].
    rewrite Z.max_l by lia. rewrite set_retry_count_same.
    repeat (split; [done|]). split; [|split].
    + eapply Forall_impl; [exact Hevs|]. by left.
    + rewrite seqZ_nil by lia. apply retry_counts_none.
      eapply Forall_impl; [exact Hevs|]. exact HP.
    + intros slept _ Hquiet _. specialize (Hquiet parent o). rewrite Hatt in Hquiet.
      simpl in Hquiet. rewrite Hquiet, backoff_none; [lia|].
      eapply Forall_impl; [exact Hevs|]. exact HP.
Qed.

Lemma roll_back_or_fail_status op context err o :
  let r := (roll_back_or_fail op context err o).1 in
  (status r = FAILED \/ status r = ROLLED_BACK)
  /\ error r = Some err
  /\ (rollback_ready op context = None ->
      roll_back_or_fail op context err o = (make_result op FAILED err o, o)).
Proof.
  unfold roll_back_or_fail.
  destruct (rollback_ready op context) as [[hook cp]|]; simpl; [|by auto].
  destruct (hook _) as [[?|?] e1]; simpl.
  - destruct (restore_checkpoint _ _) as [[?|?] e2]; simpl;
      (split; [by auto|]; split; [done|]; intros ?; discriminate).
  - split; [by auto|]. split; [done|]. intros ?; discriminate.
Qed.

Lemma rollback_ready_no_hook op context : rollback op = None -> rollback_ready op context = None.
Proof. intros Hr. unfold rollback_ready. by rewrite Hr. Qed.

Lemma rollback_ready_no_checkpoint op context :
  checkpoint_id context = None -> rollback_ready op context = None.
Proof. intros Hc. unfold rollback_ready. rewrite Hc. by destruct (rollback op). Qed.

(** Every pass through the [try] block of the operation ends in an
    [except] clause, in whatever state it is made. *)
Definition always_raises (op : Operation) : Prop :=
  forall parent o, exists e context o1, attempt op parent o = (Failed e, context, o1).

Lemma always_raises_on_every_attempt fuel op parent o :
  always_raises op -> fails_on_every_attempt fuel op parent o.
Proof.
  intros Hraises. revert op parent o Hraises.
  induction fuel as [|fuel IH]; intros op parent o Hraises; simpl;
    destruct (Hraises parent o) as (e & context & o1 & ->);
    destruct (retry_count op <? max_retries op); try done.
  apply IH. intros p' o'. exact (Hraises p' o').
Qed.

(** The claim as the specification words it: an operation without rollback
    hook whose every attempt fails comes back [FAILED] with its retry count
    at [max_retries]. *)
Definition failing_operation_ends_at_max_retries : Prop :=
  forall op parent o,
    rollback op = None ->
    every_attempt_fails op parent o ->
    exists r op' o',
      execute_operation op parent o = Some (r, op', o')
      /\ status r = FAILED
      /\ retry_count op' = max_retries op.

(** C4, as the code has it.  An operation without rollback hook, every
    attempt of which in this call raises or times out: the call returns a
    [FAILED] result.  The retry counts the operation takes on the way are
    [retry_count + 1, ..., max_retries], in this order: the count only
    grows, by one for each retry, and no retry takes it beyond
    [max_retries].  The operation is left with the larger of the retry
    count it came with and [max_retries]: with [max_retries] when it came
    with a retry count not above it, and otherwise, not retried at all, with
    the retry count it came with. *)
Theorem failing_operation_exhausts_retries (op : Operation)
  (parent : option ExecutionContext) (o : OperationOrchestrator) :
  rollback op = None ->
  every_attempt_fails op parent o ->
  exists r op' o' evs,
    execute_operation op parent o = Some (r, op', o')
    /\ status r = FAILED
    /\ op' = set_retry_count op (Z.max (retry_count op) (max_retries op))
    /\ (retry_count op <= max_retries op -> retry_count op' = max_retries op)
    /\ (max_retries op < retry_count op ->
        retry_count op' = retry_count op /\ retry_counts evs = [])
    /\ trace o' = trace o ++ evs
    /\ retry_counts evs = seqZ (retry_count op + 1) (max_retries op - retry_count op)
    /\ Forall (fun n => retry_count op < n <= max_retries op) (retry_counts evs).
Proof.
  intros Hrb Hfail.
  destruct (failing_attempts_exhaust_retries (attempt_event (id op)) (fun _ _ => True)
              ltac:(by intros ev [_ ?])
              (Z.to_nat (max_retries op - retry_count op)) op parent o)
    as (e & context & o1 & evs & _ & Hex & _ & Htr & _ & Hrc & _); [|done|done|].
  { intros p' o' e c o1 Hatt. split; [|done].
    pose proof (attempt_extends op p' o') as Hext. by rewrite Hatt in Hext. }
  destruct (roll_back_or_fail_status op context (caught e) o1) as (_ & _ & Hnone).
  rewrite Hnone in Hex by (by apply rollback_ready_no_hook).
  eexists _, _, _, evs. split; [exact Hex|]. simpl.
  split; [done|]. split; [done|]. split; [lia|]. split.
  { intros Hgt. split; [lia|]. rewrite Hrc. apply seqZ_nil. lia. }
  split; [done|]. split; [done|]. rewrite Hrc.
  apply Forall_forall. intros n Hn. apply elem_of_seqZ in Hn. lia.
Qed.

(** *** Validation hooks *)

(** The security validator allows the action whenever it is asked. *)
Definition always_allowed (a : Action) : Prop :=
  forall e, exists reason e', validate_action a e = (Ok (true, reason), e').

(** The claim as the specification words it, for the pre-validation hook:
    a hook that returns false makes the call return [FAILED] at once, the
    retry count as it was, no backoff slept and the executor not called. *)
Definition validation_failure_is_terminal : Prop :=
  forall op parent o hook,
    pre_validation op = Some hook ->
    (forall e, exists e', hook e = (Ok false, e')) ->
    always_allowed (action op) ->
    exists r op' o' evs,
      execute_operation op parent o = Some (r, op', o')
      /\ status r = FAILED
      /\ retry_count op' = retry_count op
      /\ trace o' = trace o ++ evs
      /\ retry_counts evs = []
      /\ executions evs = [].

(** One pass with a pre-validation hook that returns false: it ends in the
    [except] clause before a checkpoint is taken or the executor called. *)
Lemma attempt_pre_validation_false op parent o hook :
  pre_validation op = Some hook ->
  (forall e, exists e', hook e = (Ok false, e')) ->
  always_allowed (action op) ->
  exists context o1,
    attempt op parent o
    = (Failed (ValueError ("Pre-validation failed for operation " ++ id op)), context, o1)
    /\ advances (fun ev => attempt_event (id op) ev /\ is_execute ev = false) o o1
    /\ checkpoint_id context = None.
Proof.
  intros Hpre Hfalse Hallow. unfold attempt.
  destruct (Hallow (env (record_event (EvValidate (id op)) o))) as (reason & e1 & ->).
  rewrite Hpre.
  destruct (Hfalse (env (record_event (EvPreValidation (id op))
                          (with_env (record_event (EvValidate (id op)) o) e1))))
    as (e2 & ->).
  eexists _, _. split; [reflexivity|]. split; [|done].
  apply advances_with_env. apply advances_record; [done|].
  apply advances_with_env. apply advances_record; [done|]. apply advances_refl.
Qed.

(** One pass with a post-validation hook that returns false never returns
    the executor's result. *)
Lemma attempt_post_validation_false op hook :
  post_validation op = Some hook ->
  (forall r e, exists e', hook r e = (Ok false, e')) ->
  always_allowed (action op) ->
  always_raises op.
Proof.
  intros Hpost Hfalse Hallow parent o. unfold attempt.
  destruct (Hallow (env (record_event (EvValidate (id op)) o))) as (reason & e1 & ->).
  assert (forall c o', exists e c' o1, after_pre_validation op c o' = (Failed e, c', o1)) as Hrun.
  { intros c o'. unfold after_pre_validation.
    assert (forall c0 o0, exists e c' o1,
              match execute_with_timeout op c0 o0 with
              | (Ok r, o'') => after_execution op c0 r o''
              | (Raise e, o'') => (Failed e, c0, o'')
              end = (Failed e, c', o1)) as Hexec.
    { intros c0 o0. destruct (execute_with_timeout op c0 o0) as [[r|e] o'']; [|by eexists _, _, _].
      unfold after_execution. rewrite Hpost.
      destruct (Hfalse r (env (record_event (EvPostValidation (id op)) o''))) as (e' & ->).
      by eexists _, _, _. }
    destruct (rollback op); [|by apply Hexec].
    destruct (create_checkpoint _) as [[cp|e] e']; [by apply Hexec|by eexists _, _, _]. }
  destruct (pre_validation op) as [pre|]; [|by apply Hrun].
  destruct (pre _) as [[[|]|e] e2]; [by apply Hrun|by eexists _, _, _..].
Qed.

(** The rollback of the operation goes through: a rollback hook is set and
    succeeds whenever it is called, the pre-validation hook, if there is
    one, lets every attempt pass, so that each attempt takes its checkpoint,
    [create_checkpoint] returns an id that is not empty, and
    [restore_checkpoint] succeeds. *)
Definition rollback_succeeds (op : Operation) : Prop :=
  (exists hook, rollback op = Some hook /\ forall e, exists e', hook e = (Ok tt, e'))
  /\ (forall pre, pre_validation op = Some pre -> forall e, exists e', pre e = (Ok true, e'))
  /\ (forall e, exists cp e', create_checkpoint e = (Ok cp, e') /\ cp <> "")
  /\ (forall cp e, exists e', restore_checkpoint cp e = (Ok tt, e')).

Lemma after_execution_context op context r o : (after_execution op context r o).1.2 = context.
Proof.
  unfold after_execution.
  assert (forall o', (if enable_learning o' && bool_decide (status r = SUCCESS)
                      then match _learn_from_execution op r o' with
                           | (Ok _, o'') => (Returned r, context, o'')
                           | (Raise e, o'') => (Failed e, context, o'')
                           end
                      else (Returned r, context, o')).1.2 = context) as Hlearn.
  { intros o'. destruct (_ && _); [|done].
    by destruct (_learn_from_execution op r o') as [[?|?] ?]. }
  destruct (post_validation op) as [hook|]; [|by apply Hlearn].
  destruct (hook _ _) as [[[|]|e] e1]; [by apply Hlearn|done..].
Qed.

(** With the rollback going through, a pass ends with its checkpoint in
    the context, however it ends. *)
Lemma attempt_keeps_checkpoint op parent o :
  always_allowed (action op) ->
  rollback_succeeds op ->
  exists cp, checkpoint_id (attempt op parent o).1.2 = Some cp /\ cp <> "".
Proof.
  intros Hallow ((hook & Hrb & _) & Hpre & Hcp & _). unfold attempt.
  destruct (Hallow (env (record_event (EvValidate (id op)) o))) as (reason & e1 & ->).
  assert (forall c o', exists cp,
            checkpoint_id (after_pre_validation op c o').1.2 = Some cp /\ cp <> "") as Hrun.
  { intros c o'. unfold after_pre_validation. rewrite Hrb.
    destruct (Hcp (env (record_event (EvCheckpoint (id op)) o'))) as (cp & e' & -> & Hne).
    exists cp. split; [|done].
    destruct (execute_with_timeout _ _ _) as [[r|e] o''].
    - rewrite after_execution_context. by destruct c.
    - by destruct c. }
  destruct (pre_validation op) as [pre|] eqn:Hp; [|by apply Hrun].
  destruct (Hpre pre eq_refl (env (record_event (EvPreValidation (id op))
                                    (with_env (record_event (EvValidate (id op)) o) e1))))
    as (e2 & ->).
  by apply Hrun.
Qed.

Lemma roll_back_or_fail_rolled_back op context err o cp :
  rollback_succeeds op ->
  checkpoint_id context = Some cp -> cp <> "" ->
  status (roll_back_or_fail op context err o).1 = ROLLED_BACK.
Proof.
  intros ((hook & Hrb & Hhook) & _ & _ & Hrestore) Hcp Hne.
  unfold roll_back_or_fail, rollback_ready. rewrite Hrb, Hcp.
  destruct (String.eqb_spec cp ""); [done|].
  destruct (Hhook (env (record_event (EvRollback (id op)) o))) as (e1 & ->).
  by destruct (Hrestore cp (env (record_event (EvRestore (id op) cp)
                                   (with_env (record_event (EvRollback (id op)) o) e1))))
    as (e2 & ->).
Qed.

(** [slept] measures the time the world has spent in [asyncio.sleep]:
    sleeping [2 ** n] seconds adds that much, and no other call the
    orchestrator makes for the operation, to a collaborator or to a hook,
    adds anything. *)
Record only_sleep_sleeps (slept : Env -> Z) (op : Operation) : Prop := {
  sleep_adds n e : 0 <= n -> slept (sleep_pow2 n e) = slept e + 2 ^ n;
  quiet_validator a e : slept (validate_action a e).2 = slept e;
  quiet_checkpoint e : slept (create_checkpoint e).2 = slept e;
  quiet_restore cp e : slept (restore_checkpoint cp e).2 = slept e;
  quiet_save k ps e : slept (save_state k ps e).2 = slept e;
  quiet_executor a e : slept (execute_action a e).2 = slept e;
  quiet_pre hook e : pre_validation op = Some hook -> slept (hook e).2 = slept e;
  quiet_post hook r e : post_validation op = Some hook -> slept (hook r e).2 = slept e;
  quiet_rollback hook e : rollback op = Some hook -> slept (hook e).2 = slept e
}.

Section Quiet.
Variables (slept : Env -> Z) (op : Operation).
Hypothesis Hquiet : only_sleep_sleeps slept op.

Lemma _learn_from_execution_quiet r o :
  slept (env (_learn_from_execution op r o).2) = slept (env o).
Proof.
  unfold _learn_from_execution. destruct (_ =? 0); [|done].
  match goal with
  | |- context [save_state ?k ?ps ?e] =>
      pose proof (quiet_save _ _ Hquiet k ps e) as Hs; destruct (save_state k ps e)
  end.
  exact Hs.
Qed.

Lemma _execute_action_quiet context o :
  slept (env (_execute_action op context o).2) = slept (env o).
Proof.
  unfold _execute_action.
  match goal with
  | |- context [execute_action ?a ?e] =>
      pose proof (quiet_executor _ _ Hquiet a e) as Hs; destruct (execute_action a e) as [[?|?] ?]
  end; exact Hs.
Qed.

Lemma execute_with_timeout_quiet context o :
  slept (env (execute_with_timeout op context o).2) = slept (env o).
Proof.
  unfold execute_with_timeout.
  pose proof (_execute_action_quiet context o) as Hs.
  destruct (_execute_action op context o) as [res o1].
  destruct (timeout_set op) as [t|]; [|done]. by destruct (t <? _).
Qed.

Lemma after_execution_quiet context r o :
  slept (env (after_execution op context r o).2) = slept (env o).
Proof.
  unfold after_execution.
  assert (forall o', slept (env (if enable_learning o' && bool_decide (status r = SUCCESS)
                      then match _learn_from_execution op r o' with
                           | (Ok _, o'') => (Returned r, context, o'')
                           | (Raise e, o'') => (Failed e, context, o'')
                           end
                      else (Returned r, context, o')).2) = slept (env o')) as Hlearn.
  { intros o'. destruct (_ && _); [|done].
    pose proof (_learn_from_execution_quiet r o') as Hs.
    by destruct (_learn_from_execution op r o') as [[?|?] ?]. }
  destruct (post_validation op) as [hook|] eqn:Hp; [|by apply Hlearn].
  pose proof (quiet_post _ _ Hquiet hook r (env (record_event (EvPostValidation (id op)) o))
                Hp) as Hs.
  destruct (hook _ _) as [[[|]|e] e1]; simpl in Hs; [|exact Hs..].
  rewrite Hlearn. exact Hs.
Qed.

Lemma after_pre_validation_quiet context o :
  slept (env (after_pre_validation op context o).2) = slept (env o).
Proof.
  unfold after_pre_validation.
  assert (forall c o', slept (env (match execute_with_timeout op c o' with
                                   | (Ok r, o'') => after_execution op c r o''
                                   | (Raise e, o'') => (Failed e, c, o'')
                                   end).2) = slept (env o')) as Hrun.
  { intros c o'. pose proof (execute_with_timeout_quiet c o') as Hs.
    destruct (execute_with_timeout op c o') as [[r|e] o'']; simpl in Hs; [|exact Hs].
    rewrite after_execution_quiet. exact Hs. }
  destruct (rollback op); [|by apply Hrun].
  pose proof (quiet_checkpoint _ _ Hquiet (env (record_event (EvCheckpoint (id op)) o))) as Hs.
  destruct (create_checkpoint _) as [[cp|e] e1]; simpl in Hs; [|exact Hs].
  rewrite Hrun. exact Hs.
Qed.

Lemma attempt_quiet parent o : slept (env (attempt op parent o).2) = slept (env o).
Proof.
  unfold attempt.
  pose proof (quiet_validator _ _ Hquiet (action op)
                (env (record_event (EvValidate (id op)) o))) as Hv.
  destruct (validate_action _ _) as [[[[|] reason]|e] e1]; simpl in Hv; [|exact Hv..].
  destruct (pre_validation op) as [hook|] eqn:Hp.
  - pose proof (quiet_pre _ _ Hquiet hook
                  (env (record_event (EvPreValidation (id op))
                          (with_env (record_event (EvValidate (id op)) o) e1))) Hp) as Hs.
    destruct (hook _) as [[[|]|e] e2]; simpl in Hs;
      [|exact (eq_trans Hs Hv)..].
    rewrite after_pre_validation_quiet. exact (eq_trans Hs Hv).
  - rewrite after_pre_validation_quiet. exact Hv.
Qed.

Lemma roll_back_or_fail_quiet context error o :
  slept (env (roll_back_or_fail op context error o).2) = slept (env o).
Proof.
  unfold roll_back_or_fail, rollback_ready.
  destruct (rollback op) as [hook|] eqn:Hrb; [|done].
  destruct (checkpoint_id context) as [cp|]; [|done].
  destruct (String.eqb cp ""); [done|].
  pose proof (quiet_rollback _ _ Hquiet hook (env (record_event (EvRollback (id op)) o))
                Hrb) as Hs.
  destruct (hook _) as [[?|?] e1]; simpl in Hs; [|exact Hs].
  pose proof (quiet_restore _ _ Hquiet cp
                (env (record_event (EvRestore (id op) cp)
                        (with_env (record_event (EvRollback (id op)) o) e1)))) as Hr.
  destruct (restore_checkpoint _ _) as [[?|?] e2]; simpl in Hr; exact (eq_trans Hr Hs).
Qed.

End Quiet.

(** C2, as the code has it.  With the security validator allowing the
    action: (1) a pre-validation hook that returns false whenever it is
    called makes every attempt raise; the call retries until the retry count
    reaches [max_retries] and then returns [FAILED] with the validation
    error, and the executor is never called; (2) a post-validation hook that
    returns false whenever it is called likewise makes the call retry until
    the retry count reaches [max_retries]; the result is then [FAILED] or
    [ROLLED_BACK]: [FAILED] when the operation has no rollback hook,
    [ROLLED_BACK] when the rollback goes through.  In both cases the call
    sleeps [2 ** n] seconds before the retry that takes the retry count to
    [n], that is before every retry, and at no other time: when nothing but
    [asyncio.sleep] sleeps, the time slept during the call is the sum of
    these backoffs. *)
Theorem validation_failure_is_retried (op : Operation)
  (parent : option ExecutionContext) (o : OperationOrchestrator) :
  always_allowed (action op) ->
  (forall hook,
     pre_validation op = Some hook ->
     (forall e, exists e', hook e = (Ok false, e')) ->
     exists r o' evs,
       execute_operation op parent o
       = Some (r, set_retry_count op (Z.max (retry_count op) (max_retries op)), o')
       /\ status r = FAILED
       /\ error r = Some (ValueError ("Pre-validation failed for operation " ++ id op))
       /\ trace o' = trace o ++ evs
       /\ executions evs = []
       /\ retry_counts evs = seqZ (retry_count op + 1) (max_retries op - retry_count op)
       /\ (forall slept, only_sleep_sleeps slept op -> 0 <= retry_count op ->
             slept (env o') = slept (env o) + backoff evs))
  /\ (forall hook,
        post_validation op = Some hook ->
        (forall r e, exists e', hook r e = (Ok false, e')) ->
        exists r o' evs,
          execute_operation op parent o
          = Some (r, set_retry_count op (Z.max (retry_count op) (max_retries op)), o')
          /\ (status r = FAILED \/ status r = ROLLED_BACK)
          /\ (rollback op = None -> status r = FAILED)
          /\ (rollback_succeeds op -> status r = ROLLED_BACK)
          /\ trace o' = trace o ++ evs
          /\ retry_counts evs
             = seqZ (retry_count op + 1) (max_retries op - retry_count op)
          /\ (forall slept, only_sleep_sleeps slept op -> 0 <= retry_count op ->
                slept (env o') = slept (env o) + backoff evs)).
Proof.
  intros Hallow. split.
  - intros hook Hpre Hfalse.
    destruct (failing_attempts_exhaust_retries
                (fun ev => attempt_event (id op) ev /\ is_execute ev = false)
                (fun e c => e = ValueError ("Pre-validation failed for operation " ++ id op)
                            /\ checkpoint_id c = None)
                ltac:(by intros ev [[_ ?] _])
                (Z.to_nat (max_retries op - retry_count op)) op parent o)
      as (e & context & o1 & evs & [-> Hcp] & Hex & _ & Htr & Hevs & Hrc & Hsl); [| |done|].
    { intros p' o' e c o1 Hatt.
      destruct (attempt_pre_validation_false op p' o' hook Hpre Hfalse Hallow)
        as (c' & o1' & Hatt' & Hadv & Hc).
      rewrite Hatt in Hatt'. by injection Hatt' as -> -> ->. }
    { apply always_raises_on_every_attempt. intros p' o'.
      destruct (attempt_pre_validation_false op p' o' hook Hpre Hfalse Hallow)
        as (c' & o1' & Hatt' & _). by eexists _, _, _. }
    destruct (roll_back_or_fail_status op context
                (caught (ValueError ("Pre-validation failed for operation " ++ id op))) o1)
      as (_ & _ & Hnone).
    rewrite Hnone in Hex by (by apply rollback_ready_no_checkpoint).
    eexists _, _, evs. split; [exact Hex|]. simpl.
    repeat (split; [done|]). split; [|split; [done|]].
    + apply executions_none. eapply Forall_impl; [exact Hevs|].
      by intros ev [[_ ?]|[n ->]].
    + intros slept Hquiet Hnn. apply Hsl; [|exact (attempt_quiet slept op Hquiet)|done].
      exact (sleep_adds _ _ Hquiet).
  - intros hook Hpost Hfalse.
    pose proof (attempt_post_validation_false op hook Hpost Hfalse Hallow) as Hraises.
    destruct (failing_attempts_exhaust_retries (attempt_event (id op))
                (fun e c => rollback_succeeds op ->
                            exists cp, checkpoint_id c = Some cp /\ cp <> "")
                ltac:(by intros ev [_ ?])
                (Z.to_nat (max_retries op - retry_count op)) op parent o)
      as (e & context & o1 & evs & Hcp & Hex & _ & Htr & _ & Hrc & Hsl); [| |done|].
    { intros p' o' e c o1 Hatt. split.
      - pose proof (attempt_extends op p' o') as Hext. by rewrite Hatt in Hext.
      - intros Hgoes. pose proof (attempt_keeps_checkpoint op p' o' Hallow Hgoes) as Hk.
        by rewrite Hatt in Hk. }
    { by apply always_raises_on_every_attempt. }
    destruct (roll_back_or_fail_status op context (caught e) o1) as (Hst & _ & Hnone).
    destruct (roll_back_or_fail_extends op context (caught e) o1) as [_ (evs' & Htr' & Hevs')].
    pose proof (fun Hgoes cp => roll_back_or_fail_rolled_back op context (caught e) o1 cp Hgoes)
      as Hback.
    pose proof (fun slept Hquiet => roll_back_or_fail_quiet slept op Hquiet context (caught e) o1)
      as Hq.
    destruct (roll_back_or_fail op context (caught e) o1) as [r o'] eqn:Hr.
    simpl in *. exists r, o', (evs ++ evs'). split; [exact Hex|]. split; [done|]. split.
    { intros Hno. specialize (Hnone (rollback_ready_no_hook _ _ Hno)).
      by injection Hnone as -> _. }
    split.
    { intros Hgoes. destruct (Hcp Hgoes) as (cp & Hc & Hne). by apply (Hback Hgoes cp). }
    split; [by rewrite Htr', Htr, app_assoc|].
    assert (Forall (fun ev => is_retry ev = false) evs') as Hno_retry
      by (eapply Forall_impl; [exact Hevs'|]; by intros ev [_ ?]).
    split.
    + by rewrite retry_counts_app, Hrc, (retry_counts_none evs'), app_nil_r.
    + intros slept Hquiet Hnn. rewrite (Hq slept Hquiet).
      rewrite backoff_app, (backoff_none evs'), Z.add_0_r by done.
      apply Hsl; [|exact (attempt_quiet slept op Hquiet)|done].
      exact (sleep_adds _ _ Hquiet).
Qed.

(** *** Sequences *)

(** The events of a run that took the operations one after the other, in
    list order. *)
Inductive runs_in_order : list Operation -> list Event -> Prop :=
| runs_nil : runs_in_order [] []
| runs_cons op ops evs1 evs2 :
    Forall (operation_event (id op)) evs1 ->
    runs_in_order ops evs2 ->
    runs_in_order (op :: ops) (evs1 ++ evs2).

Lemma runs_in_order_app ops1 ops2 evs1 evs2 :
  runs_in_order ops1 evs1 -> runs_in_order ops2 evs2 ->
  runs_in_order (ops1 ++ ops2) (evs1 ++ evs2).
Proof.
  induction 1 as [|op ops e1 e2 Hf Hr IH]; intros H2; simpl; [done|].
  rewrite <- app_assoc. constructor; auto.
Qed.

Lemma execute_sequence_unfold operation rest o :
  execute_sequence (operation :: rest) o =
  match execute_operation operation None o with
  | None => None
  | Some (r, operation', o1) =>
      if stops_sequence operation r
      then Some ([r], operation' :: rest, o1)
      else
        match execute_sequence rest o1 with
        | None => None
        | Some (rs, rest', o2) => Some (r :: rs, operation' :: rest', o2)
        end
  end.
Proof. reflexivity. Qed.

(** [execute_sequence] returns; it has run a prefix of the list, in order,
    and nothing else. *)
Lemma execute_sequence_returns operations o :
  exists rs operations' o' evs,
    execute_sequence operations o = Some (rs, operations', o')
    /\ (length rs <= length operations)%nat
    /\ max_parallel o' = max_parallel o
    /\ trace o' = trace o ++ evs
    /\ runs_in_order (take (length rs) operations) evs.
Proof.
  revert o. induction operations as [|op rest IH]; intros o.
  - exists [], [], o, []. simpl. rewrite app_nil_r. repeat split; try done. constructor.
  - rewrite execute_sequence_unfold.
    destruct (execute_operation_returns op None o) as (r & n & o1 & -> & _ & Hmp & evs1 & Htr1 & Hf1).
    destruct (stops_sequence op r).
    + exists [r], (set_retry_count op n :: rest), o1, evs1. simpl.
      split; [done|]. split; [lia|]. split; [done|]. split; [done|].
      rewrite <- (app_nil_r evs1). constructor; [done|]. rewrite take_0. constructor.
    + destruct (IH o1) as (rs & rest' & o2 & evs2 & -> & Hlen & Hmp2 & Htr2 & Hrun).
      exists (r :: rs), (set_retry_count op n :: rest'), o2, (evs1 ++ evs2). simpl.
      split; [done|]. split; [lia|]. split; [congruence|].
      split; [by rewrite Htr2, Htr1, app_assoc|]. by constructor.
Qed.

(** C7.  The operations [before] have all run, in list order, none of
    their results stopping the sequence; the next operation's result is
    [FAILED] and its metadata does not ask to continue.  Then the sequence
    returns exactly the results so far with the failed one last; the
    orchestrator is left as the failed operation left it and the operations
    [after] are untouched: none of them is validated, executed or
    retried. *)
Theorem sequence_stops_at_first_failure
  (before : list Operation) (failed : Operation) (after : list Operation)
  (o o1 o2 : OperationOrchestrator) (rs : list OperationResult) (r : OperationResult)
  (before' : list Operation) (failed' : Operation) :
  execute_sequence before o = Some (rs, before', o1) ->
  Forall2 (fun op r0 => stops_sequence op r0 = false) before rs ->
  execute_operation failed None o1 = Some (r, failed', o2) ->
  status r = FAILED ->
  stops_on_failure failed = true ->
  execute_sequence (before ++ failed :: after) o
  = Some (rs ++ [r], before' ++ failed' :: after, o2)
  /\ exists evs, trace o2 = trace o ++ evs
                /\ runs_in_order (before ++ [failed]) evs.
Proof.
  intros Hbefore Hrun Hfailed Hst Hstop. split.
  - revert o before' Hbefore.
    induction Hrun as [|op r0 before rs Hgo Hrun IH]; intros o before' Hbefore.
    + simpl in Hbefore. injection Hbefore as <- <-.
      simpl app. rewrite execute_sequence_unfold, Hfailed.
      unfold stops_sequence. rewrite Hst, Hstop. by rewrite bool_decide_eq_true_2.
    + simpl app. rewrite execute_sequence_unfold in Hbefore |- *.
      destruct (execute_operation op None o) as [[[r1 op'] o0]|]; [|done].
      destruct (stops_sequence op r1) eqn:Hs.
      * injection Hbefore as <- _ _ _. congruence.
      * destruct (execute_sequence before o0) as [[[rs0 b0] o0']|] eqn:Hseq; [|done].
        injection Hbefore as <- <- <- <-.
        rewrite (IH o0 b0 Hseq). done.
  - destruct (execute_sequence_returns before o) as (rs0 & b0 & o0 & evs & Hex & _ & _ & Htr & Hord).
    rewrite Hbefore in Hex. injection Hex as <- <- <-.
    rewrite <- (Forall2_length _ _ _ Hrun), firstn_all in Hord.
    destruct (execute_operation_returns failed None o1) as (r0 & n & o0 & Hex & _ & _ & evs1 & Htr1 & Hf1).
    rewrite Hfailed in Hex. injection Hex as <- _ <-.
    exists (evs ++ evs1). split; [by rewrite Htr1, Htr, app_assoc|].
    apply runs_in_order_app; [done|].
    rewrite <- (app_nil_r evs1). constructor; [done|constructor].
Qed.

(** C10.  A result whose status is not [FAILED], [ROLLED_BACK] in
    particular, does not stop the sequence, whatever the operation's
    metadata says: the rest of the list runs from the state the operation
    left, and its results follow. *)
Theorem sequence_continues_unless_failed
  (op : Operation) (rest : list Operation) (o o1 : OperationOrchestrator)
  (r : OperationResult) (op' : Operation) :
  execute_operation op None o = Some (r, op', o1) ->
  status r = ROLLED_BACK \/ status r <> FAILED ->
  exists rs rest' o2,
    execute_sequence rest o1 = Some (rs, rest', o2)
    /\ execute_sequence (op :: rest) o = Some (r :: rs, op' :: rest', o2).
Proof.
  intros Hex Hst.
  destruct (execute_sequence_returns rest o1) as (rs & rest' & o2 & _ & Hseq & _).
  exists rs, rest', o2. split; [done|].
  rewrite execute_sequence_unfold, Hex, Hseq. unfold stops_sequence.
  rewrite bool_decide_eq_false_2; [done|].
  destruct Hst as [Hst|Hst]; [by rewrite Hst|done].
Qed.

(** *** Batches *)

(** A dependency cycle: operations each of which depends on the next, the
    last on the first. *)
Definition dependency_cycle (cycle : list Operation) : Prop :=
  cycle <> []
  /\ forall i a, cycle !! i = Some a ->
       exists b, cycle !! ((i + 1) mod length cycle)%nat = Some b
                 /\ id b ∈ dependencies a.

(** Building the dependency graph fails at the first operation: only the
    empty batch gets a graph. *)
Lemma _build_dependency_graph_raises operations :
  operations <> [] -> _build_dependency_graph operations = Raise unhashable.
Proof. by destruct operations. Qed.

(** C1.  A batch that holds a dependency cycle: [execute_parallel] raises
    before any operation of the batch begins.  The call returns no result
    and leaves the orchestrator as it was, so no event is recorded (no
    operation is validated, handed to the executor or retried) and nothing
    is registered as executing.  The error is the [TypeError] of
    [_build_dependency_graph], which cannot hash an operation: the call
    ends while the graph is built, before the loop over the waves and its
    check for a cycle. *)
Theorem cycle_raises_before_any_operation
  (operations cycle : list Operation) (o : OperationOrchestrator) :
  dependency_cycle cycle ->
  cycle ⊆ operations ->
  exists e o',
    execute_parallel operations o = Some (Raise e, o')
    /\ e = unhashable
    /\ o' = o
    /\ trace o' = trace o
    /\ executing o' = executing o.
Proof.
  intros [Hne _] Hsub. exists unhashable, o.
  assert (operations <> []) as Hops.
  { destruct cycle as [|c cycle]; [done|]. intros ->.
    apply (not_elem_of_nil c), Hsub. left. }
  unfold execute_parallel. by rewrite _build_dependency_graph_raises.
Qed.

(** For no batch does [execute_parallel] run an operation: the empty batch
    returns the empty list of results, and every other batch raises the
    [TypeError] while the dependency graph is built, whatever the
    dependencies and whatever [max_parallel].  The orchestrator is left as
    it was. *)
Theorem parallel_batch_is_never_run (operations : list Operation)
  (o : OperationOrchestrator) :
  execute_parallel operations o
  = Some (match operations with [] => Ok [] | _ :: _ => Raise unhashable end, o).
Proof.
  destruct operations as [|op rest]; [done|].
  unfold execute_parallel. by rewrite _build_dependency_graph_raises.
Qed.

(** *** One operation, from validation to result *)

(** An operation the security validator turns down is not run and not
    retried: the call returns [FAILED] with a [PermissionError] carrying the
    validator's reason, right after the validation.  No hook is called, no
    checkpoint taken, the executor is not invoked, no backoff is slept and
    the retry count stays as it was. *)
Theorem denied_operation_is_not_retried (op : Operation)
  (parent : option ExecutionContext) (o : OperationOrchestrator)
  (reason : option string) (e1 : Env) :
  validate_action (action op) (env o) = (Ok (false, reason), e1) ->
  let o' := with_env (record_event (EvValidate (id op)) o) e1 in
  execute_operation op parent o
  = Some (make_result op FAILED (PermissionError (default "None" reason)) o', op, o')
  /\ trace o' = trace o ++ [EvValidate (id op)].
Proof.
  intros Hdenied o'. split; [|done].
  unfold execute_operation. rewrite execute_operation_fuel_unfold. unfold attempt.
  cbn [env record_event]. rewrite Hdenied. by destruct reason.
Qed.

(** The pattern learned from a result. *)
Definition learned (op : Operation) (r : OperationResult) : Pattern :=
  {| pattern_action_type := type (action op);
     pattern_metadata := Interfaces.metadata (action op);
     pattern_duration := duration r;
     pattern_timestamp := timestamp r |}.

(** An operation without hooks, rollback and timeout that the validator
    allows and the executor carries out (with [save_state] not failing): the
    executor is invoked once, its result is returned with the duration
    filled in (from the start of the call to the end of the execution),
    nothing is retried, the registry of executing operations no longer holds
    the operation, and a pattern is learned exactly when learning is on and
    the status is [SUCCESS]. *)
Theorem allowed_operation_runs_once (op : Operation)
  (parent : option ExecutionContext) (o : OperationOrchestrator)
  (reason : option string) (e1 e2 : Env) (r : OperationResult) :
  pre_validation op = None -> post_validation op = None -> rollback op = None ->
  timeout_set op = None ->
  validate_action (action op) (env o) = (Ok (true, reason), e1) ->
  execute_action (action op) e1 = (Ok r, e2) ->
  (forall ps e, exists e', save_state "execution_patterns" ps e = (Ok tt, e')) ->
  let r' := {| operation_id := operation_id r; status := status r; result := result r;
               error := error r; timestamp := timestamp r;
               duration := Some (utcnow e2 - utcnow (env o)) |} in
  exists o',
    execute_operation op parent o = Some (r', op, o')
    /\ trace o' = trace o ++ [EvValidate (id op); EvExecute (id op)]
    /\ executing o' = delete (id op) (executing o)
    /\ patterns o' = (if enable_learning o && bool_decide (status r = SUCCESS)
                      then patterns o ++ [learned op r'] else patterns o).
Proof.
  intros Hpre Hpost Hrb Hto Hallowed Hexec Hsave r'.
  unfold execute_operation. rewrite execute_operation_fuel_unfold. unfold attempt.
  cbn [env record_event]. rewrite Hallowed, Hpre.
  unfold after_pre_validation. rewrite Hrb.
  unfold execute_with_timeout, _execute_action. rewrite Hto.
  cbn [env record_event with_env with_executing]. rewrite Hexec.
  cbn [start_time]. fold r'.
  unfold after_execution. rewrite Hpost.
  cbn [enable_learning with_env with_executing record_event].
  change (status r') with (status r).
  destruct (enable_learning o && bool_decide (status r = SUCCESS)) eqn:Hlearn.
  - unfold _learn_from_execution. fold (learned op r').
    cbn [patterns with_patterns with_env with_executing record_event env].
    destruct (_ =? 0).
    + match goal with |- context [save_state ?k ?ps ?e] =>
        destruct (Hsave ps e) as (e' & ->) end.
      eexists. split; [reflexivity|]. simpl. rewrite <- app_assoc.
      by rewrite delete_insert_eq.
    + eexists. split; [reflexivity|]. simpl. rewrite <- app_assoc.
      by rewrite delete_insert_eq.
  - eexists. split; [reflexivity|]. simpl. rewrite <- app_assoc.
    by rewrite delete_insert_eq.
Qed.

(** A failure to save the learned patterns makes the orchestrator repeat an
    action that has succeeded.  Learning is on and the next pattern is the
    tenth of its batch, so it is saved; the executor succeeds, but
    [save_state] raises.  The exception is taken for a failure of the
    operation: the call retries, the executor is invoked a second time, and
    only that second result is returned ([SUCCESS], with the retry count one
    higher); both executions have been learned. *)
Theorem failed_pattern_save_repeats_the_action (op : Operation)
  (parent : option ExecutionContext) (o : OperationOrchestrator) :
  pre_validation op = None -> post_validation op = None -> rollback op = None ->
  timeout_set op = None ->
  always_allowed (action op) ->
  (forall e, exists r e', execute_action (action op) e = (Ok r, e') /\ status r = SUCCESS) ->
  (forall k ps e, exists err e', save_state k ps e = (Raise err, e')) ->
  enable_learning o = true ->
  Z.of_nat (length (patterns o)) mod 10 = 9 ->
  retry_count op < max_retries op ->
  exists r o' evs,
    execute_operation op parent o = Some (r, set_retry_count op (retry_count op + 1), o')
    /\ status r = SUCCESS
    /\ trace o' = trace o ++ evs
    /\ executions evs = [id op; id op]
    /\ retry_counts evs = [retry_count op + 1]
    /\ length (patterns o') = (length (patterns o) + 2)%nat.
Proof.
  intros Hpre Hpost Hrb Hto Hallow Hexec Hsave Hlearn Hmod Hlt.
  (* one pass through the [try] block, from any state *)
  assert (forall op0 p o0 ,
            pre_validation op0 = None -> post_validation op0 = None ->
            rollback op0 = None -> timeout_set op0 = None ->
            action op0 = action op -> enable_learning o0 = true ->
            exists r e o1,
              attempt op0 p o0 =
                (if Z.of_nat (S (length (patterns o0))) mod 10 =? 0
                 then Failed e else Returned r,
                 mkExecutionContext (id op0) (utcnow (env o0)) None p, o1)
              /\ status r = SUCCESS
              /\ trace o1 = trace o0 ++ [EvValidate (id op0); EvExecute (id op0)]
              /\ length (patterns o1) = S (length (patterns o0))
              /\ enable_learning o1 = true) as Hpass.
  { intros op0 p o0 Hpre0 Hpost0 Hrb0 Hto0 Hact Hl0. unfold attempt. rewrite Hact.
    destruct (Hallow (env (record_event (EvValidate (id op0)) o0))) as (reason & e1 & ->).
    rewrite Hpre0. unfold after_pre_validation. rewrite Hrb0.
    unfold execute_with_timeout, _execute_action. rewrite Hto0, Hact.
    cbn [env record_event with_env with_executing].
    destruct (Hexec e1) as (r & e2 & -> & Hst).
    unfold after_execution. rewrite Hpost0.
    cbn [enable_learning with_env with_executing record_event status].
    rewrite Hl0, Hst, bool_decide_eq_true_2 by done. cbn [andb].
    unfold _learn_from_execution.
    cbn [patterns with_patterns with_env with_executing record_event env].
    rewrite length_app, Nat.add_1_r.
    destruct (_ =? 0).
    - match goal with |- context [save_state ?k ?ps ?e] =>
        destruct (Hsave k ps e) as (err & e' & ->) end.
      eexists _, err, _. split; [reflexivity|].
      repeat split; simpl; rewrite <- ?app_assoc, ?length_app, ?Nat.add_1_r; done.
    - eexists _, (OtherError ""), _. split; [reflexivity|].
      repeat split; simpl; rewrite <- ?app_assoc, ?length_app, ?Nat.add_1_r; done. }
  unfold execute_operation.
  destruct (Z.to_nat (max_retries op - retry_count op)) as [|fuel] eqn:Hfuel; [lia|].
  rewrite execute_operation_fuel_unfold.
  destruct (Hpass op parent o Hpre Hpost Hrb Hto eq_refl Hlearn)
    as (r1 & err & o1 & -> & _ & Htr1 & Hlen1 & Hlearn1).
  assert (Z.of_nat (S (length (patterns o))) mod 10 = 0) as Hten.
  { rewrite Nat2Z.inj_succ. unfold Z.succ. rewrite Z.add_mod, Hmod by lia. reflexivity. }
  rewrite Hten. cbn [Z.eqb]. unfold _handle_failure.
  destruct (Z.ltb_spec (retry_count op) (max_retries op)) as [_|?]; [|lia].
  set (op' := set_retry_count op (retry_count op + 1)).
  set (o2 := with_env _ _).
  rewrite execute_operation_fuel_unfold.
  destruct (Hpass op' (parent_context (mkExecutionContext (id op) (utcnow (env o)) None parent))
              o2 Hpre Hpost Hrb Hto eq_refl Hlearn1)
    as (r2 & err2 & o3 & -> & Hst2 & Htr2 & Hlen2 & _).
  assert (Z.of_nat (S (length (patterns o2))) mod 10 = 1) as Hone.
  { unfold o2. cbn [patterns with_env record_event]. rewrite Hlen1.
    rewrite !Nat2Z.inj_succ. unfold Z.succ.
    replace (Z.of_nat (length (patterns o)) + 1 + 1)
      with (Z.of_nat (length (patterns o)) + 2) by lia.
    rewrite Z.add_mod, Hmod by lia. reflexivity. }
  rewrite Hone. cbn [Z.eqb].
  exists r2, o3, ([EvValidate (id op); EvExecute (id op)]
                  ++ [EvRetry (id op) (retry_count op + 1)]
                  ++ [EvValidate (id op); EvExecute (id op)]).
  split; [done|]. split; [done|]. split.
  { rewrite Htr2. unfold o2. cbn [trace with_env record_event]. rewrite Htr1.
    by rewrite <- !app_assoc. }
  split; [done|]. split; [done|].
  rewrite Hlen2. unfold o2. cbn [patterns with_env record_event]. rewrite Hlen1. lia.
Qed.

(** A [FAILED] operation whose metadata sets [continue_on_failure] to a true
    value does not stop the sequence: the rest of the list runs from the
    state the operation left, and its results follow. *)
Theorem continue_on_failure_keeps_going
  (op : Operation) (rest : list Operation) (o o1 : OperationOrchestrator)
  (r : OperationResult) (op' : Operation) :
  execute_operation op None o = Some (r, op', o1) ->
  status r = FAILED ->
  truthy (dict_get "continue_on_failure" (metadata op)) = true ->
  exists rs rest' o2,
    execute_sequence rest o1 = Some (rs, rest', o2)
    /\ execute_sequence (op :: rest) o = Some (r :: rs, op' :: rest', o2).
Proof.
  intros Hex Hst Hcont.
  destruct (execute_sequence_returns rest o1) as (rs & rest' & o2 & _ & Hseq & _).
  exists rs, rest', o2. split; [done|].
  rewrite execute_sequence_unfold, Hex, Hseq. unfold stops_sequence, stops_on_failure.
  by rewrite Hcont, andb_false_r.
Qed.

End Engine.

(** *** A small world to run the orchestrator in

    The shared state is the clock.  The validator allows every action, a
    checkpoint is always ["cp"], restoring and saving succeed, and the
    executor takes a second: it raises for an action whose value is
    ["fail"] and reports success for any other. *)
#[export] Instance Scripted : Collaborators Z := {
  utcnow e := e;
  sleep_pow2 n e := e + 2 ^ n;
  validate_action _ e := (Ok (true, None), e);
  create_checkpoint e := (Ok "cp", e);
  restore_checkpoint _ e := (Ok tt, e);
  save_state _ _ e := (Ok tt, e);
  execute_action a e :=
    match value a with
    | PyStr "fail" => (Raise (RuntimeError "boom"), e + 1)
    | _ => (Ok {| operation_id := Interfaces.id a; status := SUCCESS; result := PyNone;
                   error := None; timestamp := e + 1; duration := None |}, e + 1)
    end
}.

(** [Operation(id=i, action=Action(i, CLICK, value=v), max_retries=n)] *)
Definition click (i : string) (v : PyValue) (n : Z) : @Operation Z :=
  {| id := i;
     action := {| Interfaces.id := i; type := CLICK; target := None; value := v;
                  Interfaces.metadata := [] |};
     pre_validation := None; post_validation := None; rollback := None;
     dependencies := ∅; metadata := []; retry_count := 0; max_retries := n;
     timeout := None |}.

Definition depends_on (op : @Operation Z) (deps : gset string) : @Operation Z :=
  {| id := id op; action := action op; pre_validation := pre_validation op;
     post_validation := post_validation op; rollback := rollback op;
     dependencies := deps; metadata := metadata op; retry_count := retry_count op;
     max_retries := max_retries op; timeout := timeout op |}.

Definition with_pre_validation (op : @Operation Z) (hook : Z -> outcome bool * Z)
  : @Operation Z :=
  {| id := id op; action := action op;
     pre_validation := Some hook;
     post_validation := post_validation op; rollback := rollback op;
     dependencies := dependencies op; metadata := metadata op;
     retry_count := retry_count op; max_retries := max_retries op;
     timeout := timeout op |}.

Definition with_rollback (op : @Operation Z) (hook : Z -> outcome unit * Z)
  : @Operation Z :=
  {| id := id op; action := action op;
     pre_validation := pre_validation op;
     post_validation := post_validation op; rollback := Some hook;
     dependencies := dependencies op; metadata := metadata op;
     retry_count := retry_count op; max_retries := max_retries op;
     timeout := timeout op |}.

(** The orchestrator as constructed by default, at clock reading 0. *)
Definition fresh : @OperationOrchestrator Z := new_orchestrator 0 4 true.

(** Operation A has no dependencies; B and C wait for each other. *)
Definition op_A : @Operation Z := click "A" PyNone 3.
Definition op_B : @Operation Z := depends_on (click "B" PyNone 3) {["C"]}.
Definition op_C : @Operation Z := depends_on (click "C" PyNone 3) {["B"]}.
Definition batch : list (@Operation Z) := [op_A; op_B; op_C].

Lemma batch_cycle : dependency_cycle [op_B; op_C].
Proof.
  split; [done|]. intros [|[|i]] a; simpl; intros [= <-].
  - eexists. split; [reflexivity|]. by apply elem_of_singleton.
  - eexists. split; [reflexivity|]. by apply elem_of_singleton.
Qed.

(** C1 on that batch: the call raises, and nothing has happened; A, which
    waits for nothing, has not run either. *)
Lemma cycle_raises_before_any_operation_witness :
  dependency_cycle [op_B; op_C]
  /\ [op_B; op_C] ⊆ batch
  /\ exists e o',
       execute_parallel batch fresh = Some (Raise e, o')
       /\ e = TypeError "unhashable type: 'Operation'"
       /\ o' = fresh
       /\ trace o' = []
       /\ executing o' = ∅.
Proof.
  assert ([op_B; op_C] ⊆ batch) as Hsub by apply sublist_subseteq, (sublist_drop batch 1).
  split; [exact batch_cycle|]. split; [exact Hsub|].
  exact (cycle_raises_before_any_operation batch [op_B; op_C] fresh batch_cycle Hsub).
Defined.

(** An operation whose pre-validation hook returns false every time. *)
Definition never_valid : @Operation Z :=
  with_pre_validation (click "V" PyNone 3) (fun e => (Ok false, e)).

Lemma scripted_always_allowed a : always_allowed a.
Proof. intros e. by eexists _, _. Qed.

(** C2 as worded fails: the failed pre-validation is retried three times,
    the retry count going from 0 to 3. *)
Lemma pre_validation_failure_retried : ~ validation_failure_is_terminal.
Proof.
  intros Hclaim.
  destruct (Hclaim never_valid None fresh (fun e => (Ok false, e)) eq_refl)
    as (r & op' & o' & evs & Hex & _ & Hrc & _).
  { intros e. by eexists. }
  { apply scripted_always_allowed. }
  vm_compute in Hex. injection Hex as _ <- _. discriminate Hrc.
Qed.

(** An operation the executor fails every time. *)
Definition always_failing : @Operation Z := click "F" (PyStr "fail") 3.

(** C4 on that operation: [FAILED] after the retry count has gone 1, 2, 3. *)
Lemma failing_operation_exhausts_retries_witness :
  rollback always_failing = None
  /\ every_attempt_fails always_failing None fresh
  /\ exists r op' o',
       execute_operation always_failing None fresh = Some (r, op', o')
       /\ status r = FAILED
       /\ retry_count op' = 3
       /\ retry_counts (trace o') = [1; 2; 3]
       /\ executions (trace o') = ["F"; "F"; "F"; "F"].
Proof.
  assert (every_attempt_fails always_failing None fresh) as Hfails
    by (vm_compute; exact I).
  split; [reflexivity|]. split; [exact Hfails|].
  destruct (failing_operation_exhausts_retries always_failing None fresh eq_refl Hfails)
    as (r & op' & o' & evs & Hex & Hst & _ & Hrc & _ & Htr & Hcounts & _).
  exists r, op', o'. simpl in Htr. subst evs.
  split; [done|]. split; [done|]. split; [by apply Hrc|]. split; [done|].
  vm_compute in Hex. by injection Hex as _ _ <-.
Defined.

(** An operation that comes with a retry count above [max_retries]. *)
Definition overdrawn : @Operation Z := set_retry_count (click "F" (PyStr "fail") 0) 1.

(** C4 as worded fails for it: its one attempt fails, it is not retried,
    and it keeps the retry count 1 although [max_retries] is 0. *)
Lemma overdrawn_operation_keeps_retry_count :
  ~ @failing_operation_ends_at_max_retries Z Scripted.
Proof.
  intros Hclaim.
  destruct (Hclaim overdrawn None fresh eq_refl) as (r & op' & o' & Hex & _ & Hrc).
  { vm_compute. exact I. }
  vm_compute in Hex. injection Hex as _ <- _. discriminate Hrc.
Qed.

(** The scenario of the specification: A succeeds, B fails and does not ask
    to continue, C is never run. *)
Definition seq_A : @Operation Z := click "A" PyNone 3.
Definition seq_B : @Operation Z := click "B" (PyStr "fail") 1.
Definition seq_C : @Operation Z := click "C" PyNone 3.

Lemma sequence_stops_at_first_failure_witness :
  exists rA A' o1 rB B' o2,
    execute_sequence [seq_A] fresh = Some ([rA], [A'], o1)
    /\ Forall2 (fun op r0 => stops_sequence op r0 = false) [seq_A] [rA]
    /\ execute_operation seq_B None o1 = Some (rB, B', o2)
    /\ status rB = FAILED
    /\ stops_on_failure seq_B = true
    /\ execute_sequence [seq_A; seq_B; seq_C] fresh = Some ([rA; rB], [A'; B'; seq_C], o2)
    /\ executions (trace o2) = ["A"; "B"; "B"].
Proof.
  destruct (execute_sequence [seq_A] fresh) as [[[rsA As] o1]|] eqn:HA;
    [|vm_compute in HA; discriminate HA].
  pose proof HA as HA'. vm_compute in HA'. injection HA' as <- <- <-.
  match type of HA with
  | _ = Some (_, _, ?o1) =>
      destruct (execute_operation seq_B None o1) as [[[rB B'] o2]|] eqn:HB;
        [|vm_compute in HB; discriminate HB]
  end.
  pose proof HB as HB'. vm_compute in HB'. injection HB' as <- <- <-.
  eexists _, _, _, _, _, _.
  split; [exact HA|].
  assert (Forall2 (fun (op : @Operation Z) r0 => stops_sequence op r0 = false) [seq_A]
            [{| operation_id := "A"; status := SUCCESS; result := PyNone; error := None;
                timestamp := 1; duration := Some 1 |}]) as Hgo
    by (constructor; [reflexivity|constructor]).
  split; [exact Hgo|]. split; [exact HB|]. split; [reflexivity|]. split; [reflexivity|].
  split; [|reflexivity].
  exact (proj1 (sequence_stops_at_first_failure [seq_A] seq_B [seq_C]
                  fresh _ _ _ _ _ _ HA Hgo HB eq_refl eq_refl)).
Defined.

(** An operation with a rollback hook that the executor fails, and that may
    not be retried: the checkpoint is restored and the result is
    [ROLLED_BACK]. *)
Definition rolled_back : @Operation Z :=
  with_rollback (click "R" (PyStr "fail") 0) (fun e => (Ok tt, e)).

(** C10 on a run: the rolled-back operation does not ask to continue, and
    the next operation runs all the same. *)
Lemma sequence_continues_unless_failed_witness :
  exists r op' o1,
    execute_operation rolled_back None fresh = Some (r, op', o1)
    /\ (status r = ROLLED_BACK \/ status r <> FAILED)
    /\ status r = ROLLED_BACK
    /\ stops_on_failure rolled_back = true
    /\ exists rs rest' o2,
         execute_sequence [rolled_back; seq_C] fresh = Some (r :: rs, op' :: rest', o2)
         /\ (status <$> rs) = [SUCCESS]
         /\ executions (trace o2) = ["R"; "C"].
Proof.
  destruct (execute_operation rolled_back None fresh) as [[[r op'] o1]|] eqn:HR;
    [|vm_compute in HR; discriminate HR].
  exists r, op', o1.
  assert (status r = ROLLED_BACK) as Hst by (vm_compute in HR; by injection HR as <- _ _).
  destruct (sequence_continues_unless_failed rolled_back [seq_C] fresh o1 r op' HR
              (or_introl Hst)) as (rs & rest' & o2 & Hrest & Hseq).
  split; [done|]. split; [by left|]. split; [done|]. split; [reflexivity|].
  exists rs, rest', o2. split; [exact Hseq|].
  vm_compute in HR. injection HR as _ _ <-.
  vm_compute in Hrest. by injection Hrest as <- _ <-.
Defined.

(** The allowed click of the small world runs once. *)
Lemma allowed_operation_runs_once_witness :
  let op := click "A" PyNone 3 in
  let r := {| operation_id := "A"; status := SUCCESS; result := PyNone; error := None;
              timestamp := 1; duration := None |} in
  pre_validation op = None /\ post_validation op = None /\ rollback op = None
  /\ timeout_set op = None
  /\ validate_action (action op) (env fresh) = (Ok (true, None), 0)
  /\ execute_action (action op) 0 = (Ok r, 1)
  /\ (forall ps (e : Z), exists e', save_state "execution_patterns" ps e = (Ok tt, e'))
  /\ exists o',
       execute_operation op None fresh
       = Some ({| operation_id := "A"; status := SUCCESS; result := PyNone; error := None;
                  timestamp := 1; duration := Some (1 - 0) |}, op, o')
       /\ trace o' = trace fresh ++ [EvValidate "A"; EvExecute "A"]
       /\ executing o' = delete "A" (executing fresh)
       /\ patterns o' = patterns fresh ++ [learned op
                           {| operation_id := "A"; status := SUCCESS; result := PyNone;
                              error := None; timestamp := 1; duration := Some (1 - 0) |}].
Proof.
  intros op r.
  assert (forall ps (e : Z), exists e', save_state "execution_patterns" ps e = (Ok tt, e'))
    as Hsave by (intros ps e; by eexists).
  repeat (split; [done|]).
  exact (allowed_operation_runs_once op None fresh None 0 1 r
           eq_refl eq_refl eq_refl eq_refl eq_refl eq_refl Hsave).
Defined.

(** The sequence of the specification with B asking to continue: C runs
    after B has failed. *)
Definition seq_B_continue : @Operation Z :=
  {| id := "B"; action := action seq_B;
     pre_validation := None; post_validation := None; rollback := None;
     dependencies := ∅; metadata := [("continue_on_failure", PyBool true)];
     retry_count := 0; max_retries := 1; timeout := None |}.

Lemma continue_on_failure_keeps_going_witness :
  exists r op' o1,
    execute_operation seq_B_continue None fresh = Some (r, op', o1)
    /\ status r = FAILED
    /\ truthy (dict_get "continue_on_failure" (metadata seq_B_continue)) = true
    /\ exists rs rest' o2,
         execute_sequence [seq_C] o1 = Some (rs, rest', o2)
         /\ execute_sequence [seq_B_continue; seq_C] fresh = Some (r :: rs, op' :: rest', o2).
Proof.
  destruct (execute_operation seq_B_continue None fresh) as [[[r op'] o1]|] eqn:HB;
    [|vm_compute in HB; discriminate HB].
  exists r, op', o1.
  assert (status r = FAILED) as Hst by (vm_compute in HB; by injection HB as <- _ _).
  split; [done|]. split; [done|]. split; [reflexivity|].
  exact (continue_on_failure_keeps_going seq_B_continue [seq_C] fresh o1 r op' HB Hst eq_refl).
Defined.

(** *** A world with a stopwatch

    The shared state is the clock and the time spent asleep.  The validator
    allows every action, checkpoints are taken and restored, patterns are
    saved, and the executor succeeds and takes a second. *)
#[export] Instance Stopwatch : Collaborators (Z * Z) := {
  utcnow e := e.1;
  sleep_pow2 n e := (e.1 + 2 ^ n, e.2 + 2 ^ n);
  validate_action _ e := (Ok (true, None), e);
  create_checkpoint e := (Ok "cp", e);
  restore_checkpoint _ e := (Ok tt, e);
  save_state _ _ e := (Ok tt, e);
  execute_action a e :=
    (Ok {| operation_id := Interfaces.id a; status := SUCCESS; result := PyNone;
           error := None; timestamp := e.1 + 1; duration := None |}, (e.1 + 1, e.2))
}.

(** An operation whose pre-validation hook returns false, and one whose
    post-validation hook returns false and which has a rollback hook. *)
Definition unverified : @Operation (Z * Z) :=
  {| id := "V";
     action := {| Interfaces.id := "V"; type := CLICK; target := None; value := PyNone;
                  Interfaces.metadata := [] |};
     pre_validation := Some (fun e => (Ok false, e)); post_validation := None;
     rollback := None;
     dependencies := ∅; metadata := []; retry_count := 0; max_retries := 3;
     timeout := None |}.

Definition unconfirmed : @Operation (Z * Z) :=
  {| id := "W";
     action := {| Interfaces.id := "W"; type := CLICK; target := None; value := PyNone;
                  Interfaces.metadata := [] |};
     pre_validation := None; post_validation := Some (fun _ e => (Ok false, e));
     rollback := Some (fun e => (Ok tt, e));
     dependencies := ∅; metadata := []; retry_count := 0; max_retries := 3;
     timeout := None |}.

Lemma stopwatch_always_allowed (a : Action) : always_allowed (Env := Z * Z) a.
Proof. intros e. by eexists _, _. Qed.

Lemma stopwatch_only_sleep_sleeps (op : @Operation (Z * Z)) :
  (forall hook e, pre_validation op = Some hook -> (hook e).2.2 = e.2) ->
  (forall hook r e, post_validation op = Some hook -> (hook r e).2.2 = e.2) ->
  (forall hook e, rollback op = Some hook -> (hook e).2.2 = e.2) ->
  only_sleep_sleeps snd op.
Proof. intros Hpre Hpost Hrb. split; try done; intros; by auto. Qed.

(** C2 on these operations, started at clock reading 0 with nothing slept.
    Both are retried three times and 2 + 4 + 8 seconds are slept; the first
    ends [FAILED] without the executor having been called, the second is
    executed four times and ends [ROLLED_BACK]. *)
Lemma validation_failure_is_retried_witness :
  let o := new_orchestrator (0, 0) 4 true in
  always_allowed (action unverified)
  /\ always_allowed (action unconfirmed)
  /\ only_sleep_sleeps snd unverified
  /\ only_sleep_sleeps snd unconfirmed
  /\ rollback_succeeds unconfirmed
  /\ (exists r o',
        execute_operation unverified None o = Some (r, set_retry_count unverified 3, o')
        /\ status r = FAILED
        /\ executions (trace o') = []
        /\ retry_counts (trace o') = [1; 2; 3]
        /\ (env o').2 = 14)
  /\ (exists r o',
        execute_operation unconfirmed None o = Some (r, set_retry_count unconfirmed 3, o')
        /\ status r = ROLLED_BACK
        /\ executions (trace o') = ["W"; "W"; "W"; "W"]
        /\ retry_counts (trace o') = [1; 2; 3]
        /\ (env o').2 = 14).
Proof.
  intros o.
  assert (only_sleep_sleeps snd unverified) as Hq1.
  { apply stopwatch_only_sleep_sleeps; [|done..]. by intros hook e [= <-]. }
  assert (only_sleep_sleeps snd unconfirmed) as Hq2.
  { apply stopwatch_only_sleep_sleeps; [done| |].
    - by intros hook r e [= <-].
    - by intros hook e [= <-]. }
  assert (rollback_succeeds unconfirmed) as Hgoes.
  { split; [|split; [|split]].
    - eexists. split; [reflexivity|]. intros e. by eexists.
    - intros pre [=].
    - intros e. by exists "cp", e.
    - intros cp e. by eexists. }
  split; [apply stopwatch_always_allowed|]. split; [apply stopwatch_always_allowed|].
  split; [exact Hq1|]. split; [exact Hq2|]. split; [exact Hgoes|]. split.
  - destruct (proj1 (validation_failure_is_retried unverified None o
                       (stopwatch_always_allowed _))
                (fun e => (Ok false, e)) eq_refl)
      as (r & o' & evs & Hex & Hst & _ & Htr & Hexec & Hrc & Hsl).
    { intros e. by eexists. }
    exists r, o'. simpl in Htr. subst evs.
    split; [exact Hex|]. split; [done|]. split; [done|]. split; [done|].
    rewrite (Hsl snd Hq1) by done. unfold backoff. by rewrite Hrc.
  - destruct (proj2 (validation_failure_is_retried unconfirmed None o
                       (stopwatch_always_allowed _))
                (fun _ e => (Ok false, e)) eq_refl)
      as (r & o' & evs & Hex & _ & _ & Hst & Htr & Hrc & Hsl).
    { intros r e. by eexists. }
    exists r, o'. simpl in Htr. subst evs.
    split; [exact Hex|]. split; [by apply Hst|].
    split; [vm_compute in Hex; by injection Hex as _ <-|]. split; [done|].
    rewrite (Hsl snd Hq2) by done. unfold backoff. by rewrite Hrc.
Defined.

(** *** A stricter small world

    The shared state is the clock again.  The validator turns down every
    [EXECUTE] action with the sandbox reason and allows the rest, the
    executor succeeds and takes a second, and saving patterns fails. *)
#[export] Instance Strict : Collaborators nat := {
  utcnow e := Z.of_nat e;
  sleep_pow2 n e := (e + Z.to_nat (2 ^ n))%nat;
  validate_action a e :=
    (if bool_decide (type a = EXECUTE)
     then Ok (false, Some "Action not allowed in sandbox mode")
     else Ok (true, None), e);
  create_checkpoint e := (Ok "cp", e);
  restore_checkpoint _ e := (Ok tt, e);
  save_state _ _ e := (Raise (OtherError "disk full"), e);
  execute_action a e :=
    (Ok {| operation_id := Interfaces.id a; status := SUCCESS; result := PyNone;
           error := None; timestamp := Z.of_nat (S e); duration := None |}, S e)
}.

(** [Operation(id=i, action=Action(i, t), max_retries=3)] *)
Definition plain (i : string) (t : ActionType) : @Operation nat :=
  {| id := i;
     action := {| Interfaces.id := i; type := t; target := None; value := PyNone;
                  Interfaces.metadata := [] |};
     pre_validation := None; post_validation := None; rollback := None;
     dependencies := ∅; metadata := []; retry_count := 0; max_retries := 3;
     timeout := None |}.

(** A shell command is turned down, and that is the end of it. *)
Lemma denied_operation_is_not_retried_witness :
  let op := plain "X" EXECUTE in
  let o := new_orchestrator 0%nat 4 true in
  let o' := with_env (record_event (EvValidate "X") o) 0%nat in
  validate_action (action op) (env o)
    = (Ok (false, Some "Action not allowed in sandbox mode"), 0%nat)
  /\ execute_operation op None o
     = Some (make_result op FAILED (PermissionError "Action not allowed in sandbox mode") o',
             op, o')
  /\ trace o' = [EvValidate "X"].
Proof.
  intros op o o'. split; [reflexivity|].
  exact (denied_operation_is_not_retried op None o
           (Some "Action not allowed in sandbox mode") 0%nat eq_refl).
Defined.

(** Nine patterns are learned already; the tenth cannot be saved, and the
    click is carried out twice. *)
Lemma failed_pattern_save_repeats_the_action_witness :
  let op := plain "K" CLICK in
  let old := {| pattern_action_type := CLICK; pattern_metadata := [];
                pattern_duration := Some 1; pattern_timestamp := 0 |} in
  let o := {| env := 0%nat; max_parallel := 4; enable_learning := true;
              executing := ∅; patterns := replicate 9 old; trace := [] |} in
  pre_validation op = None /\ post_validation op = None /\ rollback op = None
  /\ timeout_set op = None
  /\ always_allowed (action op)
  /\ (forall e : nat, exists r e',
        execute_action (action op) e = (Ok r, e') /\ status r = SUCCESS)
  /\ (forall k ps (e : nat), exists err e', save_state k ps e = (Raise err, e'))
  /\ enable_learning o = true
  /\ Z.of_nat (length (patterns o)) mod 10 = 9
  /\ retry_count op < max_retries op
  /\ exists r o' evs,
       execute_operation op None o = Some (r, set_retry_count op (retry_count op + 1), o')
       /\ status r = SUCCESS
       /\ trace o' = trace o ++ evs
       /\ executions evs = ["K"; "K"]
       /\ retry_counts evs = [retry_count op + 1]
       /\ length (patterns o') = (length (patterns o) + 2)%nat.
Proof.
  intros op old o.
  assert (always_allowed (action op)) as Hallow by (intros e; by eexists _, _).
  assert (forall e : nat, exists r e',
            execute_action (action op) e = (Ok r, e') /\ status r = SUCCESS) as Hexec
    by (intros e; by eexists _, _).
  assert (forall k ps (e : nat), exists err e', save_state k ps e = (Raise err, e')) as Hsave
    by (intros k ps e; by eexists _, _).
  assert (retry_count op < max_retries op) as Hlt by (simpl; lia).
  repeat (split; [done|]).
  exact (failed_pattern_save_repeats_the_action op None o
           eq_refl eq_refl eq_refl eq_refl Hallow Hexec Hsave eq_refl eq_refl Hlt).
Defined.

End Orchestrator.

(** ** [operate/core/performance.py]: the optimizer of action sequences *)

Module Optimizer.

Import Py Interfaces.

#[export] Instance Target_countable : Countable Target :=
  inj_countable'
    (fun t => match t with Coordinate x y => inl (x, y) | TargetStr s => inr s end)
    (fun c => match c with inl (x, y) => Coordinate x y | inr s => TargetStr s end)
    (fun t => match t with Coordinate _ _ => eq_refl | TargetStr _ => eq_refl end).

(** [PerformanceOptimizer._can_batch].  Targets are compared with [!=]: a
    [Coordinate] is a dataclass and compares by its fields, a string by its
    characters, and values of different kinds differ. *)
Definition _can_batch (op1 op2 : Action) : bool :=
  if bool_decide (type op1 = type op2) && negb (bool_decide (target op1 = target op2))
  then true
  else if bool_decide (type op1 = SCREENSHOT) && bool_decide (type op2 = SCREENSHOT)
  then true
  else false.

(** One turn of the loop of [batch_similar_operations], on the pair
    [(batches, current_batch)]. *)
Definition batch_step (st : list (list Action) * list Action) (op : Action)
  : list (list Action) * list Action :=
  let '(batches, current_batch) := st in
  match last current_batch with
  | None => (batches, current_batch ++ [op])
  | Some previous =>
      if _can_batch previous op then (batches, current_batch ++ [op])
      else (batches ++ [current_batch], [op])
  end.

(** [PerformanceOptimizer.batch_similar_operations] *)
Definition batch_similar_operations (operations : list Action) : list (list Action) :=
  let '(batches, current_batch) := fold_left batch_step operations ([], []) in
  match current_batch with
  | [] => batches
  | _ :: _ => batches ++ [current_batch]
  end.

(** Hashing a target, as a [set] does before it looks the target up or adds
    it.  [Coordinate] is declared with a plain [@dataclass], which defines
    [__eq__] and so sets [__hash__] to [None]; [None] and strings hash. *)
Definition hash_target (t : option Target) : outcome unit :=
  match t with
  | Some (Coordinate _ _) => Raise (TypeError "unhashable type: 'Coordinate'")
  | _ => Ok tt
  end.

(** The first loop of [optimize_operation_sequence]: the operations kept,
    given the targets seen so far.  The loop over the operations is the
    recursion on the list. *)
Fixpoint remove_redundant (operations : list Action) (seen_targets : gset (option Target))
  : outcome (list Action) :=
  match operations with
  | [] => Ok []
  | op :: rest =>
      if bool_decide (type op = CLICK) then
        match hash_target (target op) with
        | Raise e => Raise e
        | Ok _ =>
            if bool_decide (target op ∈ seen_targets) then remove_redundant rest seen_targets
            else
              match remove_redundant rest ({[target op]} ∪ seen_targets) with
              | Ok optimized => Ok (op :: optimized)
              | Raise e => Raise e
              end
        end
      else
        match remove_redundant rest seen_targets with
        | Ok optimized => Ok (op :: optimized)
        | Raise e => Raise e
        end
  end.

(** [PerformanceOptimizer.optimize_operation_sequence] *)
Definition optimize_operation_sequence (operations : list Action) : outcome (list Action) :=
  match remove_redundant operations ∅ with
  | Raise e => Raise e
  | Ok optimized =>
      let screenshots := filter (fun op => type op = SCREENSHOT) optimized in
      let others := filter (fun op => type op <> SCREENSHOT) optimized in
      Ok (screenshots ++ others)
  end.

(** *** Batches *)

(** Neighbours in a batch can be batched. *)
Inductive chain : list Action -> Prop :=
| chain_nil : chain []
| chain_one op : chain [op]
| chain_cons op1 op2 rest :
    _can_batch op1 op2 = true -> chain (op2 :: rest) -> chain (op1 :: op2 :: rest).

(** The last operation of a batch cannot be batched with the first of the
    next. *)
Inductive separated : list (list Action) -> Prop :=
| separated_nil : separated []
| separated_one b : separated [b]
| separated_cons b1 b2 rest :
    (forall op1 op2, last b1 = Some op1 -> head b2 = Some op2 -> _can_batch op1 op2 = false) ->
    separated (b2 :: rest) -> separated (b1 :: b2 :: rest).

Lemma chain_snoc b previous op :
  chain b -> last b = Some previous -> _can_batch previous op = true -> chain (b ++ [op]).
Proof.
  induction 1 as [|x|x y rest Hxy Hc IH]; intros Hlast Hcb.
  - done.
  - simpl in Hlast. injection Hlast as ->. simpl. by repeat constructor.
  - simpl app. constructor; [done|]. apply IH; [|done].
    by rewrite last_cons_cons in Hlast.
Qed.

Lemma head_snoc_nonempty (b : list Action) op : b <> [] -> head (b ++ [op]) = head b.
Proof. by destruct b. Qed.

(** Growing the last batch keeps the batches apart. *)
Lemma separated_grow bs b op :
  b <> [] -> separated (bs ++ [b]) -> separated (bs ++ [b ++ [op]]).
Proof.
  intros Hb. induction bs as [|b1 bs IH]; simpl; intros Hs; [constructor|].
  destruct bs as [|b2 bs]; simpl in *.
  - inversion Hs as [| |? ? ? Hsep Hrest]; subst. constructor; [|constructor].
    intros op1 op2 Hl Hh. rewrite head_snoc_nonempty in Hh by done. by apply Hsep.
  - inversion Hs as [| |? ? ? Hsep Hrest]; subst. constructor; [done|]. by apply IH.
Qed.

(** Opening a batch with an operation that cannot join the last one keeps
    the batches apart. *)
Lemma separated_open bs b previous op :
  last b = Some previous -> _can_batch previous op = false ->
  separated (bs ++ [b]) -> separated ((bs ++ [b]) ++ [[op]]).
Proof.
  intros Hlast Hcb. induction bs as [|b1 bs IH]; simpl; intros Hs.
  - constructor; [|constructor]. intros op1 op2 Hl Hh.
    simpl in Hh. injection Hh as <-. congruence.
  - destruct bs as [|b2 bs]; simpl in *;
      inversion Hs as [| |? ? ? Hsep Hrest]; subst; constructor; try done; by apply IH.
Qed.

(** What the loop keeps true of [batches] and [current_batch] after the
    operations [done]. *)
Record batching (done : list Action) (st : list (list Action) * list Action) : Prop := {
  batching_concat : concat st.1 ++ st.2 = done;
  batching_nonempty : Forall (fun b => b <> []) st.1;
  batching_chains : Forall chain (st.1 ++ [st.2]);
  batching_separated : separated (st.1 ++ [st.2]);
  batching_first : st.2 = [] -> st.1 = []
}.

Lemma batch_step_batching done st op :
  batching done st -> batching (done ++ [op]) (batch_step st op).
Proof.
  destruct st as [batches current]. intros [Hc Hn Hch Hs Hf]. simpl in *.
  destruct (last current) as [previous|] eqn:Hlast.
  - assert (current <> []) as Hne by (by destruct current).
    apply Forall_app in Hch as [Hch1 Hch2].
    apply Forall_cons in Hch2 as [Hcur _].
    destruct (_can_batch previous op) eqn:Hcb; constructor; simpl.
    + by rewrite app_assoc, Hc.
    + done.
    + apply Forall_app. split; [done|]. constructor; [|constructor].
      by eapply chain_snoc.
    + by apply separated_grow.
    + intros H. by destruct current.
    + by rewrite concat_app, <- Hc, <- !app_assoc; simpl; rewrite app_nil_r.
    + apply Forall_app. split; [done|]. by constructor.
    + apply Forall_app. split; [|repeat constructor].
      apply Forall_app. split; [done|]. by constructor.
    + by eapply separated_open.
    + done.
  - apply last_None in Hlast. subst current. rewrite (Hf eq_refl) in *.
    simpl in Hc. subst. constructor; simpl; try done; repeat constructor.
Qed.

Lemma fold_batching operations done st :
  batching done st -> batching (done ++ operations) (fold_left batch_step operations st).
Proof.
  revert done st. induction operations as [|op operations IH]; intros done st Hst; simpl.
  - by rewrite app_nil_r.
  - replace (done ++ op :: operations) with ((done ++ [op]) ++ operations)
      by (by rewrite <- app_assoc).
    apply IH. by apply batch_step_batching.
Qed.

(** [batch_similar_operations] cuts the list into its maximal runs of
    batchable neighbours: the batches put end to end are the operations, in
    order and with nothing lost or added; no batch is empty; inside a batch
    every operation can be batched with the one before it; and the first
    operation of a batch cannot be batched with the last of the batch
    before. *)
Theorem batches_are_maximal_runs (operations : list Action) :
  let batches := batch_similar_operations operations in
  concat batches = operations
  /\ Forall (fun b => b <> []) batches
  /\ Forall chain batches
  /\ separated batches.
Proof.
  unfold batch_similar_operations.
  pose proof (fold_batching operations [] ([], [])) as Hb. simpl in Hb.
  destruct Hb as [Hc Hn Hch Hs Hf].
  { constructor; simpl; try done; repeat constructor. }
  destruct (fold_left batch_step operations ([], [])) as [batches current]. simpl in *.
  destruct current as [|op current].
  - rewrite (Hf eq_refl) in *. rewrite app_nil_r in Hc. simpl in *.
    repeat split; try done; constructor.
  - split; [by rewrite concat_app; simpl; rewrite app_nil_r|].
    split; [|done]. apply Forall_app. split; [done|]. by repeat constructor.
Qed.

(** *** Redundant clicks *)

(** A click on a [Coordinate]. *)
Definition coordinate_click (op : Action) : Prop :=
  type op = CLICK /\ exists x y, target op = Some (Coordinate x y).

Lemma hash_target_raises t :
  (exists e, hash_target t = Raise e) <-> exists x y, t = Some (Coordinate x y).
Proof.
  split.
  - intros [e He]. destruct t as [[x y|s]|]; try done. by exists x, y.
  - intros (x & y & ->). by eexists.
Qed.

Lemma remove_redundant_raises operations seen :
  (exists e, remove_redundant operations seen = Raise e)
  <-> Exists coordinate_click operations.
Proof.
  revert seen. induction operations as [|op rest IH]; intros seen; simpl.
  - split; [by intros [e ?] | by intros ?%Exists_nil].
  - rewrite Exists_cons. unfold coordinate_click at 1.
    destruct (bool_decide_reflect (type op = CLICK)) as [Hclick|Hother].
    + destruct (hash_target (target op)) as [[]|e] eqn:Hhash.
      * assert (~ exists x y, target op = Some (Coordinate x y)) as Hno.
        { intros H%hash_target_raises. destruct H as [e He]. congruence. }
        destruct (bool_decide (target op ∈ seen)).
        -- rewrite IH. tauto.
        -- specialize (IH ({[target op]} ∪ seen)).
           destruct (remove_redundant rest ({[target op]} ∪ seen)) as [l|e].
           ++ split; [by intros [e ?]|]. intros [[_ ?]|H]; [done|].
              apply IH in H as [e ?]. done.
           ++ split; [|by eexists]. intros _. right. apply IH. by eexists.
      * split; [|by eexists]. intros _. left. split; [done|].
        apply hash_target_raises. by eexists.
    + specialize (IH seen). destruct (remove_redundant rest seen) as [l|e].
      * split; [by intros [e ?]|]. intros [[? _]|H]; [done|].
        apply IH in H as [e ?]. done.
      * split; [|by eexists]. intros _. right. apply IH. by eexists.
Qed.

(** [optimize_operation_sequence] cannot take a click on a coordinate: the
    targets of clicks are kept in a [set], and a [Coordinate] cannot be
    hashed.  The call raises (a [TypeError]) exactly when some operation of
    the list is a [CLICK] whose target is a [Coordinate]; no result is
    returned then, whatever else the list holds. *)
Theorem coordinate_click_breaks_optimizer (operations : list Action) :
  (exists e, optimize_operation_sequence operations = Raise e)
  <-> Exists coordinate_click operations.
Proof.
  rewrite <- (remove_redundant_raises operations ∅). unfold optimize_operation_sequence.
  destruct (remove_redundant operations ∅) as [l|e].
  - split; by intros [e ?].
  - split; intros _; by eexists.
Qed.

(** The targets of the clicks of a list. *)
Definition click_targets (l : list Action) : list (option Target) :=
  target <$> filter (fun op => type op = CLICK) l.

Lemma click_targets_cons op l :
  click_targets (op :: l) =
  if bool_decide (type op = CLICK) then target op :: click_targets l else click_targets l.
Proof.
  unfold click_targets. rewrite filter_cons.
  destruct (decide (type op = CLICK)) as [H|H].
  - by rewrite bool_decide_eq_true_2.
  - by rewrite bool_decide_eq_false_2.
Qed.

(** What the first loop returns: the operations in their order, without the
    clicks whose target was seen before. *)
Lemma remove_redundant_spec operations seen l :
  remove_redundant operations seen = Ok l ->
  l `sublist_of` operations
  /\ filter (fun op => type op <> CLICK) l = filter (fun op => type op <> CLICK) operations
  /\ NoDup (click_targets l)
  /\ (forall t, t ∈ click_targets l -> t ∉ seen)
  /\ (forall t, t ∈ click_targets operations -> t ∈ seen \/ t ∈ click_targets l).
Proof.
  revert seen l. induction operations as [|op rest IH]; intros seen l; simpl.
  - intros [= <-]. split; [done|]. split; [done|]. split; [constructor|].
    split; intros t Ht; by apply not_elem_of_nil in Ht.
  - rewrite !filter_cons, click_targets_cons.
    destruct (bool_decide_reflect (type op = CLICK)) as [Hclick|Hother].
    + destruct (decide (type op <> CLICK)) as [?|_]; [done|].
      destruct (hash_target (target op)) as [[]|e]; [|done].
      destruct (bool_decide_reflect (target op ∈ seen)) as [Hseen|Hnew].
      * intros Hl. destruct (IH seen l Hl) as (Hsub & Hf & Hnd & Hfresh & Hall).
        split; [by apply sublist_cons|]. repeat (split; [done|]).
        intros t [->|Ht]%elem_of_cons; [by left|by apply Hall].
      * destruct (remove_redundant rest ({[target op]} ∪ seen)) as [l'|e] eqn:Hl'; [|done].
        intros [= <-]. destruct (IH _ l' Hl') as (Hsub & Hf & Hnd & Hfresh & Hall).
        rewrite click_targets_cons, bool_decide_eq_true_2 by done.
        rewrite filter_cons. destruct (decide (type op <> CLICK)) as [?|_]; [done|].
        split; [by apply sublist_skip|]. split; [done|]. split; [|split].
        -- apply NoDup_cons. split; [|done]. intros Hin.
           apply (Hfresh _ Hin). apply elem_of_union. left. by apply elem_of_singleton.
        -- intros t [->|Ht]%elem_of_cons; [done|].
           intros Hin. apply (Hfresh _ Ht). apply elem_of_union. by right.
        -- intros t [->|Ht]%elem_of_cons; [right; left|].
           destruct (Hall t Ht) as [[->%elem_of_singleton|?]%elem_of_union|?].
           ++ right. left.
           ++ by left.
           ++ right. by right.
    + destruct (decide (type op <> CLICK)) as [_|?]; [|done].
      destruct (remove_redundant rest seen) as [l'|e] eqn:Hl'; [|done].
      intros [= <-]. destruct (IH _ l' Hl') as (Hsub & Hf & Hnd & Hfresh & Hall).
      rewrite click_targets_cons, bool_decide_eq_false_2 by done.
      rewrite filter_cons. destruct (decide (type op <> CLICK)) as [_|?]; [|done].
      split; [by apply sublist_skip|]. split; [by rewrite Hf|]. done.
Qed.

Lemma filter_filter_and {A} (P Q : A -> Prop) `{!forall x, Decision (P x)}
  `{!forall x, Decision (Q x)} (l : list A) :
  filter P (filter Q l) = filter (fun x => P x /\ Q x) l.
Proof.
  induction l as [|x l IH]; [done|]. rewrite !filter_cons.
  destruct (decide (Q x)) as [HQ|HQ].
  - rewrite filter_cons. destruct (decide (P x)) as [HP|HP].
    + rewrite decide_True by done. by rewrite IH.
    + rewrite decide_False by tauto. done.
  - rewrite decide_False by tauto. done.
Qed.

(** Putting the screenshots first does not touch the clicks. *)
Lemma click_targets_reordered (optimized : list Action) :
  click_targets (filter (fun op => type op = SCREENSHOT) optimized
                 ++ filter (fun op => type op <> SCREENSHOT) optimized)
  = click_targets optimized.
Proof.
  unfold click_targets. rewrite filter_app, !filter_filter_and.
  assert (filter (fun op => type op = CLICK /\ type op = SCREENSHOT) optimized = []) as ->.
  { induction optimized as [|op l IH]; [done|]. rewrite filter_cons.
    destruct (decide _) as [[H1 H2]|_]; [congruence|done]. }
  simpl. f_equal. apply list_filter_iff. intros op. split; [tauto|].
  intros H. split; [done|]. congruence.
Qed.

(** The result of [optimize_operation_sequence], when it returns one: the
    screenshots of the list come first, all of them and in their order;
    then the other operations that are kept, in their order; every
    operation that is neither a click nor a screenshot is kept; of the
    clicks, no two kept have the same target, and every target clicked in
    the list is clicked once in the result. *)
Theorem optimized_sequence_shape (operations l : list Action) :
  optimize_operation_sequence operations = Ok l ->
  exists others,
    l = filter (fun op => type op = SCREENSHOT) operations ++ others
    /\ others `sublist_of` operations
    /\ Forall (fun op => type op <> SCREENSHOT) others
    /\ filter (fun op => type op <> CLICK) others
       = filter (fun op => type op <> CLICK /\ type op <> SCREENSHOT) operations
    /\ NoDup (click_targets l)
    /\ (forall t, t ∈ click_targets operations <-> t ∈ click_targets l).
Proof.
  unfold optimize_operation_sequence.
  destruct (remove_redundant operations ∅) as [optimized|e] eqn:Hopt; [|done].
  intros [= <-].
  destruct (remove_redundant_spec operations ∅ optimized Hopt)
    as (Hsub & Hf & Hnd & _ & Hall).
  assert (forall t, t ∈ click_targets optimized -> t ∈ click_targets operations) as Hback.
  { intros t Ht. unfold click_targets in *. apply list_elem_of_fmap in Ht as (op & -> & Hop).
    apply list_elem_of_fmap. exists op. split; [done|].
    apply list_elem_of_filter in Hop as [Hc Hin]. apply list_elem_of_filter.
    split; [done|]. eapply sublist_subseteq; [exact Hsub|done]. }
  pose proof (click_targets_reordered optimized) as Hclicks.
  exists (filter (fun op => type op <> SCREENSHOT) optimized).
  split; [|split; [|split; [|split; [|split]]]].
  - f_equal. clear -Hf.
    assert (forall l : list Action,
              filter (fun op => type op = SCREENSHOT) l
              = filter (fun op => type op = SCREENSHOT) (filter (fun op => type op <> CLICK) l))
      as Hvia.
    { intros l. rewrite filter_filter_and. apply list_filter_iff.
      intros op. split; [|tauto]. intros H. split; [done|]. congruence. }
    by rewrite (Hvia optimized), (Hvia operations), Hf.
  - etrans; [apply sublist_filter|done].
  - apply Forall_forall. intros op Hop. by apply list_elem_of_filter in Hop as [? _].
  - rewrite filter_filter_and.
    assert (forall l : list Action,
              filter (fun op => type op <> CLICK /\ type op <> SCREENSHOT) l
              = filter (fun op => type op <> SCREENSHOT) (filter (fun op => type op <> CLICK) l))
      as Hvia.
    { intros l. rewrite filter_filter_and. apply list_filter_iff. intros op. tauto. }
    by rewrite (Hvia optimized), (Hvia operations), Hf.
  - by rewrite Hclicks.
  - intros t. rewrite Hclicks. split; [|by apply Hback].
    intros Ht. destruct (Hall t Ht) as [Hempty|?]; [|done].
    by apply not_elem_of_empty in Hempty.
Qed.

(** A list whose clicks have targets that hash, differ from each other and
    were not seen before goes through the first loop unchanged. *)
Lemma remove_redundant_fixed l seen :
  Forall (fun op => ~ coordinate_click op) l ->
  NoDup (click_targets l) ->
  (forall t, t ∈ click_targets l -> t ∉ seen) ->
  remove_redundant l seen = Ok l.
Proof.
  revert seen. induction l as [|op l IH]; intros seen Hhash Hnd Hfresh; [done|].
  apply Forall_cons in Hhash as [Hop Hhash]. simpl.
  rewrite click_targets_cons in Hnd, Hfresh.
  destruct (bool_decide_reflect (type op = CLICK)) as [Hclick|Hother].
  - apply NoDup_cons in Hnd as [Hnew Hnd].
    destruct (hash_target (target op)) as [[]|e] eqn:Hh.
    2:{ exfalso. apply Hop. split; [done|]. apply hash_target_raises. by eexists. }
    rewrite bool_decide_eq_false_2 by (apply Hfresh; left).
    rewrite IH; [done|done|done|].
    intros t Ht [->%elem_of_singleton|Hin]%elem_of_union; [done|].
    apply (Hfresh t); [by right|done].
  - by rewrite IH.
Qed.

(** Optimizing twice is optimizing once: a list that
    [optimize_operation_sequence] has returned is returned unchanged when it
    is optimized again. *)
Theorem optimizing_is_idempotent (operations l : list Action) :
  optimize_operation_sequence operations = Ok l ->
  optimize_operation_sequence l = Ok l.
Proof.
  unfold optimize_operation_sequence at 1.
  destruct (remove_redundant operations ∅) as [optimized|e] eqn:Hrr; [|done].
  intros [= <-].
  assert (Forall (fun op => ~ coordinate_click op) operations) as Hhash.
  { apply Forall_forall. intros op Hin Hcc.
    assert (exists e, remove_redundant operations ∅ = Raise e) as [e He].
    { apply remove_redundant_raises. apply Exists_exists. by exists op. }
    congruence. }
  destruct (remove_redundant_spec operations ∅ optimized Hrr) as (Hsub & _ & Hnd & _ & _).
  set (S := filter (fun op => type op = SCREENSHOT) optimized).
  set (O := filter (fun op => type op <> SCREENSHOT) optimized).
  pose proof (click_targets_reordered optimized) as Hclicks. fold S O in Hclicks.
  unfold optimize_operation_sequence. rewrite remove_redundant_fixed.
  - f_equal. rewrite !filter_app. unfold S, O. rewrite !filter_filter_and.
    assert (forall P Q : Action -> Prop, forall (HP : forall x, Decision (P x))
              (HQ : forall x, Decision (Q x)) (k : list Action),
              (forall x, P x -> Q x -> False) -> filter (fun x => P x /\ Q x) k = []) as Hnone.
    { intros P Q HP HQ k Hex. induction k as [|x k IH]; [done|]. rewrite filter_cons.
      destruct (decide _) as [[H1 H2]|_]; [by destruct (Hex x)|done]. }
    rewrite (Hnone (fun op => type op = SCREENSHOT) (fun op => type op <> SCREENSHOT))
      by (intros x H1 H2; done).
    rewrite (Hnone (fun op => type op <> SCREENSHOT) (fun op => type op = SCREENSHOT))
      by (intros x H1 H2; done).
    rewrite app_nil_r. simpl. f_equal; apply list_filter_iff; intros op; tauto.
  - apply Forall_forall. intros op Hin. rewrite Forall_forall in Hhash. apply Hhash.
    eapply sublist_subseteq; [exact Hsub|].
    apply elem_of_app in Hin as [Hin|Hin]; by apply list_elem_of_filter in Hin as [_ ?].
  - by rewrite Hclicks.
  - intros t _. apply not_elem_of_empty.
Qed.

(** A short session: two clicks on the same button with typing in between,
    a click on another button, and two screenshots. *)
Definition act (i : string) (t : ActionType) (tgt : option Target) : Action :=
  {| id := i; type := t; target := tgt; value := PyNone; metadata := [] |}.

Definition session : list Action :=
  [act "1" CLICK (Some (TargetStr "ok")); act "2" SCREENSHOT None;
   act "3" TYPE (Some (TargetStr "name")); act "4" CLICK (Some (TargetStr "ok"));
   act "5" CLICK (Some (TargetStr "cancel")); act "6" SCREENSHOT None].

Definition optimized_session : list Action :=
  [act "2" SCREENSHOT None; act "6" SCREENSHOT None;
   act "1" CLICK (Some (TargetStr "ok")); act "3" TYPE (Some (TargetStr "name"));
   act "5" CLICK (Some (TargetStr "cancel"))].

Lemma optimize_session : optimize_operation_sequence session = Ok optimized_session.
Proof. vm_compute. reflexivity. Qed.

(** The second click on ["ok"] is dropped and the screenshots move to the
    front. *)
Lemma optimized_sequence_shape_witness :
  optimize_operation_sequence session = Ok optimized_session
  /\ exists others,
       optimized_session = filter (fun op => type op = SCREENSHOT) session ++ others
       /\ others `sublist_of` session
       /\ Forall (fun op => type op <> SCREENSHOT) others
       /\ filter (fun op => type op <> CLICK) others
          = filter (fun op => type op <> CLICK /\ type op <> SCREENSHOT) session
       /\ NoDup (click_targets optimized_session)
       /\ (forall t, t ∈ click_targets session <-> t ∈ click_targets optimized_session).
Proof.
  split; [exact optimize_session|].
  exact (optimized_sequence_shape session optimized_session optimize_session).
Defined.

Lemma optimizing_is_idempotent_witness :
  optimize_operation_sequence session = Ok optimized_session
  /\ optimize_operation_sequence optimized_session = Ok optimized_session.
Proof.
  split; [exact optimize_session|].
  exact (optimizing_is_idempotent session optimized_session optimize_session).
Defined.

End Optimizer.

(** ** [operate/state/manager.py]: saved action patterns *)

Module Patterns.

Import Py Interfaces Manager.

(** [ActionType(value)]: the member with that value, if there is one. *)
Definition action_type_of_value (s : string) : option ActionType :=
  if String.eqb s "click" then Some CLICK
  else if String.eqb s "type" then Some TYPE
  else if String.eqb s "key" then Some KEY
  else if String.eqb s "screenshot" then Some SCREENSHOT
  else if String.eqb s "wait" then Some WAIT
  else if String.eqb s "scroll" then Some SCROLL
  else if String.eqb s "drag" then Some DRAG
  else if String.eqb s "hover" then Some HOVER
  else if String.eqb s "execute" then Some EXECUTE
  else if String.eqb s "github" then Some GITHUB
  else None.

(** The dict [save_pattern] stores for an action. *)
Definition pattern_entry (a : Action) : PyValue :=
  PyDict [("id", PyStr (Interfaces.id a));
          ("type", PyStr (action_type_value (type a)));
          ("target", if target_truthy (target a) then PyStr (target_str (target a))
                     else PyNone);
          ("value", value a);
          ("metadata", PyDict (Interfaces.metadata a))].

Section SavedPatterns.
Context {S : Type} `{StateStore S}.

(** [StateManager.save_pattern] *)
Definition save_pattern (pattern_name : string) (actions : list Action) (now : Z)
  (m : StateManager) : StateManager :=
  save_state ("patterns/" ++ pattern_name) (PyList (pattern_entry <$> actions)) now m.

(** An [Action] as [load_pattern] builds it.  The dataclass does not check
    its fields, so apart from the type, which goes through [ActionType],
    they hold whatever the stored dict holds. *)
Record LoadedAction : Type := mkLoadedAction {
  loaded_id : PyValue;
  loaded_type : ActionType;
  loaded_target : PyValue;
  loaded_value : PyValue;
  loaded_metadata : PyValue
}.

(** [Action(id=data["id"], type=ActionType(data["type"]),
    target=data.get("target"), value=data.get("value"),
    metadata=data.get("metadata", {}))], with [__post_init__] replacing a
    metadata of [None] by an empty dict. *)
Definition action_from (data : PyValue) : outcome LoadedAction :=
  match data with
  | PyDict d =>
      if negb (dict_has "id" d) then Raise (KeyError "id")
      else if negb (dict_has "type" d) then Raise (KeyError "type")
      else
        match match dict_get "type" d with
              | PyStr s => action_type_of_value s
              | _ => None
              end with
        | None => Raise (ValueError "not a valid ActionType")
        | Some t =>
            Ok {| loaded_id := dict_get "id" d;
                  loaded_type := t;
                  loaded_target := dict_get "target" d;
                  loaded_value := dict_get "value" d;
                  loaded_metadata :=
                    if dict_has "metadata" d
                    then match dict_get "metadata" d with
                         | PyNone => PyDict []
                         | md => md
                         end
                    else PyDict [] |}
        end
  | _ => Raise (TypeError "object is not subscriptable with 'id'")
  end.

(** The loop of [load_pattern] over a list. *)
Fixpoint actions_from (items : list PyValue) : outcome (list LoadedAction) :=
  match items with
  | [] => Ok []
  | data :: rest =>
      match action_from data with
      | Raise e => Raise e
      | Ok a =>
          match actions_from rest with
          | Raise e => Raise e
          | Ok l => Ok (a :: l)
          end
      end
  end.

(** [StateManager.load_pattern].  Stored data that is not a list is either
    not iterable or yields items that cannot be indexed with ["id"]: a
    [TypeError] in both cases. *)
Definition load_pattern (pattern_name : string) (now : Z) (m : StateManager)
  : outcome (option (list LoadedAction)) * StateManager :=
  let '(pattern_data, m') := load_state ("patterns/" ++ pattern_name) now m in
  if negb (truthy pattern_data) then (Ok None, m')
  else
    match pattern_data with
    | PyList items =>
        match actions_from items with
        | Ok actions => (Ok (Some actions), m')
        | Raise e => (Raise e, m')
        end
    | _ => (Raise (TypeError "pattern data is not a list of dicts"), m')
    end.

End SavedPatterns.

(** An action as it comes back: the id, type, value and metadata as they
    were, the target as the string it was saved as. *)
Definition reloaded (a : Action) : LoadedAction :=
  {| loaded_id := PyStr (Interfaces.id a);
     loaded_type := type a;
     loaded_target := if target_truthy (target a) then PyStr (target_str (target a))
                      else PyNone;
     loaded_value := value a;
     loaded_metadata := PyDict (Interfaces.metadata a) |}.

Lemma action_type_of_value_value t : action_type_of_value (action_type_value t) = Some t.
Proof. by destruct t. Qed.

Lemma action_from_entry a : action_from (pattern_entry a) = Ok (reloaded a).
Proof.
  unfold action_from, pattern_entry. cbn [dict_has dict_get String.eqb Ascii.eqb].
  simpl. by rewrite action_type_of_value_value.
Qed.

Lemma actions_from_entries actions :
  actions_from (pattern_entry <$> actions) = Ok (reloaded <$> actions).
Proof.
  induction actions as [|a actions IH]; [done|].
  rewrite !fmap_cons. cbn [actions_from]. by rewrite action_from_entry, IH.
Qed.

(** A pattern saved on the in-memory backend, outside a transaction, loads
    back while the state lives ([backend.ttl] is 0, or at most [backend.ttl]
    seconds have passed): every action comes back with its id, type, value
    and metadata, and with its target turned into a string (a [Coordinate]
    comes back as the text [Coordinate(x=.., y=..)], an empty string as
    [None]).  A pattern of no actions loads as [None], as if it had never
    been saved. *)
Theorem saved_pattern_loads_back (m : @StateManager MemoryStateStore)
  (pattern_name : string) (actions : list Action) (now now' : Z) :
  _current_transaction m = None ->
  backend_ttl m = 0 \/ now' <= now + backend_ttl m ->
  (load_pattern pattern_name now' (save_pattern pattern_name actions now m)).1 =
  match actions with
  | [] => Ok None
  | _ :: _ => Ok (Some (reloaded <$> actions))
  end.
Proof.
  intros Hnone Hlive. unfold load_pattern, save_pattern.
  pose proof (load_state_memory ("patterns/" ++ pattern_name) now'
                (save_state ("patterns/" ++ pattern_name)
                   (PyList (pattern_entry <$> actions)) now m)) as Hload.
  destruct (load_state _ now' _) as [pattern_data m'] eqn:Hl. simpl in Hload.
  assert (pattern_data = PyList (pattern_entry <$> actions)) as ->.
  { rewrite Hload. unfold save_state. rewrite Hnone. simpl.
    rewrite memory_get_set. simpl.
    destruct (Z.eqb_spec (backend_ttl m) 0) as [_|Hne]; [done|].
    destruct Hlive as [?|Hle]; [done|].
    by destruct (Z.ltb_spec (now + backend_ttl m) now'); [lia|]. }
  destruct actions as [|a actions]; [done|].
  rewrite actions_from_entries. by rewrite fmap_cons.
Qed.

(** A click on a coordinate and a key press, saved and loaded ten seconds
    later: the coordinate has become text. *)
Lemma saved_pattern_loads_back_witness :
  let m := memory_manager 3600 in
  let actions :=
    [ {| Interfaces.id := "1"; type := CLICK; target := Some (Coordinate 10 20);
         value := PyNone; Interfaces.metadata := [] |};
      {| Interfaces.id := "2"; type := KEY; target := None; value := PyStr "enter";
         Interfaces.metadata := [("delay", PyInt 1)] |} ] in
  _current_transaction m = None
  /\ (backend_ttl m = 0 \/ 10 <= 0 + backend_ttl m)
  /\ (load_pattern "login" 10 (save_pattern "login" actions 0 m)).1 =
     Ok (Some [ {| loaded_id := PyStr "1"; loaded_type := CLICK;
                   loaded_target := PyStr "Coordinate(x=10, y=20)";
                   loaded_value := PyNone; loaded_metadata := PyDict [] |};
                {| loaded_id := PyStr "2"; loaded_type := KEY; loaded_target := PyNone;
                   loaded_value := PyStr "enter";
                   loaded_metadata := PyDict [("delay", PyInt 1)] |} ]).
Proof.
  intros m actions.
  assert (_current_transaction m = None) as Hnone by reflexivity.
  assert (backend_ttl m = 0 \/ 10 <= 0 + backend_ttl m) as Hlive by (right; simpl; lia).
  split; [done|]. split; [done|].
  exact (saved_pattern_loads_back m "login" actions 0 10 Hnone Hlive).
Defined.

End Patterns.

(** ** [operate/core/orchestrator.py]: suggested optimizations *)

Module Suggestions.

Import Py Interfaces Orchestrator Optimizer.

#[export] Instance ActionType_countable : Countable ActionType :=
  inj_countable' action_type_value
    (fun s => default CLICK (Patterns.action_type_of_value s))
    (fun t => match t with
              | CLICK | TYPE | KEY | SCREENSHOT | WAIT | SCROLL | DRAG | HOVER
              | EXECUTE | GITHUB => eq_refl
              end).

(** A suggestion: [{"type": "parallelize", "operations": [a, b], ...}] or
    [{"type": "cache", "operation": a, "similar_to": b, ...}]. *)
Inductive Suggestion : Type :=
| Parallelize (operation next_operation : string)
| Cache (operation similar_to : string).

Definition is_cache (s : Suggestion) : Prop :=
  match s with Cache _ _ => True | Parallelize _ _ => False end.

#[export] Instance is_cache_dec s : Decision (is_cache s).
Proof. destruct s; simpl; apply _. Defined.

Section Suggest.
Context {Env : Type} `{Collaborators Env}.

(** [OperationOrchestrator._can_parallelize] *)
Definition _can_parallelize (op1 op2 : @Operation Env) : bool :=
  if bool_decide (target (action op1) = target (action op2)) then false
  else if bool_decide (type (action op1) ∈ [TYPE; EXECUTE])
          || bool_decide (type (action op2) ∈ [TYPE; EXECUTE]) then false
  else true.

(** The first loop of [suggest_optimizations], over each operation and the
    one after it. *)
Fixpoint parallelizable (operations : list (@Operation Env)) : list Suggestion :=
  match operations with
  | op :: (next_op :: _) as rest =>
      (if bool_decide (dependencies next_op = ∅) && _can_parallelize op next_op
       then [Parallelize (id op) (id next_op)] else [])
      ++ parallelizable rest
  | _ => []
  end.

(** The key an operation is remembered under: [(op.action.type, op.action.target)]. *)
Definition key (op : @Operation Env) : ActionType * option Target :=
  (type (action op), target (action op)).

(** The second loop.  [seen] is a dict, so each key is hashed, and hashing
    the tuple hashes the target. *)
Fixpoint repeated (operations : list (@Operation Env))
  (seen : gmap (ActionType * option Target) string) : outcome (list Suggestion) :=
  match operations with
  | [] => Ok []
  | op :: rest =>
      match Optimizer.hash_target (target (action op)) with
      | Raise e => Raise e
      | Ok _ =>
          match seen !! key op with
          | Some first =>
              match repeated rest seen with
              | Ok l => Ok (Cache (id op) first :: l)
              | Raise e => Raise e
              end
          | None => repeated rest (<[key op := id op]> seen)
          end
      end
  end.

(** [OperationOrchestrator.suggest_optimizations] *)
Definition suggest_optimizations (operations : list (@Operation Env)) : outcome (list Suggestion) :=
  match repeated operations ∅ with
  | Raise e => Raise e
  | Ok l => Ok (parallelizable operations ++ l)
  end.

(** An operation whose action targets a [Coordinate]. *)
Definition on_coordinate (op : @Operation Env) : Prop :=
  exists x y, target (action op) = Some (Coordinate x y).

Lemma repeated_raises operations seen :
  (exists e, repeated operations seen = Raise e) <-> Exists on_coordinate operations.
Proof.
  revert seen. induction operations as [|op rest IH]; intros seen; simpl.
  - split; [by intros [e ?] | by intros ?%Exists_nil].
  - rewrite Exists_cons. unfold on_coordinate at 1.
    destruct (Optimizer.hash_target (target (action op))) as [[]|e] eqn:Hhash.
    + assert (~ exists x y, target (action op) = Some (Coordinate x y)) as Hno.
      { intros Hc%Optimizer.hash_target_raises. destruct Hc as [e He]. congruence. }
      destruct (seen !! key op) as [first|].
      * specialize (IH seen). destruct (repeated rest seen) as [l|e].
        -- split; [by intros [e ?]|]. intros [?|Hex]; [done|].
           apply IH in Hex as [e ?]. done.
        -- split; [|by eexists]. intros _. right. apply IH. by eexists.
      * rewrite IH. tauto.
    + split; [|by eexists]. intros _. left. apply Optimizer.hash_target_raises. by eexists.
Qed.

(** [suggest_optimizations] cannot take an operation on a coordinate: the
    operations are remembered in a dict under [(type, target)], and a
    [Coordinate] cannot be hashed.  The call raises exactly when the action
    of some operation of the list, of whatever type, targets a
    [Coordinate]; no suggestion is returned then. *)
Theorem coordinate_target_breaks_suggestions (operations : list (@Operation Env)) :
  (exists e, suggest_optimizations operations = Raise e)
  <-> Exists on_coordinate operations.
Proof.
  rewrite <- (repeated_raises operations ∅). unfold suggest_optimizations.
  destruct (repeated operations ∅) as [l|e].
  - split; by intros [e ?].
  - split; intros _; by eexists.
Qed.

Lemma parallelizable_cons op rest :
  parallelizable (op :: rest) =
  match rest with
  | next_op :: _ =>
      if bool_decide (dependencies next_op = ∅) && _can_parallelize op next_op
      then [Parallelize (id op) (id next_op)] else []
  | [] => []
  end ++ parallelizable rest.
Proof. by destruct rest. Qed.

Lemma filter_parallelizable operations : filter is_cache (parallelizable operations) = [].
Proof.
  induction operations as [|op rest IH]; [done|].
  rewrite parallelizable_cons, filter_app, IH, app_nil_r.
  destruct rest as [|next_op rest]; [done|]. by destruct (_ && _).
Qed.

(** The second loop reports every operation whose key is known already,
    and learns the key of every other. *)
Lemma repeated_count operations seen l :
  repeated operations seen = Ok l ->
  Forall is_cache l
  /\ (length l + size (dom seen ∪ list_to_set (key <$> operations)) =
      length operations + size (dom seen))%nat.
Proof.
  revert seen l. induction operations as [|op rest IH]; intros seen l; cbn [repeated].
  - intros [= <-]. split; [constructor|].
    rewrite fmap_nil, list_to_set_nil, (right_id_L ∅ (∪)). done.
  - destruct (Optimizer.hash_target (target (action op))) as [[]|e]; [|done].
    rewrite fmap_cons, list_to_set_cons, (assoc_L (∪)). cbn [length].
    destruct (seen !! key op) as [first|] eqn:Hseen.
    + destruct (repeated rest seen) as [l'|e] eqn:Hl'; [|done]. intros [= <-].
      destruct (IH seen l' Hl') as [Hc Hn]. split; [by constructor|].
      assert ({[key op]} ⊆ dom seen) as Hin.
      { apply singleton_subseteq_l, elem_of_dom. by eexists. }
      rewrite (comm_L (∪) (dom seen)), (subseteq_union_1_L _ _ Hin).
      cbn [length]. lia.
    + intros Hl. destruct (IH _ l Hl) as [Hc Hn]. split; [done|].
      rewrite dom_insert_L in Hn.
      assert ({[key op]} ## dom seen) as Hnew.
      { apply disjoint_singleton_l. by apply not_elem_of_dom. }
      rewrite (size_union _ _ Hnew), size_singleton in Hn.
      rewrite (comm_L (∪) (dom seen)). lia.
Qed.

(** When [suggest_optimizations] returns, its cache suggestions count the
    repetitions: one for every operation beyond the first with the same
    action type and target, so together with the distinct (type, target)
    pairs they are as many as the operations.  They follow the parallelize
    suggestions, which are made for neighbours only. *)
Theorem repeated_operations_are_reported (operations : list (@Operation Env)) (l : list Suggestion) :
  suggest_optimizations operations = Ok l ->
  exists caches,
    l = parallelizable operations ++ caches
    /\ filter is_cache l = caches
    /\ (length caches + size (list_to_set (key <$> operations) : gset _)
        = length operations)%nat.
Proof.
  unfold suggest_optimizations.
  destruct (repeated operations ∅) as [caches|e] eqn:Hrep; [|done]. intros [= <-].
  destruct (repeated_count operations ∅ caches Hrep) as [Hc Hn].
  exists caches. split; [done|]. split.
  - rewrite filter_app, filter_parallelizable. simpl.
    clear -Hc. induction Hc as [|s caches Hs Hc IH]; [done|].
    rewrite filter_cons, decide_True by done. by rewrite IH.
  - rewrite dom_empty_L, size_empty, (left_id_L ∅ (∪)) in Hn. lia.
Qed.

End Suggest.

(** Four operations of the small world: two clicks on ["ok"], a scroll and
    a key press.  The second click repeats the first; the scroll and the key
    press can run side by side. *)
Definition on (i : string) (t : ActionType) (tgt : option Target) : @Operation Z :=
  {| id := i;
     action := {| Interfaces.id := i; type := t; target := tgt; value := PyNone;
                  Interfaces.metadata := [] |};
     pre_validation := None; post_validation := None; rollback := None;
     dependencies := ∅; metadata := []; retry_count := 0; max_retries := 3;
     timeout := None |}.

Definition plan : list (@Operation Z) :=
  [on "1" CLICK (Some (TargetStr "ok")); on "2" CLICK (Some (TargetStr "ok"));
   on "3" SCROLL (Some (TargetStr "list")); on "4" KEY None].

Lemma suggest_plan :
  suggest_optimizations plan = Ok [Parallelize "2" "3"; Parallelize "3" "4"; Cache "2" "1"].
Proof. vm_compute. reflexivity. Qed.

Lemma repeated_operations_are_reported_witness :
  suggest_optimizations plan = Ok [Parallelize "2" "3"; Parallelize "3" "4"; Cache "2" "1"]
  /\ exists caches,
       [Parallelize "2" "3"; Parallelize "3" "4"; Cache "2" "1"]
       = parallelizable plan ++ caches
       /\ filter is_cache [Parallelize "2" "3"; Parallelize "3" "4"; Cache "2" "1"] = caches
       /\ (length caches + size (list_to_set (key <$> plan) : gset _) = length plan)%nat.
Proof.
  split; [exact suggest_plan|].
  exact (repeated_operations_are_reported plan _ suggest_plan).
Defined.

End Suggestions.
